(** * neurodiffeq.ode: the training orchestration of [solve] / [solve_system]
    and the [Solution] snapshot, as a shallow embedding.

    Python objects that can be shared and mutated (networks, conditions,
    lists, generators, the optimizer, the monitor) live in a heap indexed
    by locations; every function of [ode.py] becomes a state-passing
    function over a world made of that heap and the global random state.
    A Python exception is a [Raise] result that keeps the world reached
    when it was thrown. *)

From stdpp Require Import gmap strings list fin_maps.
From Stdlib Require Import ZArith Lia.

(** ** Exceptions and results *)

Inductive Err :=
| RuntimeError (msg : string)
| ValueError (msg : string)
| TypeError
| AttributeError
| IndexError
| KeyError
| ZeroDivisionError
| OtherError
| OutOfFuel.

Inductive Result (A : Type) :=
| Ok (a : A)
| Raise (e : Err).
Arguments Ok {A} a.
Arguments Raise {A} e.

Definition rbind {A B} (r : Result A) (f : A → Result B) : Result B :=
  match r with
  | Ok a => f a
  | Raise e => Raise e
  end.

Notation "'try' x <- r ; k" := (rbind r (λ x, k))
  (at level 10, x name, r at level 100, k at level 200).
Notation "'try' ' p <- r ; k" := (rbind r (λ x, match x with p => k end))
  (at level 10, p pattern, r at level 100, k at level 200).

Fixpoint rmap {A B} (f : A → Result B) (l : list A) : Result (list B) :=
  match l with
  | [] => Ok []
  | a :: l' => try b <- f a; try bs <- rmap f l'; Ok (b :: bs)
  end.

Definition is_ok {A} (r : Result A) : bool :=
  match r with Ok _ => true | Raise _ => false end.

(** ** Tensors: a shape and the row-major data *)

Record Tensor (S : Type) := mkTensor { shape : list nat; data : list S }.
Arguments mkTensor {S} shape data.
Arguments shape {S} t.
Arguments data {S} t.

Definition numel (s : list nat) : nat := foldr Nat.mul 1 s.

Section tensor.
Context {S : Type}.

(** [t.reshape(-1, 1)] and [t.reshape((-1, 1))]: always a column. *)
Definition reshape_col (t : Tensor S) : Tensor S :=
  mkTensor [length (data t); 1] (data t).

(** [t.reshape(new_shape)]: the element counts must agree. *)
Definition reshape (new_shape : list nat) (t : Tensor S) : Result (Tensor S) :=
  if decide (numel new_shape = length (data t))
  then Ok (mkTensor new_shape (data t))
  else Raise (RuntimeError "shape is invalid for input").

(** [torch.zeros_like(t)] *)
Definition zeros_like (zero : S) (t : Tensor S) : Tensor S :=
  mkTensor (shape t) (replicate (length (data t)) zero).

(** Width of one row: the product of the trailing dimensions. *)
Definition row_width (t : Tensor S) : nat := numel (tail (shape t)).

Definition n_rows (t : Tensor S) : option nat := head (shape t).

Definition row (t : Tensor S) (i : nat) : Result (list S) :=
  match n_rows t with
  | None => Raise IndexError
  | Some n =>
      if decide (i < n)
      then Ok (take (row_width t) (drop (i * row_width t) (data t)))
      else Raise IndexError
  end.

(** [t[batch_idx]] with an integer index array: gathers rows. *)
Definition index_rows (t : Tensor S) (batch_idx : list nat) : Result (Tensor S) :=
  try rows <- rmap (row t) batch_idx;
  Ok (mkTensor (length batch_idx :: tail (shape t)) (concat rows)).
End tensor.

(** ** Slicing [l[a:b]] with Python's index normalisation *)

Definition norm_index (n i : Z) : Z :=
  if (i <? 0)%Z then Z.max 0 (i + n) else Z.min i n.

Definition py_slice {A} (l : list A) (a b : Z) : list A :=
  let n := Z.of_nat (length l) in
  let a' := norm_index n a in
  let b' := norm_index n b in
  take (Z.to_nat (b' - a')) (drop (Z.to_nat a') l).

(** ** The state-and-exception monad of the program

    [W] is the type of worlds.  An exception keeps the world in which it
    was raised: what the program did before failing stays done. *)

Definition M (W A : Type) : Type := W → Result A * W.

Definition ret {W A} (a : A) : M W A := λ w, (Ok a, w).

Definition bind {W A B} (m : M W A) (f : A → M W B) : M W B :=
  λ w, match m w with
       | (Ok a, w') => f a w'
       | (Raise e, w') => (Raise e, w')
       end.

Definition raise {W A} (e : Err) : M W A := λ w, (Raise e, w).

Definition lift {W A} (r : Result A) : M W A := λ w, (r, w).

Notation "'do' x <- m ; k" := (bind m (λ x, k))
  (at level 10, x name, m at level 100, k at level 200).
Notation "'do' ' p <- m ; k" := (bind m (λ x, match x with p => k end))
  (at level 10, p pattern, m at level 100, k at level 200).
Notation "m ;; k" := (bind m (λ _, k))
  (at level 100, k at level 200, right associativity).

Fixpoint foldM {W A B} (f : B → A → M W B) (l : list A) (b : B) : M W B :=
  match l with
  | [] => ret b
  | a :: l' => do b' <- f b a; foldM f l' b'
  end.

Fixpoint forM_ {W A} (f : A → M W unit) (l : list A) : M W unit :=
  match l with
  | [] => ret tt
  | a :: l' => f a;; forM_ f l'
  end.

(** The exceptions a computation can raise. *)
Definition raises_only {W A} (P : Err → Prop) (m : M W A) : Prop :=
  ∀ w e w', m w = (Raise e, w') → P e.

(** ** The heap of Python objects *)

Definition loc := positive.

(** Modelled from the spec: the classes of [neurodiffeq.conditions],
    [.generators], [.monitors], [.networks] and of [torch.optim] are
    imported by [ode.py], not defined in it.  These are the kinds of
    mutable objects [ode.py] handles; [P], [C], [G], [O] and [Mo] are the
    private states of the external classes (network parameters,
    condition data, generator, optimizer, monitor).  A condition "owns a
    mutable output slot tag set once before training" ([ith_unit],
    written by [set_impose_on]); a generator has a [size] and
    [get_examples]; a monitor has the integer [check_every]; an optimizer
    is "constructed over the trainable-parameter collection" (the
    networks listed in [targets]). *)
Inductive Obj (P C G O Mo : Type) :=
| ONet (params : P)
| OCond (ith_unit : option nat) (cdata : C)
| OList (items : list loc)
| OGen (g : G)
| OOpt (targets : list loc) (ostate : O)
| OMon (check_every : Z) (mstate : Mo).
Arguments ONet {P C G O Mo} params.
Arguments OCond {P C G O Mo} ith_unit cdata.
Arguments OList {P C G O Mo} items.
Arguments OGen {P C G O Mo} g.
Arguments OOpt {P C G O Mo} targets ostate.
Arguments OMon {P C G O Mo} check_every mstate.

(** ** The external collaborators

    Everything [ode.py] imports and calls but does not define, taken as
    parameters: scalar arithmetic of losses, the forward pass of a
    condition over a network, the default constructors, the sampling
    functions, the update rule of the optimizer (gradient and step
    together, given the loss as a function of the registered parameters)
    and the monitor's callback.  The monitor reads the networks, the
    conditions and the history and changes only itself: it "does not
    affect training outcomes".  [net_bool] is the truth value Python
    gives a network ([bool(net)]): a module is true unless its class has
    a length and the length is zero, as for [nn.Sequential()]; [FCNN]
    defines no length, so a network it builds is true. *)
Class Env := {
  Scalar : Type;
  s_zero : Scalar;
  s_add : Scalar → Scalar → Scalar;
  s_lt : Scalar → Scalar → bool;
  s_inf : Scalar;
  Params : Type;
  net_bool : Params → bool;
  CondData : Type;
  Gen : Type;
  OptSt : Type;
  MonSt : Type;
  RNG : Type;
  enforce : CondData → option nat → Params → Tensor Scalar → Result (Tensor Scalar);
  FCNN : nat → nat → list nat → string → RNG → Params * RNG;
  FCNN_bool : ∀ n_in n_out hidden actv g,
    net_bool (FCNN n_in n_out hidden actv g).1 = true;
  Generator1D : nat → Scalar → Scalar → string → Gen;
  gen_size : Gen → nat;
  get_examples : Gen → RNG → Tensor Scalar * Gen * RNG;
  permutation : nat → RNG → list nat * RNG;
  permutation_perm : ∀ n g, (permutation n g).1 ≡ₚ seq 0 n;
  Adam : list Params → OptSt;
  opt_update : OptSt → (list Params → Result Scalar) → list Params
               → Result (list Params * OptSt);
  MSELoss : Tensor Scalar → Tensor Scalar → Result Scalar;
  mon_check : MonSt → gmap loc (Obj Params CondData Gen OptSt MonSt)
              → option loc → option loc → loc → gmap string (list Scalar)
              → Result MonSt
}.

Section ode.
Context `{E : Env}.

Abbreviation T := (Tensor Scalar).
Abbreviation Object := (Obj Params CondData Gen OptSt MonSt).
Abbreviation Heap := (gmap loc Object).
Abbreviation History := (gmap string (list Scalar)).

Record World := mkWorld { heap : Heap; rng : RNG }.

Definition get_heap : M World Heap := λ w, (Ok (heap w), w).

Definition put_heap (h : Heap) : M World unit := λ w, (Ok tt, mkWorld h (rng w)).


(** ** Reading and writing objects *)

Definition get_net (h : Heap) (l : loc) : Result Params :=
  match h !! l with Some (ONet p) => Ok p | _ => Raise TypeError end.

Definition get_cond (h : Heap) (l : loc) : Result (option nat * CondData) :=
  match h !! l with Some (OCond i c) => Ok (i, c) | _ => Raise TypeError end.

Definition get_list (h : Heap) (l : loc) : Result (list loc) :=
  match h !! l with Some (OList ls) => Ok ls | _ => Raise TypeError end.

Definition get_gen (h : Heap) (l : loc) : Result Gen :=
  match h !! l with Some (OGen g) => Ok g | _ => Raise TypeError end.

Definition get_opt (h : Heap) (l : loc) : Result (list loc * OptSt) :=
  match h !! l with Some (OOpt ts s) => Ok (ts, s) | _ => Raise TypeError end.

Definition get_mon (h : Heap) (l : loc) : Result (Z * MonSt) :=
  match h !! l with Some (OMon k s) => Ok (k, s) | _ => Raise TypeError end.

(** A new object gets an address no live object has. *)
Definition alloc (o : Object) : M World loc :=
  λ w, let l := fresh (dom (heap w)) in
       (Ok l, mkWorld (<[l := o]> (heap w)) (rng w)).

(** Truth value of an optional object ([if x:], [not x]): [None] is false,
    a list is true when it is not empty, a network has the truth value
    of its module, any other object is true. *)
Definition truthy (h : Heap) (x : option loc) : bool :=
  match x with
  | None => false
  | Some l =>
      match h !! l with
      | Some (OList []) => false
      | Some (ONet p) => net_bool p
      | _ => true
      end
  end.

Definition put_obj (l : loc) (o : Object) : M World unit :=
  λ w, (Ok tt, mkWorld (<[l := o]> (heap w)) (rng w)).

(** ** [_trial_solution] *)

(** [con.enforce(net, ts)] on two heap objects. *)
Definition con_enforce (h : Heap) (con net : loc) (ts : T) : Result T :=
  try '(ith_unit, c) <- get_cond h con;
  try p <- get_net h net;
  enforce c ith_unit p ts.

Definition _trial_solution (h : Heap) (single_net nets : option loc) (ts : T)
    (conditions : loc) : Result (list T) :=
  if truthy h single_net then
    match single_net with
    | Some net =>
        try cons <- get_list h conditions;
        rmap (λ con, con_enforce h con net ts) cons
    | None => Raise TypeError
    end
  else
    match nets with
    | Some nl =>
        try cons <- get_list h conditions;
        try ns <- get_list h nl;
        rmap (λ '(con, net), con_enforce h con net ts) (zip cons ns)
    | None => Raise TypeError
    end.

(** ** The subroutines of [solve_system] *)

Abbreviation OdeSystem := (list T → T → Result (list T)).
Abbreviation Criterion := (T → T → Result Scalar).
Abbreviation LossTerm := (list T → T → Result Scalar).
Abbreviation Metrics := (list (string * (list T → T → Result Scalar))).

Definition calculate_loss (h : Heap) (ts : T) (net nets : option loc)
    (ode_system : OdeSystem) (conditions : loc) (criterion : Criterion)
    (additional_loss_term : option LossTerm) : Result Scalar :=
  try us <- _trial_solution h net nets ts conditions;
  try Futs <- ode_system us ts;
  try terms <- rmap (λ Fut, criterion Fut (zeros_like s_zero ts)) Futs;
  let loss := foldl s_add s_zero terms in
  match additional_loss_term with
  | Some extra => try a <- extra us ts; Ok (s_add loss a)
  | None => Ok loss
  end.

Definition calculate_metrics (h : Heap) (ts : T) (net nets : option loc)
    (conditions : loc) (metrics : Metrics) : Result (list (string * Scalar)) :=
  try us <- _trial_solution h net nets ts conditions;
  rmap (λ '(metric_name, metric_function),
          try v <- metric_function us ts; Ok (metric_name, v)) metrics.

(** [sum] of no term is Python's integer [0], not a tensor: that is what
    [calculate_loss] returns when the system has no equation and there is
    no additional term. *)
Definition loss_is_int (h : Heap) (ts : T) (net nets : option loc)
    (ode_system : OdeSystem) (conditions : loc)
    (additional_loss_term : option LossTerm) : bool :=
  match additional_loss_term, _trial_solution h net nets ts conditions with
  | None, Ok us => match ode_system us ts with Ok [] => true | _ => false end
  | _, _ => false
  end.

(** The loss where a tensor is needed ([loss.backward()],
    [loss.item()]): the integer [0] has neither attribute. *)
Definition loss_tensor (h : Heap) (ts : T) (net nets : option loc)
    (ode_system : OdeSystem) (conditions : loc) (criterion : Criterion)
    (additional_loss_term : option LossTerm) : Result Scalar :=
  try loss <- calculate_loss h ts net nets ode_system conditions criterion
                additional_loss_term;
  if loss_is_int h ts net nets ode_system conditions additional_loss_term
  then Raise AttributeError
  else Ok loss.

(** Overwrites the parameters of the registered networks. *)
Definition write_params (h : Heap) (targets : list loc) (ps : list Params) : Heap :=
  foldr (λ '(l, p) h', <[l := ONet p]> h') h (zip targets ps).

(** [optimizer.zero_grad(); loss.backward(); optimizer.step()]: the
    gradients are those of this loss alone, taken as a function of the
    parameters registered in the optimizer. *)
Definition backward_and_step (optimizer : option loc) (loss_of : Heap → Result Scalar)
    : M World unit :=
  match optimizer with
  | None => raise AttributeError
  | Some o =>
      do h <- get_heap;
      do '(targets, st) <- lift (get_opt h o);
      do ps <- lift (rmap (get_net h) targets);
      do '(ps', st') <- lift (opt_update st (λ qs, loss_of (write_params h targets qs)) ps);
      put_heap (<[o := OOpt targets st']> (write_params h targets ps'))
  end.

(** One pass through the body of the [while] loop of [train]. *)
Definition train_batch (ts : T) (net nets : option loc) (ode_system : OdeSystem)
    (conditions : loc) (criterion : Criterion)
    (additional_loss_term : option LossTerm) (optimizer : option loc) : M World unit :=
  do h <- get_heap;
  do train_loss_batch <- lift (loss_tensor h ts net nets ode_system conditions
                                 criterion additional_loss_term);
  backward_and_step optimizer
    (λ h', calculate_loss h' ts net nets ode_system conditions
             criterion additional_loss_term).

(** The [while batch_start < n_examples_train] loop.  [fuel] bounds the
    number of iterations; the loop condition is tested first, so running
    out of fuel means the loop wanted one more iteration. *)
Fixpoint train_loop (fuel : nat) (batch_size : Z) (train_examples_t : T)
    (n_examples_train : nat) (idx : list nat) (batch_start batch_end : Z)
    (net nets : option loc) (ode_system : OdeSystem) (conditions : loc)
    (criterion : Criterion) (additional_loss_term : option LossTerm)
    (optimizer : option loc) : M World unit :=
  if (batch_start <? Z.of_nat n_examples_train)%Z then
    match fuel with
    | O => raise OutOfFuel
    | S fuel' =>
        let batch_end :=
          if (batch_end >? Z.of_nat n_examples_train)%Z
          then Z.of_nat n_examples_train else batch_end in
        let batch_idx := py_slice idx batch_start batch_end in
        do ts <- lift (index_rows train_examples_t batch_idx);
        train_batch ts net nets ode_system conditions criterion
          additional_loss_term optimizer;;
        train_loop fuel' batch_size train_examples_t n_examples_train idx
          (batch_start + batch_size)%Z (batch_end + batch_size)%Z
          net nets ode_system conditions criterion additional_loss_term optimizer
    end
  else ret tt.

(** Modelled from the spec: [generator.get_examples()] and
    [generator.size] on a heap object; a generator is "reusable across
    epochs (may re-sample internally)", so sampling may change the
    generator and consume randomness. *)
Definition gen_get_examples (g : loc) : M World T :=
  λ w, match get_gen (heap w) g with
       | Ok gen =>
           let '(t, gen', r') := get_examples gen (rng w) in
           (Ok t, mkWorld (<[g := OGen gen']> (heap w)) r')
       | Raise e => (Raise e, w)
       end.

Definition gen_get_size (g : loc) : M World nat :=
  do h <- get_heap; do gen <- lift (get_gen h g); ret (gen_size gen).

(** [np.random.permutation(n)] *)
Definition np_random_permutation (n : nat) : M World (list nat) :=
  λ w, let '(idx, r') := permutation n (rng w) in (Ok idx, mkWorld (heap w) r').

(** [train]: [batch_size] and [metrics] are the free variables the nested
    function captures from [solve_system].  The loop is given
    [n_examples_train] iterations, which it never exceeds for a positive
    batch size ([train_loop_from]); for any other batch size the Python
    loop does not end ([train_loop_diverges]). *)
Definition train (batch_size : Z) (metrics : Metrics) (train_generator : loc)
    (net nets : option loc) (ode_system : OdeSystem) (conditions : loc)
    (criterion : Criterion) (additional_loss_term : option LossTerm)
    (shuffle : bool) (optimizer : option loc)
    : M World (Scalar * list (string * Scalar)) :=
  do train_examples_t <- gen_get_examples train_generator;
  let train_examples_t := reshape_col train_examples_t in
  do n_examples_train <- gen_get_size train_generator;
  do idx <- (if shuffle then np_random_permutation n_examples_train
             else ret (seq 0 n_examples_train));
  train_loop n_examples_train batch_size train_examples_t n_examples_train idx
    0%Z batch_size net nets ode_system conditions criterion
    additional_loss_term optimizer;;
  do h <- get_heap;
  do train_loss_epoch <- lift (loss_tensor h train_examples_t net nets ode_system
                                 conditions criterion additional_loss_term);
  do train_metrics_epoch <- lift (calculate_metrics h train_examples_t net nets
                                    conditions metrics);
  ret (train_loss_epoch, train_metrics_epoch).

Definition valid (metrics : Metrics) (valid_generator : loc)
    (net nets : option loc) (ode_system : OdeSystem) (conditions : loc)
    (criterion : Criterion) (additional_loss_term : option LossTerm)
    : M World (Scalar * list (string * Scalar)) :=
  do valid_examples_t <- gen_get_examples valid_generator;
  let valid_examples_t := reshape_col valid_examples_t in
  do h <- get_heap;
  do valid_loss_epoch <- lift (loss_tensor h valid_examples_t net nets ode_system
                                 conditions criterion additional_loss_term);
  do valid_metrics_epoch <- lift (calculate_metrics h valid_examples_t net nets
                                    conditions metrics);
  ret (valid_loss_epoch, valid_metrics_epoch).

(** ** [copy.deepcopy] on networks, conditions and lists of them

    An element already copied in this call (found in [memo]) is reused,
    as [deepcopy] does through its memo dictionary. *)
Definition deepcopy_leaf (memo : gmap loc loc) (x : loc) : M World (loc * gmap loc loc) :=
  match memo !! x with
  | Some y => ret (y, memo)
  | None =>
      do h <- get_heap;
      match h !! x with
      | Some (ONet p) => do y <- alloc (ONet p); ret (y, <[x := y]> memo)
      | Some (OCond i c) => do y <- alloc (OCond i c); ret (y, <[x := y]> memo)
      | _ => raise TypeError
      end
  end.

Fixpoint deepcopy_items (memo : gmap loc loc) (items : list loc)
    : M World (list loc) :=
  match items with
  | [] => ret []
  | x :: items' =>
      do '(y, memo') <- deepcopy_leaf memo x;
      do ys <- deepcopy_items memo' items';
      ret (y :: ys)
  end.

Definition deepcopy_obj (l : loc) : M World loc :=
  do h <- get_heap;
  match h !! l with
  | Some (OList items) =>
      do y <- alloc (OList []);
      do ys <- deepcopy_items {[l := y]} items;
      put_obj y (OList ys);;
      ret y
  | _ => do '(y, _) <- deepcopy_leaf ∅ l; ret y
  end.

(** [deepcopy(None)] is [None]. *)
Definition deepcopy (x : option loc) : M World (option loc) :=
  match x with
  | None => ret None
  | Some l => do y <- deepcopy_obj l; ret (Some y)
  end.

(** ** [class Solution] *)

Record Solution := mkSolution {
  self_single_net : option loc;
  self_nets : option loc;
  self_conditions : loc
}.

(** [Solution.__init__] *)
Definition Solution_init (single_net nets : option loc) (conditions : loc)
    : M World Solution :=
  do sn <- deepcopy single_net;
  do ns <- deepcopy nets;
  do cs <- deepcopy_obj conditions;
  ret (mkSolution sn ns cs).

(** The [ts] argument: a tensor, or a sequence of numbers or one number
    that [torch.tensor] converts. *)
Inductive Points :=
| PTensor (t : T)
| PSequence (xs : list Scalar)
| PNumber (x : Scalar).

Definition torch_tensor (ts : Points) : T :=
  match ts with
  | PTensor t => t
  | PSequence xs => mkTensor [length xs] xs
  | PNumber x => mkTensor [] [x]
  end.

(** What [__call__] hands back: tensors or numpy arrays, one or a list. *)
Inductive Value :=
| TorchTensor (t : T)
| NumpyArray (t : T).


Inductive Returned :=
| RetOne (u : Value)
| RetList (us : list Value).

(** [Solution.__call__] *)
Definition Solution_call (h : Heap) (self : Solution) (ts : Points)
    (as_type : string) : Result Returned :=
  let ts := torch_tensor ts in
  let original_shape := shape ts in
  let ts := reshape_col ts in
  if negb (bool_decide (as_type = "tf") || bool_decide (as_type = "np")) then
    Raise (ValueError "The valid return types are 'tf' and 'np'.")
  else
    try us <- _trial_solution h (self_single_net self) (self_nets self) ts
                (self_conditions self);
    try us <- rmap (reshape original_shape) us;
    let us := if bool_decide (as_type = "np")
              then NumpyArray <$> us else TorchTensor <$> us in
    try cons <- get_list h (self_conditions self);
    if decide (1 < length cons) then Ok (RetList us)
    else match us with
         | u :: _ => Ok (RetOne u)
         | [] => Raise IndexError
         end.

(** ** [solve_system] *)

Record Internal := mkInternal {
  i_single_net : option loc;
  i_nets : option loc;
  i_conditions : loc;
  i_train_generator : loc;
  i_valid_generator : loc;
  i_optimizer : option loc;
  i_criterion : Criterion
}.

(** The returned tuple: [(solution, history)] or
    [(solution, history, internal)]; [solution] may be [None]. *)
Record Output := mkOutput {
  solution : option Solution;
  history : History;
  internal : option Internal
}.

(** Modelled from the spec: [con.set_impose_on(ith)], the
    "set_output_slot(index)" of a condition, stores the index of the
    output unit the condition reads. *)
Definition set_impose_on (con : loc) (ith : nat) : M World unit :=
  do h <- get_heap;
  do '(_, c) <- lift (get_cond h con);
  put_obj con (OCond (Some ith) c).

(** [history[key].append(v)] *)
Definition history_append (key : string) (v : Scalar) (hist : History) : Result History :=
  match hist !! key with
  | Some l => Ok (<[key := l ++ [v]]> hist)
  | None => Raise KeyError
  end.

(** [for name, value in metrics_epoch.items(): history[prefix+name].append(value)] *)
Fixpoint history_append_metrics (prefix : string) (ms : list (string * Scalar))
    (hist : History) : Result History :=
  match ms with
  | [] => Ok hist
  | (metric_name, metric_value) :: ms' =>
      try hist' <- history_append (prefix +:+ metric_name) metric_value hist;
      history_append_metrics prefix ms' hist'
  end.

(** The history as created before the first epoch. *)
Definition history_init (metrics : Metrics) : History :=
  foldl (λ hist '(metric_name, _),
           <["valid__" +:+ metric_name := []]>
             (<["train__" +:+ metric_name := []]> hist))
        (<["valid_loss" := []]> (<["train_loss" := []]> ∅)) metrics.

(** The variables the epoch loop carries from one iteration to the next. *)
Record LoopState := mkLoop {
  ls_history : History;
  ls_valid_loss_epoch_min : Scalar;
  ls_solution_min : option Solution
}.

(** [if monitor and epoch % monitor.check_every == 0: monitor.check(...)] *)
Definition monitor_check (monitor : option loc) (epoch : nat)
    (single_net nets : option loc) (conditions : loc) (hist : History)
    : M World unit :=
  do h <- get_heap;
  if truthy h monitor then
    match monitor with
    | Some m =>
        do '(check_every, ms) <- lift (get_mon h m);
        if decide (check_every = 0%Z) then raise ZeroDivisionError
        else if decide ((Z.of_nat epoch mod check_every)%Z = 0%Z) then
          do ms' <- lift (mon_check ms h single_net nets conditions hist);
          put_obj m (OMon check_every ms')
        else ret tt
    | None => ret tt
    end
  else ret tt.

(** The part of the loop body before the best-checkpoint test: both
    passes, the history updates and the monitor.  Returns the history and
    this epoch's validation loss. *)
Definition epoch_passes (batch_size : Z) (metrics : Metrics)
    (train_generator valid_generator : loc) (single_net nets : option loc)
    (ode_system : OdeSystem) (conditions : loc) (criterion : Criterion)
    (additional_loss_term : option LossTerm) (shuffle : bool)
    (optimizer monitor : option loc) (hist : History) (epoch : nat)
    : M World (History * Scalar) :=
  do '(train_loss_epoch, train_metrics_epoch) <-
    train batch_size metrics train_generator single_net nets ode_system
      conditions criterion additional_loss_term shuffle optimizer;
  do hist <- lift (history_append "train_loss" train_loss_epoch hist);
  do hist <- lift (history_append_metrics "train__" train_metrics_epoch hist);
  do '(valid_loss_epoch, valid_metrics_epoch) <-
    valid metrics valid_generator single_net nets ode_system conditions
      criterion additional_loss_term;
  do hist <- lift (history_append "valid_loss" valid_loss_epoch hist);
  do hist <- lift (history_append_metrics "valid__" valid_metrics_epoch hist);
  monitor_check monitor epoch single_net nets conditions hist;;
  ret (hist, valid_loss_epoch).

(** The body of [for epoch in range(max_epochs)]. *)
Definition epoch_body (batch_size : Z) (metrics : Metrics)
    (train_generator valid_generator : loc) (single_net nets : option loc)
    (ode_system : OdeSystem) (conditions : loc) (criterion : Criterion)
    (additional_loss_term : option LossTerm) (shuffle : bool)
    (optimizer monitor : option loc) (return_best : bool)
    (st : LoopState) (epoch : nat) : M World LoopState :=
  do '(hist, valid_loss_epoch) <-
    epoch_passes batch_size metrics train_generator valid_generator single_net
      nets ode_system conditions criterion additional_loss_term shuffle
      optimizer monitor (ls_history st) epoch;
  if return_best && s_lt valid_loss_epoch (ls_valid_loss_epoch_min st) then
    do solution_min <- Solution_init single_net nets conditions;
    ret (mkLoop hist valid_loss_epoch (Some solution_min))
  else ret (mkLoop hist (ls_valid_loss_epoch_min st) (ls_solution_min st)).

(** [FCNN(n_input_units=1, n_output_units=..., hidden_units=(32, 32),
    actv=nn.Tanh)]: a new network object with random initial weights. *)
Definition new_FCNN (n_input_units n_output_units : nat) (hidden_units : list nat)
    (actv : string) : M World loc :=
  λ w, let '(p, r') := FCNN n_input_units n_output_units hidden_units actv (rng w) in
       alloc (ONet p) (mkWorld (heap w) r').

(** Lines 295-308: the conflict check, the default shared network and the
    marking of the conditions.  Returns the resolved [single_net]. *)
Definition resolve_networks (conditions : loc) (single_net nets : option loc)
    : M World (option loc) :=
  do h <- get_heap;
  if truthy h single_net && truthy h nets then
    raise (RuntimeError "Only one of net and nets should be specified")
  else
  (* defaults to use a single neural network *)
  do single_net <-
    (if negb (truthy h single_net) && negb (truthy h nets) then
       do cons <- lift (get_list h conditions);
       do net <- new_FCNN 1 (length cons) [32; 32] "Tanh";
       ret (Some net)
     else ret single_net);
  do h <- get_heap;
  (if truthy h single_net then
     (* mark the Conditions so that we know which condition correspond to
        which output unit *)
     do cons <- lift (get_list h conditions);
     forM_ (λ '(ith, con), set_impose_on con ith) (zip (seq 0 (length cons)) cons)
   else ret tt);;
  ret single_net.

(** Lines 309-316, once per generator:
    [if not generator: (check bounds); generator = Generator1D(32, ...)]. *)
Definition resolve_generator (generator : option loc) (t_min t_max : option Scalar)
    (method : string) : M World loc :=
  do h <- get_heap;
  match generator, truthy h generator with
  | Some g, true => ret g
  | _, _ =>
      match t_min, t_max with
      | Some lo, Some hi => alloc (OGen (Generator1D 32 lo hi method))
      | _, _ => raise (RuntimeError
          "Please specify t_min and t_max when train_generator is not specified")
      end
  end.

(** Lines 317-323: the default optimizer over the parameters of the
    network(s) in use. *)
Definition resolve_optimizer (single_net nets optimizer : option loc)
    : M World (option loc) :=
  do h <- get_heap;
  do optimizer <-
    (if negb (truthy h optimizer) && truthy h single_net then
       match single_net with
       | Some net =>
           do p <- lift (get_net h net);
           do o <- alloc (OOpt [net] (Adam [p]));
           ret (Some o)
       | None => ret optimizer
       end
     else ret optimizer);
  do h <- get_heap;
  if negb (truthy h optimizer) && truthy h nets then
    match nets with
    | Some nl =>
        do ns <- lift (get_list h nl);
        do all_parameters <- lift (rmap (get_net h) ns);
        do o <- alloc (OOpt ns (Adam all_parameters));
        ret (Some o)
    | None => ret optimizer
    end
  else ret optimizer.

(** The local variables of [solve_system] once every default is resolved
    (line 328), as the epoch loop reads them. *)
Record Config := mkConfig {
  c_single_net : option loc;
  c_train_generator : loc;
  c_valid_generator : loc;
  c_optimizer : option loc;
  c_criterion : Criterion;
  c_metrics : Metrics
}.

(** Lines 295-327: everything [solve_system] does before it creates the
    history. *)
Definition configure (conditions : loc) (t_min t_max : option Scalar)
    (single_net nets train_generator valid_generator optimizer : option loc)
    (criterion : option Criterion) (metrics : option Metrics) : M World Config :=
  do single_net <- resolve_networks conditions single_net nets;
  do train_generator <-
    resolve_generator train_generator t_min t_max "equally-spaced-noisy";
  do valid_generator <-
    resolve_generator valid_generator t_min t_max "equally-spaced";
  do optimizer <- resolve_optimizer single_net nets optimizer;
  let criterion := match criterion with Some c => c | None => MSELoss end in
  let metrics := match metrics with Some ms => ms | None => [] end in
  ret (mkConfig single_net train_generator valid_generator optimizer criterion metrics).

(** Lines 329-338: the state before the first epoch.
    [valid_loss_epoch_min] and [solution_min] exist only under
    [return_best]; otherwise they are never read. *)
Definition loop_init (metrics : Metrics) : LoopState :=
  mkLoop (history_init metrics) s_inf None.

(** Lines 340-362: [for epoch in range(n)]. *)
Definition run_epochs (ode_system : OdeSystem) (conditions : loc)
    (nets : option loc) (shuffle : bool)
    (additional_loss_term : option LossTerm) (batch_size : Z)
    (monitor : option loc) (return_best : bool) (cfg : Config) (n : nat)
    : M World LoopState :=
  foldM (epoch_body batch_size (c_metrics cfg) (c_train_generator cfg)
           (c_valid_generator cfg) (c_single_net cfg) nets ode_system conditions
           (c_criterion cfg) additional_loss_term shuffle (c_optimizer cfg)
           monitor return_best)
        (seq 0 n) (loop_init (c_metrics cfg)).

(** Lines 364-381: the choice of the returned solution and the tuple. *)
Definition finish (conditions : loc) (nets : option loc)
    (return_internal return_best : bool) (cfg : Config) (st : LoopState)
    : M World Output :=
  do solution <-
    (if return_best then ret (ls_solution_min st)
     else do sol <- Solution_init (c_single_net cfg) nets conditions;
          ret (Some sol));
  if return_internal then
    ret (mkOutput solution (ls_history st)
           (Some (mkInternal (c_single_net cfg) nets conditions
                    (c_train_generator cfg) (c_valid_generator cfg)
                    (c_optimizer cfg) (c_criterion cfg))))
  else ret (mkOutput solution (ls_history st) None).

Definition solve_system (ode_system : OdeSystem) (conditions : loc)
    (t_min t_max : option Scalar) (single_net nets : option loc)
    (train_generator : option loc) (shuffle : bool) (valid_generator : option loc)
    (optimizer : option loc) (criterion : option Criterion)
    (additional_loss_term : option LossTerm) (metrics : option Metrics)
    (batch_size max_epochs : Z) (monitor : option loc)
    (return_internal return_best : bool) : M World Output :=
  do cfg <- configure conditions t_min t_max single_net nets train_generator
              valid_generator optimizer criterion metrics;
  do st <- run_epochs ode_system conditions nets shuffle additional_loss_term
             batch_size monitor return_best cfg (Z.to_nat max_epochs);
  finish conditions nets return_internal return_best cfg st.

(** ** [solve] *)

Abbreviation Ode := (T → T → Result T).

(** [lambda x, t: [ode(x, t)]], called with the unpacked list of dependent variables and [ts]: any
    number of dependent variables other than one is a [TypeError]. *)
Definition single_ode_system (ode : Ode) : OdeSystem :=
  λ us t,
    match us with
    | [x] => try F <- ode x t; Ok [F]
    | _ => Raise TypeError
    end.

(** A list display [[a]]: a new list object. *)
Definition new_list (items : list loc) : M World loc := alloc (OList items).

Definition solve (ode : Ode) (condition : loc) (t_min t_max : option Scalar)
    (net : option loc) (train_generator : option loc) (shuffle : bool)
    (valid_generator : option loc) (optimizer : option loc)
    (criterion : option Criterion) (additional_loss_term : option LossTerm)
    (metrics : option Metrics) (batch_size max_epochs : Z)
    (monitor : option loc) (return_internal return_best : bool)
    : M World Output :=
  do h <- get_heap;
  do nets <-
    (if negb (truthy h net) then ret None
     else match net with
          | Some n => do l <- new_list [n]; ret (Some l)
          | None => ret None
          end);
  do conditions <- new_list [condition];
  solve_system (single_ode_system ode) conditions t_min t_max None nets
    train_generator shuffle valid_generator optimizer criterion
    additional_loss_term metrics batch_size max_epochs monitor
    return_internal return_best.

(** ** The specification's wording, to compare the code with *)

(** "ceil(N / B)" *)
Definition ceil_div (n b : nat) : nat := (n + b - 1) / b.

(** "Partition the ordered traversal into consecutive batches of the
    configured batch size (last batch truncated to the remainder)". *)
Definition batches {A} (b : nat) (l : list A) : list (list A) :=
  (λ k, take b (drop (k * b) l)) <$> seq 0 (ceil_div (length l) b).

(** The training pass as the specification describes it: one
    [train_batch] per batch, in order. *)
Definition run_batches (train_examples_t : T) (bs : list (list nat))
    (net nets : option loc) (ode_system : OdeSystem) (conditions : loc)
    (criterion : Criterion) (additional_loss_term : option LossTerm)
    (optimizer : option loc) : M World unit :=
  forM_ (λ batch_idx,
           do ts <- lift (index_rows train_examples_t batch_idx);
           train_batch ts net nets ode_system conditions criterion
             additional_loss_term optimizer) bs.

(** [train] with its loop replaced by the specification's training
    pass over [batches]. *)
Definition train_by_batches (batch_size : Z) (metrics : Metrics) (train_generator : loc)
    (net nets : option loc) (ode_system : OdeSystem) (conditions : loc)
    (criterion : Criterion) (additional_loss_term : option LossTerm)
    (shuffle : bool) (optimizer : option loc)
    : M World (Scalar * list (string * Scalar)) :=
  do train_examples_t <- gen_get_examples train_generator;
  let train_examples_t := reshape_col train_examples_t in
  do n_examples_train <- gen_get_size train_generator;
  do idx <- (if shuffle then np_random_permutation n_examples_train
             else ret (seq 0 n_examples_train));
  run_batches train_examples_t (batches (Z.to_nat batch_size) idx) net nets
    ode_system conditions criterion additional_loss_term optimizer;;
  do h <- get_heap;
  do train_loss_epoch <- lift (loss_tensor h train_examples_t net nets ode_system
                                 conditions criterion additional_loss_term);
  do train_metrics_epoch <- lift (calculate_metrics h train_examples_t net nets
                                    conditions metrics);
  ret (train_loss_epoch, train_metrics_epoch).

(** "for each residual, apply criterion(residual,
    zero-vector-of-matching-shape), producing one scalar each; sum across
    equations", then "invoke [the extra term] with the same arguments as
    equation_system and add its scalar result". *)
Definition calculate_loss_spec (h : Heap) (ts : T) (net nets : option loc)
    (ode_system : OdeSystem) (conditions : loc) (criterion : Criterion)
    (additional_loss_term : option LossTerm) : Result Scalar :=
  try us <- _trial_solution h net nets ts conditions;
  try Futs <- ode_system us ts;
  try terms <- rmap (λ Fut, criterion Fut (zeros_like s_zero Fut)) Futs;
  let loss := foldl s_add s_zero terms in
  match additional_loss_term with
  | Some extra => try a <- extra us ts; Ok (s_add loss a)
  | None => Ok loss
  end.

(** "the minimum seen so far (initialized to +infinity)", replaced by a
    "strictly less" loss. *)
Definition running_min (vs : list Scalar) : Scalar :=
  foldl (λ m v, if s_lt v m then v else m) s_inf vs.

(** The epochs in which the minimum is replaced. *)
Definition improves (vs : list Scalar) (k : nat) : bool :=
  match vs !! k with
  | Some v => s_lt v (running_min (take k vs))
  | None => false
  end.

(** [solve] in the words of its claim: [nets] is [[net]] when a network
    is given and [None] otherwise, the conditions are [[condition]], the
    system is the one-equation system of [ode]. *)
Definition solve_spec (ode : Ode) (condition : loc) (t_min t_max : option Scalar)
    (net : option loc) (train_generator : option loc) (shuffle : bool)
    (valid_generator : option loc) (optimizer : option loc)
    (criterion : option Criterion) (additional_loss_term : option LossTerm)
    (metrics : option Metrics) (batch_size max_epochs : Z)
    (monitor : option loc) (return_internal return_best : bool)
    : M World Output :=
  do nets <-
    match net with
    | Some n => do l <- new_list [n]; ret (Some l)
    | None => ret None
    end;
  do conditions <- new_list [condition];
  solve_system (λ us t, match us with
                        | [x] => try F <- ode x t; Ok [F]
                        | _ => Raise TypeError
                        end)
    conditions t_min t_max None nets train_generator shuffle valid_generator
    optimizer criterion additional_loss_term metrics batch_size max_epochs
    monitor return_internal return_best.

(** A tensor whose data fill its shape. *)
Definition well_shaped (t : T) : Prop := numel (shape t) = length (data t).



(** [h'] still holds every object of [h], unchanged. *)
Definition extends (h h' : Heap) : Prop :=
  ∀ l, l ∈ dom h → h' !! l = h !! l.

(** The object at [l] did not exist in [h0], and if it is a list neither
    did any of its items. *)
Definition owned (h0 h : Heap) (l : loc) : Prop :=
  (l ∉ dom h0) ∧
  match h !! l with
  | Some (OList items) => Forall (λ i, i ∉ dom h0) items
  | _ => True
  end.

(** Two lists, or twice the same object. *)
Definition mirror (o o' : Object) : Prop :=
  match o, o' with
  | OList _, OList _ => True
  | _, _ => o = o'
  end.

Definition mirrors (h h' : Heap) (x y : loc) : Prop :=
  ∃ o o', h !! x = Some o ∧ h' !! y = Some o' ∧ mirror o o'.

(** [y] in [h'] is a deep copy of [x] in [h]: the same network or
    condition, or a list whose items are the same objects one by one. *)
Definition copy_of (h h' : Heap) (x y : loc) : Prop :=
  mirrors h h' x y
  ∧ ∀ items, h !! x = Some (OList items) →
             ∃ ys, h' !! y = Some (OList ys) ∧ Forall2 (mirrors h h') items ys.

Definition opt_copy_of (h h' : Heap) (x y : option loc) : Prop :=
  match x, y with
  | None, None => True
  | Some a, Some b => copy_of h h' a b
  | _, _ => False
  end.

(** [x] is a live object, and if it is a list so are its items: a heap
    Python can build has no dangling reference. *)
Definition allocated (h : Heap) (x : loc) : Prop :=
  x ∈ dom h
  ∧ ∀ items, h !! x = Some (OList items) → Forall (λ i, i ∈ dom h) items.

(** The networks and conditions in use, seen as a [Solution] that shares
    them instead of copying them. *)
Definition live (single_net nets : option loc) (conditions : loc) : Solution :=
  mkSolution single_net nets conditions.

(** What an optimizer step may write: the optimizer and the networks
    registered in it. *)
Definition trained (h : Heap) (optimizer : option loc) : gset loc :=
  match optimizer with
  | Some o =>
      {[o]} ∪ match h !! o with
              | Some (OOpt targets _) => list_to_set targets
              | _ => ∅
              end
  | None => ∅
  end.

(** What an epoch may write: the two generators, the monitor, and what
    the optimizer may. *)
Definition written (h : Heap) (train_generator valid_generator : loc)
    (optimizer monitor : option loc) : gset loc :=
  {[train_generator; valid_generator]} ∪ trained h optimizer
  ∪ match monitor with Some m => {[m]} | None => ∅ end.

(** [h'] comes from [h] by overwriting objects at addresses in [D] and by
    creating objects; every list found at an address of [h] was there,
    unchanged. *)
Definition advances (D : gset loc) (h h' : Heap) : Prop :=
  dom h ⊆ dom h'
  ∧ (∀ l, l ∈ dom h → l ∉ D → h' !! l = h !! l)
  ∧ (∀ l items, l ∈ dom h → h' !! l = Some (OList items) →
                h !! l = Some (OList items)).

(** A computation that, whatever its outcome, writes inside [D] only and
    leaves the optimizer with the networks it had. *)
Definition within (D : gset loc) (optimizer : option loc) {A}
    (m : M World A) : Prop :=
  ∀ w, trained (heap w) optimizer ⊆ D →
       advances D (heap w) (heap (m w).2)
       ∧ trained (heap (m w).2) optimizer ⊆ D.

End ode.

(** ** A small concrete environment, to run the program on

    Scalars are integers extended with infinity and a not-a-number; a
    network is one integer weight [p], a condition one integer [u0], and
    the trial solution is [u0 + p * t].  The weight [-100] stands for a
    module of length zero, which Python counts as false. *)

Inductive XZ := Fin (z : Z) | Inf | NaN.

Definition x_add (a b : XZ) : XZ :=
  match a, b with
  | Fin x, Fin y => Fin (x + y)
  | NaN, _ | _, NaN => NaN
  | _, _ => Inf
  end.

Definition x_mul (a b : XZ) : XZ :=
  match a, b with
  | Fin x, Fin y => Fin (x * y)
  | NaN, _ | _, NaN => NaN
  | _, _ => Inf
  end.

Definition x_lt (a b : XZ) : bool :=
  match a, b with
  | Fin x, Fin y => bool_decide (x < y)%Z
  | Fin _, Inf => true
  | _, _ => false
  end.

Definition toy_enforce (u0 : Z) (ith_unit : option nat) (p : Z) (ts : Tensor XZ)
    : Result (Tensor XZ) :=
  Ok (mkTensor (shape ts) ((λ t, x_add (Fin u0) (x_mul (Fin p) t)) <$> data ts)).

(** Sum of the squared differences, position by position. *)
Definition toy_criterion (F target : Tensor XZ) : Result XZ :=
  Ok (foldl x_add (Fin 0)
        ((λ '(a, b), let d := x_add a (x_mul (Fin (-1)) b) in x_mul d d)
           <$> zip (data F) (data target))).

(** Tries every weight one lower and keeps the change when the loss
    strictly decreases; counts the steps. *)
Definition toy_update (st : nat) (loss_of : list Z → Result XZ) (ps : list Z)
    : Result (list Z * nat) :=
  let qs := (λ p, p - 1)%Z <$> ps in
  try l0 <- loss_of ps;
  try l1 <- loss_of qs;
  Ok (if x_lt l1 l0 then qs else ps, S st).

#[export] Instance toy : Env := {|
  Scalar := XZ;
  s_zero := Fin 0;
  s_add := x_add;
  s_lt := x_lt;
  s_inf := Inf;
  Params := Z;
  net_bool := λ p, bool_decide (p ≠ -100)%Z;
  CondData := Z;
  Gen := list Z;
  OptSt := nat;
  MonSt := nat;
  RNG := nat;
  enforce := toy_enforce;
  FCNN := λ _ _ _ _ g, (Z.of_nat g, S g);
  FCNN_bool := λ _ _ _ _ g,
    bool_decide_eq_true_2 (Z.of_nat g ≠ -100)%Z ltac:(lia);
  Generator1D := λ n lo hi _,
    match lo with
    | Fin a => (λ k, a + Z.of_nat k)%Z <$> seq 0 n
    | _ => []
    end;
  gen_size := length;
  get_examples := λ g r, (mkTensor [length g] (Fin <$> g), g, r);
  permutation := λ n g, (reverse (seq 0 n), S g);
  permutation_perm := λ n g, reverse_Permutation (seq 0 n);
  Adam := λ _, 0;
  opt_update := toy_update;
  MSELoss := toy_criterion;
  mon_check := λ s _ _ _ _ _, Ok (S s)
|}.

(** A heap to run on: one condition [u(0) = 1] and the list holding it, a
    network of weight 2 and the list holding it, an empty list, a
    training generator of five points, a validation generator of two, and
    a monitor that looks every second epoch. *)
Definition toy_heap : gmap loc (Obj Z Z (list Z) nat nat) :=
  list_to_map
    [(1%positive, OCond None 1%Z);
     (2%positive, OList [1%positive]);
     (3%positive, ONet 2%Z);
     (4%positive, OList [3%positive]);
     (5%positive, OList []);
     (6%positive, OGen [0; 1; 2; 3; 4]%Z);
     (7%positive, OGen [0; 2]%Z);
     (8%positive, OMon 2%Z 0)].

Definition toy_world : @World toy := mkWorld (E:=toy) toy_heap 0.

(** The residual of the equation [u = 0]: the dependent variables
    themselves. *)
Definition toy_system (us : list (Tensor XZ)) (ts : Tensor XZ)
    : Result (list (Tensor XZ)) := Ok us.

Definition toy_ode (x t : Tensor XZ) : Result (Tensor XZ) := Ok x.

(** A system that hands its residuals back flattened to one dimension. *)
Definition flat_system (us : list (Tensor XZ)) (ts : Tensor XZ)
    : Result (list (Tensor XZ)) :=
  Ok ((λ u, mkTensor [length (data u)] (data u)) <$> us).

(** A criterion that, like many loss functions, refuses a target whose
    shape is not the shape of the prediction. *)
Definition strict_criterion (F target : Tensor XZ) : Result XZ :=
  if decide (shape F = shape target) then toy_criterion F target
  else Raise (ValueError "target size must be the same as input size").

(** Five points as a column. *)
Definition toy_batch : Tensor XZ :=
  mkTensor [5; 1] (Fin <$> [0; 1; 2; 3; 4]%Z).

(** The value of a result, or [d] when it is an exception. *)
Definition ok_or {A} (d : A) (r : Result A) : A :=
  match r with Ok a => a | Raise _ => d end.

Definition no_output : @Output toy := mkOutput (E:=toy) None ∅ None.

Definition no_solution : Solution := mkSolution None None 1%positive.

(** [solve_system] on the small heap: the network list, both generators,
    batches of two, the monitor. *)
Definition toy_run (max_epochs : Z) (return_best : bool)
    : Result (@Output toy) * @World toy :=
  solve_system (E:=toy) toy_system 2%positive None None None (Some 4%positive)
    (Some 6%positive) true (Some 7%positive) None None None None 2%Z max_epochs
    (Some 8%positive) false return_best toy_world.

(** A [Solution] built from the network list and the conditions. *)
Definition toy_snapshot : Result Solution * @World toy :=
  Solution_init (E:=toy) None (Some 4%positive) 2%positive toy_world.

(** A system whose equations cannot be evaluated. *)
Definition raising_system (us : list (Tensor XZ)) (ts : Tensor XZ)
    : Result (list (Tensor XZ)) :=
  Raise (ValueError "the equation is not defined here").

Definition no_config : @Config toy :=
  mkConfig (E:=toy) None 1%positive 1%positive None toy_criterion [].

(** The configuration [toy_run] starts from. *)
Definition toy_configured : Result (@Config toy) * @World toy :=
  configure (E:=toy) 2%positive None None None (Some 4%positive)
    (Some 6%positive) (Some 7%positive) None None None toy_world.

(** The small heap with an optimizer over the network. *)
Definition toy_opt_world : @World toy :=
  mkWorld (E:=toy) (<[9%positive := OOpt [3%positive] 0]> toy_heap) 0.

(** Two metrics: the number of dependent variables and the number of
    points. *)
Definition toy_metrics
    : list (string * (list (Tensor XZ) → Tensor XZ → Result XZ)) :=
  [("n_vars", λ us _, Ok (Fin (Z.of_nat (length us))));
   ("n_points", λ _ ts, Ok (Fin (Z.of_nat (length (data ts)))))].

(** Two epochs of [solve_system] with the two metrics. *)
Definition toy_run_metrics : Result (@Output toy) * @World toy :=
  solve_system (E:=toy) toy_system 2%positive None None None (Some 4%positive)
    (Some 6%positive) true (Some 7%positive) None None None (Some toy_metrics)
    2%Z 2%Z (Some 8%positive) false false toy_world.

(** The network step of the configuration when no network is given. *)
Definition toy_resolved : Result (option loc) * @World toy :=
  resolve_networks (E:=toy) 2%positive None None toy_world.

(** The configuration when only the bounds 0 and 1 are given. *)
Definition toy_configured_bounds : Result (@Config toy) * @World toy :=
  configure (E:=toy) 2%positive (Some (Fin 0)) (Some (Fin 1)) None
    (Some 4%positive) None None None None None toy_world.

(** The small heap with one more network, a module of length zero. *)
Definition toy_empty_module_world : @World toy :=
  mkWorld (E:=toy) (<[10%positive := ONet (-100)%Z]> toy_heap) 0.

(** A system with no equation. *)
Definition empty_system (us : list (Tensor XZ)) (ts : Tensor XZ)
    : Result (list (Tensor XZ)) := Ok [].

(** The two configuration errors of [solve_system], as it words them. *)
Definition ConfigurationConflict : Err :=
  RuntimeError "Only one of net and nets should be specified".

Definition MissingDomainBounds : Err :=
  RuntimeError "Please specify t_min and t_max when train_generator is not specified".

(** * Properties *)

(** ** The monad *)

Section monad_facts.
Context {W : Type}.

Lemma bind_Ok {A B} (m : M W A) (f : A → M W B) w a w1 :
  m w = (Ok a, w1) → bind m f w = f a w1.
Proof. unfold bind. by intros ->. Qed.

Lemma bind_Raise {A B} (m : M W A) (f : A → M W B) w e w1 :
  m w = (Raise e, w1) → bind m f w = (Raise e, w1).
Proof. unfold bind. by intros ->. Qed.

Lemma bind_Ok_inv {A B} (m : M W A) (f : A → M W B) w b w' :
  bind m f w = (Ok b, w') →
  ∃ a w1, m w = (Ok a, w1) ∧ f a w1 = (Ok b, w').
Proof.
  unfold bind. destruct (m w) as [[a|e] w1]; intros H; [eauto | discriminate].
Qed.

Lemma bind_Raise_inv {A B} (m : M W A) (f : A → M W B) w e w' :
  bind m f w = (Raise e, w') →
  m w = (Raise e, w') ∨ ∃ a w1, m w = (Ok a, w1) ∧ f a w1 = (Raise e, w').
Proof.
  unfold bind. destruct (m w) as [[a|e'] w1]; intros H; [eauto | left; congruence].
Qed.

Lemma lift_Ok_inv {A} (r : Result A) (w w' : W) a :
  lift r w = (Ok a, w') → r = Ok a ∧ w' = w.
Proof. unfold lift. intros [= -> ->]. done. Qed.

Lemma foldM_app {A B} (f : B → A → M W B) l1 l2 b :
  ∀ w, foldM f (l1 ++ l2) b w = bind (foldM f l1 b) (foldM f l2) w.
Proof.
  revert b. induction l1 as [|a l1 IH]; intros b w; simpl.
  - reflexivity.
  - unfold bind. destruct (f b a w) as [[b'|e] w1]; [|reflexivity].
    rewrite IH. reflexivity.
Qed.

Lemma raises_only_ret {A} P (a : A) : raises_only P (@ret W A a).
Proof. intros w e w' H. discriminate. Qed.

Lemma raises_only_raise {A} (P : Err → Prop) e : P e → raises_only P (@raise W A e).
Proof. intros HP w e' w' [= <- _]. done. Qed.

Lemma raises_only_bind {A B} P (m : M W A) (f : A → M W B) :
  raises_only P m → (∀ a, raises_only P (f a)) → raises_only P (bind m f).
Proof.
  intros Hm Hf w e w' H. apply bind_Raise_inv in H as [H|(a & w1 & _ & H)].
  - by eapply Hm.
  - by eapply Hf.
Qed.

Lemma raises_only_lift {A} (P : Err → Prop) (r : Result A) :
  (∀ e, r = Raise e → P e) → raises_only P (@lift W A r).
Proof. intros Hr w e w' [= H _]. auto. Qed.

Lemma raises_only_forM_ {A} P (f : A → M W unit) l :
  (∀ a, raises_only P (f a)) → raises_only P (forM_ f l).
Proof.
  intros Hf. induction l as [|a l IH]; simpl.
  - apply raises_only_ret.
  - apply raises_only_bind; auto.
Qed.
End monad_facts.

(** Splits a successful sequence of binds in a hypothesis. *)
Ltac inv_bind H :=
  let a := fresh "a" in
  let w := fresh "w" in
  let H1 := fresh H in
  apply bind_Ok_inv in H as (a & w & H1 & H).

Lemma rbind_Ok_inv {A B} (r : Result A) (f : A → Result B) b :
  rbind r f = Ok b → ∃ a, r = Ok a ∧ f a = Ok b.
Proof. destruct r; simpl; [eauto | discriminate]. Qed.

Lemma rmap_length {A B} (f : A → Result B) l bs :
  rmap f l = Ok bs → length bs = length l.
Proof.
  revert bs. induction l as [|a l IH]; simpl; intros bs H.
  - by injection H as <-.
  - destruct (f a) as [b|]; [simpl in H | discriminate].
    destruct (rmap f l) as [bs'|]; [simpl in H | discriminate].
    injection H as <-. simpl. f_equal. by apply IH.
Qed.

Lemma rmap_ext_in {A B} (f g : A → Result B) l :
  (∀ a, a ∈ l → f a = g a) → rmap f l = rmap g l.
Proof.
  induction l as [|a l IH]; intros H; simpl; [done|].
  rewrite (H a) by apply list_elem_of_here.
  rewrite IH; [done|]. intros b Hb. apply H. by apply list_elem_of_further.
Qed.

Lemma rmap_Forall {A B} (f : A → Result B) (P : B → Prop) l bs :
  (∀ a b, a ∈ l → f a = Ok b → P b) → rmap f l = Ok bs → Forall P bs.
Proof.
  revert bs. induction l as [|a l IH]; simpl; intros bs Hf H.
  - injection H as <-. constructor.
  - destruct (f a) as [b|] eqn:Hb; [simpl in H | discriminate].
    destruct (rmap f l) as [bs'|] eqn:Hbs; [simpl in H | discriminate].
    injection H as <-. constructor.
    + eapply Hf; [apply list_elem_of_here | done].
    + apply IH; [|done]. intros a' b' Ha'. apply Hf. by apply list_elem_of_further.
Qed.

(** ** The program *)

Section program_facts.
Context `{E : Env}.

Abbreviation T := (Tensor Scalar).
Abbreviation Object := (Obj Params CondData Gen OptSt MonSt).
Abbreviation Heap := (gmap loc Object).
Abbreviation History := (gmap string (list Scalar)).
Abbreviation OdeSystem := (list T → T → Result (list T)).
Abbreviation Criterion := (T → T → Result Scalar).
Abbreviation LossTerm := (list T → T → Result Scalar).
Abbreviation Metrics := (list (string * (list T → T → Result Scalar))).
Abbreviation Ode := (T → T → Result T).

(** *** Configuration *)

Lemma truthy_true_Some (h : Heap) x : truthy h x = true → ∃ l, x = Some l.
Proof. destruct x; [eauto | discriminate]. Qed.

(** Allocating anything but an empty list changes no truth value. *)
Lemma truthy_alloc (h : Heap) (o : Object) x :
  o ≠ OList [] → (∀ p, o = ONet p → net_bool p = true) →
  truthy (<[fresh (dom h) := o]> h) x = truthy h x.
Proof.
  intros Ho Hp. destruct x as [l|]; [simpl | done].
  destruct (decide (l = fresh (dom h))) as [->|Hne].
  - rewrite lookup_insert_eq.
    assert (h !! fresh (dom h) = None) as ->.
    { apply not_elem_of_dom. apply is_fresh. }
    destruct o as [p| | [|] | | |]; try done. by apply Hp.
  - by rewrite lookup_insert_ne.
Qed.

(** C9. With [return_best=True] and [max_epochs=0] the loop body never
    runs: whenever the configuration succeeds, [solve_system] returns
    [None] in place of a [Solution], with the history as created (every
    series empty), in the world the configuration left; when the
    configuration raises, so does [solve_system]. *)
Theorem solve_system_return_best_no_epoch
    (ode_system : OdeSystem) conditions t_min t_max single_net nets
    train_generator shuffle valid_generator optimizer
    (criterion : option Criterion) (additional_loss_term : option LossTerm)
    (metrics : option Metrics) batch_size monitor return_internal w :
  solve_system ode_system conditions t_min t_max single_net nets train_generator
    shuffle valid_generator optimizer criterion additional_loss_term metrics
    batch_size 0%Z monitor return_internal true w
  = match configure conditions t_min t_max single_net nets train_generator
            valid_generator optimizer criterion metrics w with
    | (Ok cfg, w0) =>
        (Ok (mkOutput None (history_init (c_metrics cfg))
               (if return_internal
                then Some (mkInternal (c_single_net cfg) nets conditions
                             (c_train_generator cfg) (c_valid_generator cfg)
                             (c_optimizer cfg) (c_criterion cfg))
                else None)), w0)
    | (Raise e, w0) => (Raise e, w0)
    end.
Proof.
  unfold solve_system, bind.
  destruct (configure _ _ _ _ _ _ _ _ _ _ w) as [[cfg|e] w0]; [|done].
  simpl. by destruct return_internal.
Qed.

(** C6, as amended. When [single_net] and [nets] are both true under
    Python's truth test (a module that is not of length zero, and a list
    that is not empty), [solve_system] raises the conflict error at once:
    the world is the one it was called in, so no network, generator or
    optimizer was created, no parameter changed and no epoch ran. *)
Theorem solve_system_conflict
    (ode_system : OdeSystem) conditions t_min t_max single_net nets
    train_generator shuffle valid_generator optimizer
    (criterion : option Criterion) (additional_loss_term : option LossTerm)
    (metrics : option Metrics) batch_size max_epochs monitor return_internal
    return_best w :
  truthy (heap w) single_net = true →
  truthy (heap w) nets = true →
  solve_system ode_system conditions t_min t_max single_net nets train_generator
    shuffle valid_generator optimizer criterion additional_loss_term metrics
    batch_size max_epochs monitor return_internal return_best w
  = (Raise ConfigurationConflict, w).
Proof.
  intros H1 H2.
  unfold solve_system, configure, resolve_networks.
  unfold bind at 1. unfold bind at 1. unfold bind at 1.
  unfold get_heap. rewrite H1, H2. reflexivity.
Qed.

Lemma get_list_raise (h : Heap) l e : get_list h l = Raise e → e = TypeError.
Proof. unfold get_list. repeat case_match; congruence. Qed.

Lemma get_net_raise (h : Heap) l e : get_net h l = Raise e → e = TypeError.
Proof. unfold get_net. repeat case_match; congruence. Qed.

Lemma get_cond_raise (h : Heap) l e : get_cond h l = Raise e → e = TypeError.
Proof. unfold get_cond. repeat case_match; congruence. Qed.

Lemma rmap_raise {A B} (f : A → Result B) (P : Err → Prop) l e :
  (∀ a e', f a = Raise e' → P e') → rmap f l = Raise e → P e.
Proof.
  intros Hf. induction l as [|a l IH]; simpl; [discriminate|].
  destruct (f a) as [b|e'] eqn:Hb; simpl.
  - destruct (rmap f l); simpl; [discriminate|]. intros [= <-]. by apply IH.
  - intros [= <-]. eauto.
Qed.

Lemma raises_only_alloc P (o : Object) : raises_only P (alloc o).
Proof. intros w e w' H. discriminate. Qed.

Lemma raises_only_put_obj P l (o : Object) : raises_only P (put_obj l o).
Proof. intros w e w' H. discriminate. Qed.

Lemma raises_only_get_heap P : raises_only P get_heap.
Proof. intros w e w' H. discriminate. Qed.

Lemma raises_only_new_FCNN P a b c d : raises_only P (new_FCNN a b c d).
Proof.
  intros w e w' H. unfold new_FCNN in H.
  destruct (FCNN a b c d (rng w)). discriminate.
Qed.

Lemma raises_only_set_impose_on con ith :
  raises_only (λ e, e = TypeError) (set_impose_on con ith).
Proof.
  unfold set_impose_on.
  apply raises_only_bind; [apply raises_only_get_heap | intros h].
  apply raises_only_bind.
  - apply raises_only_lift, get_cond_raise.
  - intros [i c]. apply raises_only_put_obj.
Qed.

Lemma raises_only_weaken {W A} (P Q : Err → Prop) (m : M W A) :
  (∀ e, P e → Q e) → raises_only P m → raises_only Q m.
Proof. intros HPQ Hm w e w' H. eauto. Qed.

(** The first phase raises the conflict error or a [TypeError] (on a
    value that is not what its parameter should be), nothing else. *)
Lemma raises_only_resolve_networks conditions single_net nets :
  raises_only (λ e, e = ConfigurationConflict ∨ e = TypeError)
    (resolve_networks conditions single_net nets).
Proof.
  unfold resolve_networks.
  apply raises_only_bind; [apply raises_only_get_heap | intros h].
  destruct (truthy h single_net && truthy h nets).
  { apply raises_only_raise. by left. }
  apply raises_only_bind.
  { destruct (negb (truthy h single_net) && negb (truthy h nets)).
    - apply raises_only_bind.
      + apply raises_only_lift. intros e He. right. by eapply get_list_raise.
      + intros cons. apply raises_only_bind; [apply raises_only_new_FCNN|].
        intros net. apply raises_only_ret.
    - apply raises_only_ret. }
  intros sn. apply raises_only_bind; [apply raises_only_get_heap | intros h'].
  apply raises_only_bind; [|intros; apply raises_only_ret].
  destruct (truthy h' sn); [|apply raises_only_ret].
  apply raises_only_bind.
  - apply raises_only_lift. intros e He. right. by eapply get_list_raise.
  - intros cons. apply raises_only_forM_. intros [ith con].
    eapply raises_only_weaken; [|apply raises_only_set_impose_on]. auto.
Qed.

Lemma raises_only_resolve_optimizer single_net nets optimizer :
  raises_only (λ e, e = TypeError) (resolve_optimizer single_net nets optimizer).
Proof.
  unfold resolve_optimizer.
  apply raises_only_bind; [apply raises_only_get_heap | intros h].
  apply raises_only_bind.
  { destruct (negb (truthy h optimizer) && truthy h single_net);
      [|apply raises_only_ret].
    destruct single_net as [net|]; [|apply raises_only_ret].
    apply raises_only_bind; [apply raises_only_lift, get_net_raise|].
    intros p. apply raises_only_bind; [apply raises_only_alloc|].
    intros o. apply raises_only_ret. }
  intros opt. apply raises_only_bind; [apply raises_only_get_heap | intros h'].
  destruct (negb (truthy h' opt) && truthy h' nets); [|apply raises_only_ret].
  destruct nets as [nl|]; [|apply raises_only_ret].
  apply raises_only_bind; [apply raises_only_lift, get_list_raise|].
  intros ns. apply raises_only_bind.
  { apply raises_only_lift. intros e.
    apply (rmap_raise _ (λ e, e = TypeError)). apply get_net_raise. }
  intros ps. apply raises_only_bind; [apply raises_only_alloc|].
  intros o. apply raises_only_ret.
Qed.

(** What [resolve_generator] does, case by case. *)
Lemma resolve_generator_given generator t_min t_max method w :
  truthy (heap w) generator = true →
  ∃ g, generator = Some g ∧
       resolve_generator generator t_min t_max method w = (Ok g, w).
Proof.
  intros Ht. destruct (truthy_true_Some _ _ Ht) as [g ->].
  exists g. split; [done|].
  cbv [resolve_generator bind get_heap]. by rewrite Ht.
Qed.

Lemma resolve_generator_default generator lo hi method w :
  truthy (heap w) generator = false →
  resolve_generator generator (Some lo) (Some hi) method w
  = alloc (OGen (Generator1D 32 lo hi method)) w.
Proof.
  intros Ht. cbv [resolve_generator bind get_heap].
  destruct generator; [by rewrite Ht | done].
Qed.

Lemma resolve_generator_missing generator t_min t_max method w :
  truthy (heap w) generator = false →
  t_min = None ∨ t_max = None →
  resolve_generator generator t_min t_max method w = (Raise MissingDomainBounds, w).
Proof.
  intros Ht Hb. cbv [resolve_generator bind get_heap].
  destruct generator; [rewrite Ht|]; destruct t_min, t_max, Hb; done.
Qed.

Lemma alloc_eq (o : Object) w :
  alloc o w = (Ok (fresh (dom (heap w))), mkWorld (<[fresh (dom (heap w)) := o]> (heap w)) (rng w)).
Proof. reflexivity. Qed.

(** Once the generators are resolved, the rest of the configuration
    cannot raise the missing-bounds error. *)
Ltac optimizer_tail H :=
  exfalso; apply bind_Raise_inv in H as [H|(? & ? & _ & H)];
  [apply raises_only_resolve_optimizer in H; discriminate | discriminate].

(** C7, as amended. The configuration raises the missing-bounds error
    exactly when the network phase went through (no conflict), the
    training generator or the validation generator is not given, and
    [t_min] and [t_max] are not both given; the error then leaves
    [solve_system] in the world the network phase produced, before any
    generator, optimizer or epoch. *)
Theorem solve_system_missing_bounds
    (ode_system : OdeSystem) conditions t_min t_max single_net nets
    train_generator shuffle valid_generator optimizer
    (criterion : option Criterion) (additional_loss_term : option LossTerm)
    (metrics : option Metrics) batch_size max_epochs monitor return_internal
    return_best w w1 :
  (configure conditions t_min t_max single_net nets train_generator
     valid_generator optimizer criterion metrics w
   = (Raise MissingDomainBounds, w1)
   ↔ ∃ sn, resolve_networks conditions single_net nets w = (Ok sn, w1)
           ∧ (truthy (heap w1) train_generator = false
              ∨ truthy (heap w1) valid_generator = false)
           ∧ (t_min = None ∨ t_max = None))
  ∧ (configure conditions t_min t_max single_net nets train_generator
       valid_generator optimizer criterion metrics w
     = (Raise MissingDomainBounds, w1)
     → solve_system ode_system conditions t_min t_max single_net nets
         train_generator shuffle valid_generator optimizer criterion
         additional_loss_term metrics batch_size max_epochs monitor
         return_internal return_best w
       = (Raise MissingDomainBounds, w1)).
Proof.
  split; [split|].
  - intros H. unfold configure in H.
    apply bind_Raise_inv in H as [H | (sn & w0 & Hrn & H)].
    { apply raises_only_resolve_networks in H. destruct H; discriminate. }
    exists sn.
    destruct (truthy (heap w0) train_generator) eqn:Htg.
    + destruct (resolve_generator_given _ t_min t_max "equally-spaced-noisy" _ Htg)
        as (g & -> & Hg).
      rewrite (bind_Ok _ _ _ _ _ Hg) in H.
      destruct (truthy (heap w0) valid_generator) eqn:Hvg.
      * destruct (resolve_generator_given _ t_min t_max "equally-spaced" _ Hvg)
          as (g' & -> & Hg').
        rewrite (bind_Ok _ _ _ _ _ Hg') in H. optimizer_tail H.
      * destruct t_min as [lo|], t_max as [hi|].
        { erewrite bind_Ok in H
            by (rewrite resolve_generator_default by done; apply alloc_eq).
          optimizer_tail H. }
        all: erewrite bind_Raise in H by (apply resolve_generator_missing; auto).
        all: injection H as <-; auto.
    + destruct t_min as [lo|], t_max as [hi|].
      { erewrite bind_Ok in H
          by (rewrite resolve_generator_default by done; apply alloc_eq).
        match type of H with
        | bind (resolve_generator _ _ _ _) _ ?w' = _ =>
            destruct (truthy (heap w') valid_generator) eqn:Hvg
        end.
        - destruct (resolve_generator_given _ (Some lo) (Some hi) "equally-spaced" _ Hvg)
            as (g' & -> & Hg').
          rewrite (bind_Ok _ _ _ _ _ Hg') in H. optimizer_tail H.
        - erewrite bind_Ok in H
            by (rewrite resolve_generator_default by done; apply alloc_eq).
          optimizer_tail H. }
      all: erewrite bind_Raise in H by (apply resolve_generator_missing; auto).
      all: injection H as <-; auto.
  - intros (sn & Hrn & Hg & Hb). unfold configure.
    rewrite (bind_Ok _ _ _ _ _ Hrn).
    destruct (truthy (heap w1) train_generator) eqn:Htg.
    + destruct Hg as [Hg|Hg]; [discriminate|].
      destruct (resolve_generator_given _ t_min t_max "equally-spaced-noisy" _ Htg)
        as (g & -> & Hg1).
      rewrite (bind_Ok _ _ _ _ _ Hg1).
      apply bind_Raise. by apply resolve_generator_missing.
    + apply bind_Raise. by apply resolve_generator_missing.
  - intros H. unfold solve_system. by apply bind_Raise.
Qed.

(** *** [solve] *)

(** C10, as amended. [solve] is [solve_system] on the one-equation system
    of [ode], the list [[condition]], no [single_net], every other
    argument as received, and [nets] equal to [[net]] when [net] is true
    under Python's truth test and to [None] otherwise: a network that is
    supplied but false (a module of length zero) is dropped like a
    missing one. *)
Theorem solve_is_solve_system
    (ode : Ode) condition t_min t_max net train_generator shuffle
    valid_generator optimizer (criterion : option Criterion)
    (additional_loss_term : option LossTerm) (metrics : option Metrics)
    batch_size max_epochs monitor return_internal return_best w :
  solve ode condition t_min t_max net train_generator shuffle valid_generator
    optimizer criterion additional_loss_term metrics batch_size max_epochs
    monitor return_internal return_best w
  = solve_spec ode condition t_min t_max
      (if truthy (heap w) net then net else None) train_generator shuffle
      valid_generator optimizer criterion additional_loss_term metrics
      batch_size max_epochs monitor return_internal return_best w.
Proof.
  unfold solve, solve_spec.
  unfold bind at 1. unfold get_heap at 1.
  destruct (truthy (heap w) net) eqn:Ht; simpl; [|reflexivity].
  by destruct (truthy_true_Some _ _ Ht) as [n ->].
Qed.

(** *** [calculate_loss] *)

Lemma zeros_like_same_shape (z : Scalar) (F ts : T) :
  well_shaped F → well_shaped ts → shape F = shape ts →
  zeros_like z F = zeros_like z ts.
Proof.
  unfold well_shaped, zeros_like. intros HF Hts Hs.
  rewrite <- HF, <- Hts, Hs. reflexivity.
Qed.

(** C5, as amended. The target of the criterion is a zero tensor shaped
    like the batch [ts]; the loss is the one the specification words
    (each residual against zeros of its own shape, summed, plus the extra
    term on the same arguments) whenever the residuals have the shape of
    the batch. *)
Theorem calculate_loss_is_spec
    (h : Heap) (ts : T) net nets (ode_system : OdeSystem) conditions
    (criterion : Criterion) (additional_loss_term : option LossTerm) :
  well_shaped ts →
  (∀ us Futs, _trial_solution h net nets ts conditions = Ok us →
              ode_system us ts = Ok Futs →
              Forall (λ Fut, shape Fut = shape ts ∧ well_shaped Fut) Futs) →
  calculate_loss h ts net nets ode_system conditions criterion additional_loss_term
  = calculate_loss_spec h ts net nets ode_system conditions criterion
      additional_loss_term.
Proof.
  intros Hts Hres. unfold calculate_loss, calculate_loss_spec.
  destruct (_trial_solution h net nets ts conditions) as [us|] eqn:Hus; [simpl|done].
  destruct (ode_system us ts) as [Futs|] eqn:HF; [simpl|done].
  specialize (Hres us Futs eq_refl HF).
  rewrite (rmap_ext_in (λ Fut, criterion Fut (zeros_like s_zero ts))
             (λ Fut, criterion Fut (zeros_like s_zero Fut))); [done|].
  intros F HFin. rewrite Forall_forall in Hres.
  destruct (Hres F HFin) as [Hs Hw].
  by rewrite (zeros_like_same_shape _ F ts).
Qed.

(** *** [Solution.__call__] *)

Lemma well_shaped_sequence (xs : list Scalar) :
  well_shaped (torch_tensor (PSequence xs)).
Proof. unfold well_shaped. simpl. lia. Qed.

Lemma well_shaped_number (x : Scalar) : well_shaped (torch_tensor (PNumber x)).
Proof. reflexivity. Qed.






(** *** The training pass *)

Lemma ceil_div_lt (n b k : nat) : 1 ≤ b → k < ceil_div n b ↔ k * b < n.
Proof.
  intros Hb. unfold ceil_div.
  pose proof (Nat.div_mod_eq (n + b - 1) b) as Hdm.
  pose proof (Nat.mod_upper_bound (n + b - 1) b ltac:(lia)) as Hm.
  split; intros H; nia.
Qed.

Lemma batches_length {A} (b : nat) (l : list A) :
  length (batches b l) = ceil_div (length l) b.
Proof. unfold batches. by rewrite length_fmap, length_seq. Qed.

Lemma batches_lookup {A} (b : nat) (l : list A) k :
  k < ceil_div (length l) b →
  batches b l !! k = Some (take b (drop (k * b) l)).
Proof.
  intros Hk. unfold batches. rewrite list_lookup_fmap.
  rewrite lookup_seq_lt by done. reflexivity.
Qed.

Lemma concat_chunks {A} (b : nat) (l : list A) j n :
  concat ((λ k, take b (drop (k * b) l)) <$> seq j n)
  = take (n * b) (drop (j * b) l).
Proof.
  revert j. induction n as [|n IH]; intros j; simpl; [done|].
  rewrite IH. rewrite <- (take_take_drop (drop (j * b) l) b (n * b)).
  rewrite drop_drop. do 3 f_equal. lia.
Qed.

Lemma batches_concat {A} (b : nat) (l : list A) :
  1 ≤ b → concat (batches b l) = l.
Proof.
  intros Hb. unfold batches. rewrite concat_chunks. simpl.
  apply take_ge. unfold ceil_div.
  pose proof (Nat.div_mod_eq (length l + b - 1) b) as Hdm.
  pose proof (Nat.mod_upper_bound (length l + b - 1) b ltac:(lia)) as Hm.
  nia.
Qed.

Lemma sum_list_length_concat {A} (ls : list (list A)) :
  sum_list (length <$> ls) = length (concat ls).
Proof.
  induction ls as [|l ls IH]; csimpl; [done|]. rewrite length_app, IH. done.
Qed.

Lemma norm_index_id (n i : Z) : (0 ≤ i ≤ n)%Z → norm_index n i = i.
Proof. intros H. unfold norm_index. destruct (Z.ltb_spec i 0); lia. Qed.

(** The slice the loop takes in its [k]-th iteration. *)
Lemma py_slice_batch {A} (idx : list A) (b k : nat) (batch_end : Z) :
  1 ≤ b → k * b < length idx →
  batch_end = (if (Z.of_nat ((k + 1) * b) >? Z.of_nat (length idx))%Z
               then Z.of_nat (length idx) else Z.of_nat ((k + 1) * b)) →
  py_slice idx (Z.of_nat (k * b)) batch_end = take b (drop (k * b) idx).
Proof.
  intros Hb Hk ->. unfold py_slice.
  rewrite (norm_index_id _ (Z.of_nat (k * b))) by lia. rewrite Nat2Z.id.
  destruct (Z.gtb_spec (Z.of_nat ((k + 1) * b)) (Z.of_nat (length idx))) as [Hgt|Hle].
  - rewrite norm_index_id by lia.
    rewrite (take_ge (drop (k * b) idx) b) by (rewrite length_drop; nia).
    rewrite take_ge by (rewrite length_drop; nia). done.
  - rewrite norm_index_id by lia. f_equal. lia.
Qed.

Lemma train_loop_unfold fuel batch_size (ex : T) n idx batch_start batch_end
    net nets (ode_system : OdeSystem) conditions (criterion : Criterion)
    (additional_loss_term : option LossTerm) optimizer :
  train_loop fuel batch_size ex n idx batch_start batch_end net nets ode_system
    conditions criterion additional_loss_term optimizer
  = if (batch_start <? Z.of_nat n)%Z then
      match fuel with
      | O => raise OutOfFuel
      | S fuel' =>
          let batch_end :=
            if (batch_end >? Z.of_nat n)%Z then Z.of_nat n else batch_end in
          let batch_idx := py_slice idx batch_start batch_end in
          do ts <- lift (index_rows ex batch_idx);
          train_batch ts net nets ode_system conditions criterion
            additional_loss_term optimizer;;
          train_loop fuel' batch_size ex n idx
            (batch_start + batch_size)%Z (batch_end + batch_size)%Z
            net nets ode_system conditions criterion additional_loss_term optimizer
      end
    else ret tt.
Proof. destruct fuel; reflexivity. Qed.

(** From its [k]-th iteration on, the loop runs the remaining batches. *)
Lemma train_loop_from (b : nat) (ex : T) idx net nets (ode_system : OdeSystem)
    conditions (criterion : Criterion) (additional_loss_term : option LossTerm)
    optimizer :
  1 ≤ b →
  ∀ n k fuel batch_end w,
    ceil_div (length idx) b - k = n → n ≤ fuel →
    (k * b < length idx → batch_end = Z.of_nat ((k + 1) * b)) →
    train_loop fuel (Z.of_nat b) ex (length idx) idx (Z.of_nat (k * b)) batch_end
      net nets ode_system conditions criterion additional_loss_term optimizer w
    = run_batches ex ((λ j, take b (drop (j * b) idx)) <$> seq k n)
        net nets ode_system conditions criterion additional_loss_term optimizer w.
Proof.
  intros Hb. induction n as [|n IH]; intros k fuel batch_end w Hn Hfuel Hend.
  - rewrite train_loop_unfold.
    assert (¬ k * b < length idx) as Hk.
    { rewrite <- ceil_div_lt by done. lia. }
    rewrite (proj2 (Z.ltb_ge _ _)) by lia. reflexivity.
  - rewrite train_loop_unfold.
    assert (k * b < length idx) as Hk.
    { rewrite <- ceil_div_lt by done. lia. }
    rewrite (proj2 (Z.ltb_lt _ _)) by lia.
    destruct fuel as [|fuel]; [lia|].
    rewrite (Hend Hk). cbv zeta.
    erewrite py_slice_batch by done.
    unfold run_batches. simpl forM_. unfold bind at 1 3 4. unfold bind at 1.
    destruct (lift (index_rows ex (take b (drop (k * b) idx))) w) as [[ts|e] w1];
      [|reflexivity].
    destruct (train_batch ts net nets ode_system conditions criterion
                additional_loss_term optimizer w1) as [[[]|e] w2]; [|reflexivity].
    replace (Z.of_nat (k * b) + Z.of_nat b)%Z with (Z.of_nat (S k * b)) by lia.
    apply IH; [lia | lia |].
    intros Hk'.
    destruct (Z.gtb_spec (Z.of_nat ((k + 1) * b)) (Z.of_nat (length idx))); lia.
Qed.

(** With a batch size of zero or less the loop never leaves: whatever the
    number of iterations it is given, it either raises inside its body or
    asks for more. *)
Lemma train_loop_diverges fuel batch_size (ex : T) n idx net nets
    (ode_system : OdeSystem) conditions (criterion : Criterion)
    (additional_loss_term : option LossTerm) optimizer :
  (batch_size ≤ 0)%Z → 1 ≤ n →
  ∀ batch_start batch_end w,
    (batch_start ≤ 0)%Z →
    is_ok (train_loop fuel batch_size ex n idx batch_start batch_end net nets
             ode_system conditions criterion additional_loss_term optimizer w).1
    = false.
Proof.
  intros HB Hn. induction fuel as [|fuel IH]; intros batch_start batch_end w Hs;
    rewrite train_loop_unfold; rewrite (proj2 (Z.ltb_lt _ _)) by lia.
  - reflexivity.
  - cbv zeta. unfold bind at 1.
    destruct (lift _ w) as [[ts|e] w1]; [|reflexivity].
    unfold bind at 1.
    destruct (train_batch _ _ _ _ _ _ _ _ w1) as [[[]|e] w2]; [|reflexivity].
    apply IH. lia.
Qed.

Lemma bind_ext {W A B} (m : M W A) (f g : A → M W B) w :
  (∀ a w', m w = (Ok a, w') → f a w' = g a w') → bind m f w = bind m g w.
Proof. intros H. unfold bind. destruct (m w) as [[a|e] w']; auto. Qed.

Lemma bind_cong_l {W A B} (m m' : M W A) (f : A → M W B) w :
  m w = m' w → bind m f w = bind m' f w.
Proof. unfold bind. by intros ->. Qed.

Lemma ceil_div_le (n b : nat) : 1 ≤ b → ceil_div n b ≤ n.
Proof.
  intros Hb. destruct (decide (ceil_div n b ≤ n)) as [|Hgt]; [done|].
  assert (n < ceil_div n b) as H%ceil_div_lt by lia; [nia | done].
Qed.

(** The index sequence of an epoch has one index per training point. *)
Lemma epoch_idx_length (shuffle : bool) n (w w' : World) idx :
  (if shuffle then np_random_permutation n else ret (seq 0 n)) w = (Ok idx, w') →
  length idx = n.
Proof.
  destruct shuffle.
  - unfold np_random_permutation.
    pose proof (permutation_perm n (rng w)) as Hp.
    destruct (permutation n (rng w)) as [idx' r']. intros [= <- _].
    apply Permutation_length in Hp. by rewrite length_seq in Hp.
  - intros [= <- _]. apply length_seq.
Qed.

(** C2. For a batch size of at least 1, the training pass of an epoch is
    one [train_batch] (one optimizer step) per batch of [batches], in
    order; and for [N >= 1] indices there are [ceil(N / B)] batches (the
    least count whose [B]-fold reaches [N]), which laid end to end are
    the index sequence itself (so their sizes add up to [N], nothing
    padded or dropped), every batch has between 1 and [B] indices and
    every batch but the last has exactly [B]. *)
Theorem train_runs_batches
    (batch_size : Z) (metrics : Metrics) train_generator net nets
    (ode_system : OdeSystem) conditions (criterion : Criterion)
    (additional_loss_term : option LossTerm) (shuffle : bool) optimizer :
  (1 ≤ batch_size)%Z →
  (∀ w, train batch_size metrics train_generator net nets ode_system conditions
          criterion additional_loss_term shuffle optimizer w
        = train_by_batches batch_size metrics train_generator net nets
            ode_system conditions criterion additional_loss_term shuffle
            optimizer w)
  ∧ (∀ idx : list nat,
       1 ≤ length idx →
       let bs := batches (Z.to_nat batch_size) idx in
       length bs = ceil_div (length idx) (Z.to_nat batch_size)
       ∧ (length bs - 1) * Z.to_nat batch_size < length idx
           ≤ length bs * Z.to_nat batch_size
       ∧ concat bs = idx
       ∧ sum_list (length <$> bs) = length idx
       ∧ ∀ i b, bs !! i = Some b →
                1 ≤ length b ≤ Z.to_nat batch_size
                ∧ (i + 1 < length bs → length b = Z.to_nat batch_size)).
Proof.
  intros HB.
  assert (1 ≤ Z.to_nat batch_size) as Hb by lia.
  split.
  - intros w. unfold train, train_by_batches.
    apply bind_ext. intros ex w1 _.
    apply bind_ext. intros n w2 _.
    apply bind_ext. intros idx w3 Hidx.
    apply epoch_idx_length in Hidx. subst n.
    apply bind_cong_l.
    remember (Z.to_nat batch_size) as b eqn:Heqb.
    assert (batch_size = Z.of_nat b) as -> by lia.
    unfold batches.
    change 0%Z with (Z.of_nat (0 * b)).
    apply train_loop_from; [done | lia | by apply ceil_div_le |].
    intros _. f_equal. lia.
  - intros idx Hidx bs. subst bs.
    split; [apply batches_length|].
    split.
    { rewrite batches_length.
      pose proof (ceil_div_lt (length idx) _ 0 Hb) as H0.
      pose proof (ceil_div_lt (length idx) _
                    (ceil_div (length idx) (Z.to_nat batch_size) - 1) Hb) as H1.
      pose proof (ceil_div_lt (length idx) _
                    (ceil_div (length idx) (Z.to_nat batch_size)) Hb) as H2.
      lia. }
    split; [by apply batches_concat|].
    split; [by rewrite sum_list_length_concat, batches_concat|].
    intros i b Hi.
    assert (i < ceil_div (length idx) (Z.to_nat batch_size)) as Hlt.
    { rewrite <- batches_length. by eapply lookup_lt_Some. }
    rewrite batches_lookup in Hi by done. injection Hi as <-.
    rewrite length_take, length_drop, batches_length.
    pose proof (proj1 (ceil_div_lt _ _ _ Hb) Hlt).
    split; [lia|]. intros Hnext.
    assert (i + 1 < ceil_div (length idx) (Z.to_nat batch_size)) as Hn by lia.
    apply (ceil_div_lt _ _ _ Hb) in Hn. nia.
Qed.

(** *** [deepcopy] and the isolation of a [Solution] *)

Lemma extends_refl (h : Heap) : extends h h.
Proof. by intros l. Qed.

Lemma extends_dom (h h' : Heap) : extends h h' → dom h ⊆ dom h'.
Proof.
  intros H l Hl. specialize (H l Hl). apply elem_of_dom. rewrite H.
  by apply elem_of_dom.
Qed.

Lemma extends_trans (h1 h2 h3 : Heap) :
  extends h1 h2 → extends h2 h3 → extends h1 h3.
Proof.
  intros H12 H23 l Hl. rewrite H23; [by apply H12|].
  by apply (extends_dom _ _ H12).
Qed.

Lemma extends_insert_fresh (h : Heap) l (o : Object) :
  l ∉ dom h → extends h (<[l := o]> h).
Proof. intros Hl l' Hl'. rewrite lookup_insert_ne; [done|]. by intros ->. Qed.

Lemma alloc_spec (o : Object) w l w' :
  alloc o w = (Ok l, w') →
  (l ∉ dom (heap w)) ∧ heap w' = <[l := o]> (heap w).
Proof. intros [= <- <-]. split; [apply is_fresh | done]. Qed.

Lemma owned_weaken (h0 h0' h : Heap) l :
  dom h0 ⊆ dom h0' → owned h0' h l → owned h0 h l.
Proof.
  intros Hsub [Hl Hitems]. split; [set_solver|].
  destruct (h !! l) as [[| |items| | |]|]; try done.
  eapply Forall_impl; [exact Hitems|]. set_solver.
Qed.

Lemma owned_extends (h0 h h' : Heap) l :
  extends h h' → l ∈ dom h → owned h0 h l → owned h0 h' l.
Proof. intros Hext Hl [Hn Hitems]. split; [done|]. by rewrite Hext. Qed.

Lemma deepcopy_leaf_spec (h0 : Heap) memo x w y memo' w' :
  deepcopy_leaf memo x w = (Ok (y, memo'), w') →
  dom h0 ⊆ dom (heap w) →
  (∀ a b, memo !! a = Some b → b ∉ dom h0) →
  extends (heap w) (heap w')
  ∧ (y ∉ dom h0)
  ∧ (∀ a b, memo' !! a = Some b → b ∉ dom h0).
Proof.
  unfold deepcopy_leaf. intros H Hsub Hmemo.
  destruct (memo !! x) as [y0|] eqn:Hx.
  - injection H as <- <- <-. split; [apply extends_refl|]. eauto.
  - cbv [bind get_heap] in H.
    assert (∀ o : Object,
              (let (r, w'0) := alloc o w in
               match r with
               | Ok a => ret (a, <[x:=a]> memo) w'0
               | Raise e => (Raise e, w'0)
               end) = (Ok (y, memo'), w') →
              extends (heap w) (heap w') ∧ (y ∉ dom h0)
              ∧ (∀ a b, memo' !! a = Some b → b ∉ dom h0)) as Hcase.
    { intros o Ho. simpl in Ho. injection Ho as <- <- <-. simpl.
      pose proof (is_fresh (dom (heap w))) as Hf.
      split; [by apply extends_insert_fresh|].
      split; [set_solver|].
      intros a b. rewrite lookup_insert. case_decide; [|by eauto].
      intros [= <-]. set_solver. }
    destruct (heap w !! x) as [[p|i c|items|g|tg st|k ms]|]; try discriminate;
      by eapply Hcase.
Qed.

Lemma deepcopy_items_spec (h0 : Heap) items :
  ∀ memo w ys w',
    deepcopy_items memo items w = (Ok ys, w') →
    dom h0 ⊆ dom (heap w) →
    (∀ a b, memo !! a = Some b → b ∉ dom h0) →
    extends (heap w) (heap w') ∧ Forall (λ y, y ∉ dom h0) ys.
Proof.
  induction items as [|x items IH]; intros memo w ys w' H Hsub Hmemo; simpl in H.
  - injection H as <- <-. split; [apply extends_refl | constructor].
  - inv_bind H. destruct a as [y memo1].
    inv_bind H. injection H as <- <-.
    destruct (deepcopy_leaf_spec h0 _ _ _ _ _ _ H0 Hsub Hmemo) as (He1 & Hy & Hm1).
    destruct (IH _ _ _ _ H1) as (He2 & Hys); [|done|].
    { etrans; [done|]. by apply extends_dom. }
    split; [by eapply extends_trans | by constructor].
Qed.

Lemma deepcopy_obj_spec l w y w' :
  deepcopy_obj l w = (Ok y, w') →
  extends (heap w) (heap w') ∧ y ∈ dom (heap w') ∧ owned (heap w) (heap w') y.
Proof.
  unfold deepcopy_obj. intros H. inv_bind H. injection H0 as <- <-.
  assert ((∀ items, heap w !! l ≠ Some (OList items)) →
          bind (deepcopy_leaf ∅ l) (λ x, let (y, _) := x in ret y) w = (Ok y, w') →
          extends (heap w) (heap w') ∧ y ∈ dom (heap w')
          ∧ owned (heap w) (heap w') y) as Hleaf.
  { intros Hnl Hc. inv_bind Hc. destruct a as [y' memo'].
    injection Hc as <- <-.
    pose proof Hc0 as Hc1.
    apply (deepcopy_leaf_spec (heap w)) in Hc0 as (He & Hy & _);
      [|done|by intros a b; rewrite lookup_empty].
    unfold deepcopy_leaf in Hc1. rewrite lookup_empty in Hc1.
    cbv [bind get_heap] in Hc1.
    assert (∃ o : Object, heap w0 !! y' = Some o ∧ ∀ items, o ≠ OList items)
      as (o & Hy' & Ho).
    { destruct (heap w !! l) as [[p|i c|items|g|tg st|k ms]|]; try discriminate.
      - simpl in Hc1. injection Hc1 as <- _ <-. simpl.
        exists (ONet p). by rewrite lookup_insert_eq.
      - simpl in Hc1. injection Hc1 as <- _ <-. simpl.
        exists (OCond i c). by rewrite lookup_insert_eq. }
    split; [done|]. split; [apply elem_of_dom; eauto|].
    split; [done|]. rewrite Hy'.
    destruct o as [| |items| | |]; try done. by destruct (Ho items). }
  destruct (heap w !! l) as [[p|i c|items|g|tg st|k ms]|] eqn:Hl;
    try (by apply Hleaf).
  inv_bind H. apply alloc_spec in H0 as [Hy Hw0].
  inv_bind H. inv_bind H. injection H as <- <-. injection H1 as _ <-.
  rename a into y, a0 into ys.
  destruct (deepcopy_items_spec (heap w) _ _ _ _ _ H0) as (He & Hys).
  { rewrite Hw0, dom_insert. set_solver. }
  { intros a b. rewrite lookup_singleton. case_decide; [|done].
    by intros [= <-]. }
  simpl. split; [|split].
  - intros l' Hl'. rewrite lookup_insert_ne by (by intros ->).
    rewrite He; [rewrite Hw0; by apply extends_insert_fresh|].
    rewrite Hw0, dom_insert. set_solver.
  - rewrite dom_insert. set_solver.
  - split; [done|]. by rewrite lookup_insert_eq.
Qed.

Lemma deepcopy_spec x w y w' :
  deepcopy x w = (Ok y, w') →
  extends (heap w) (heap w')
  ∧ ∀ l, y = Some l → l ∈ dom (heap w') ∧ owned (heap w) (heap w') l.
Proof.
  destruct x as [l|]; simpl; intros H.
  - inv_bind H. injection H as <- <-.
    apply deepcopy_obj_spec in H0 as (He & Hd & Ho).
    split; [done|]. by intros l' [= <-].
  - injection H as <- <-. split; [apply extends_refl | done].
Qed.

(** Everything a new [Solution] refers to was created for it. *)
Lemma Solution_init_owned single_net nets conditions w sol w1 :
  Solution_init single_net nets conditions w = (Ok sol, w1) →
  extends (heap w) (heap w1)
  ∧ (∀ l, self_single_net sol = Some l → owned (heap w) (heap w1) l)
  ∧ (∀ l, self_nets sol = Some l → owned (heap w) (heap w1) l)
  ∧ owned (heap w) (heap w1) (self_conditions sol).
Proof.
  unfold Solution_init. intros H.
  apply bind_Ok_inv in H as (sn & wa & H0 & H).
  apply bind_Ok_inv in H as (ns & wb & H1 & H).
  apply bind_Ok_inv in H as (cs & wc & H2 & H).
  injection H as <- <-. simpl.
  apply deepcopy_spec in H0 as (He1 & Hsn).
  apply deepcopy_spec in H1 as (He2 & Hns).
  apply deepcopy_obj_spec in H2 as (He3 & Hcd & Hcs).
  pose proof (extends_dom _ _ He1) as Hd1.
  pose proof (extends_dom _ _ He2) as Hd2.
  assert (extends (heap wa) (heap wc)) as He23 by (by eapply extends_trans).
  split; [by eapply extends_trans|]. split; [|split].
  - intros l Hl. destruct (Hsn l Hl) as [Hld Hlo].
    by apply (owned_extends _ (heap wa)).
  - intros l Hl. destruct (Hns l Hl) as [Hld Hlo].
    apply (owned_extends _ (heap wb)); [done | done |].
    by apply (owned_weaken _ (heap wa)).
  - apply (owned_weaken _ (heap wb)); [|done]. set_solver.
Qed.

Section frame.
Context (h0 h1 h2 : Heap).
Context (Hagree : ∀ l, l ∉ dom h0 → h2 !! l = h1 !! l).

Lemma owned_lookup l : owned h0 h1 l → h2 !! l = h1 !! l.
Proof. intros [Hl _]. by apply Hagree. Qed.

Lemma owned_get_list l items :
  owned h0 h1 l → get_list h1 l = Ok items → Forall (λ i, i ∉ dom h0) items.
Proof.
  intros [_ Ho]. unfold get_list.
  destruct (h1 !! l) as [[| |items'| | |]|]; try discriminate.
  by intros [= <-].
Qed.

Lemma con_enforce_frame con net (ts : T) :
  con ∉ dom h0 → net ∉ dom h0 →
  con_enforce h2 con net ts = con_enforce h1 con net ts.
Proof.
  intros Hc Hn. unfold con_enforce, get_cond, get_net.
  by rewrite !Hagree.
Qed.

Lemma trial_solution_frame single_net nets (ts : T) conditions :
  (∀ l, single_net = Some l → owned h0 h1 l) →
  (∀ l, nets = Some l → owned h0 h1 l) →
  owned h0 h1 conditions →
  _trial_solution h2 single_net nets ts conditions
  = _trial_solution h1 single_net nets ts conditions.
Proof.
  intros Hsn Hns Hcs. unfold _trial_solution.
  assert (truthy h2 single_net = truthy h1 single_net) as ->.
  { destruct single_net as [l|]; [simpl|done].
    by rewrite (owned_lookup l (Hsn l eq_refl)). }
  assert (get_list h2 conditions = get_list h1 conditions) as Hgl.
  { unfold get_list. by rewrite (owned_lookup _ Hcs). }
  destruct (truthy h1 single_net).
  - destruct single_net as [net|]; [|done]. rewrite Hgl.
    destruct (get_list h1 conditions) as [cons|] eqn:Hcons; [simpl|done].
    pose proof (owned_get_list _ _ Hcs Hcons) as Hall.
    apply rmap_ext_in. intros con Hcon.
    apply con_enforce_frame.
    + rewrite Forall_forall in Hall. by apply Hall.
    + by destruct (Hsn net eq_refl).
  - destruct nets as [nl|]; [|done]. rewrite Hgl.
    destruct (get_list h1 conditions) as [cons|] eqn:Hcons; [simpl|done].
    assert (get_list h2 nl = get_list h1 nl) as ->.
    { unfold get_list. by rewrite (owned_lookup _ (Hns nl eq_refl)). }
    destruct (get_list h1 nl) as [ns|] eqn:Hnl; [simpl|done].
    pose proof (owned_get_list _ _ Hcs Hcons) as Hall.
    pose proof (owned_get_list _ _ (Hns nl eq_refl) Hnl) as Hall'.
    rewrite Forall_forall in Hall. rewrite Forall_forall in Hall'.
    apply rmap_ext_in. intros [con net] Hin.
    apply con_enforce_frame.
    + apply Hall. by eapply elem_of_zip_l.
    + apply Hall'. by eapply elem_of_zip_r.
Qed.
End frame.

Lemma write_params_other (h : Heap) targets ps l :
  l ∉ targets → write_params h targets ps !! l = h !! l.
Proof.
  unfold write_params. revert ps.
  induction targets as [|t targets IH]; intros ps Hl; [done|].
  destruct ps as [|p ps]; [done|]. simpl.
  rewrite lookup_insert_ne by set_solver. apply IH. set_solver.
Qed.

(** An optimizer step writes the optimizer and the networks registered
    in it, nothing else. *)
Lemma backward_and_step_frame o (loss_of : Heap → Result Scalar) w w' :
  backward_and_step (Some o) loss_of w = (Ok tt, w') →
  ∃ targets st,
    get_opt (heap w) o = Ok (targets, st)
    ∧ ∀ l, l ≠ o → l ∉ targets → heap w' !! l = heap w !! l.
Proof.
  unfold backward_and_step. intros H.
  apply bind_Ok_inv in H as (h & wa & Hh & H). injection Hh as <- <-.
  apply bind_Ok_inv in H as ([targets st] & wa & Ho & H).
  apply lift_Ok_inv in Ho as [Ho ->].
  apply bind_Ok_inv in H as (ps & wa & _ & H).
  apply bind_Ok_inv in H as ([ps' st'] & wb & _ & H).
  injection H as <-. exists targets, st. split; [done|].
  intros l Hl Ht. simpl. rewrite lookup_insert_ne by done.
  by apply write_params_other.
Qed.

Lemma train_batch_frame (ts : T) net nets (ode_system : OdeSystem) conditions
    (criterion : Criterion) (additional_loss_term : option LossTerm) o w w' :
  train_batch ts net nets ode_system conditions criterion additional_loss_term
    (Some o) w = (Ok tt, w') →
  ∃ targets st,
    get_opt (heap w) o = Ok (targets, st)
    ∧ ∀ l, l ≠ o → l ∉ targets → heap w' !! l = heap w !! l.
Proof.
  unfold train_batch. intros H.
  apply bind_Ok_inv in H as (h & wa & Hh & H). injection Hh as <- <-.
  apply bind_Ok_inv in H as (loss & wa & Hl & H).
  apply lift_Ok_inv in Hl as [_ ->].
  by apply backward_and_step_frame in H.
Qed.

(** C3. A [Solution] evaluates the same in every later heap that differs
    from the heap it was built in only at objects that already existed
    before its construction: whatever then happens to the original
    networks, conditions and lists (optimizer steps, [set_impose_on],
    anything), [__call__] returns the same value on the same input.  In
    particular a training step by an optimizer that existed before the
    construction, on the networks registered in it then, changes nothing
    the solution returns.  The construction itself leaves every earlier
    object as it was. *)
Theorem Solution_isolated single_net nets conditions w sol w1 :
  Solution_init single_net nets conditions w = (Ok sol, w1) →
  extends (heap w) (heap w1)
  ∧ (∀ h2 : Heap,
       (∀ l, l ∉ dom (heap w) → h2 !! l = heap w1 !! l) →
       ∀ ts as_type,
         Solution_call h2 sol ts as_type = Solution_call (heap w1) sol ts as_type)
  ∧ (∀ (batch : T) net' nets' (ode_system : OdeSystem) conditions'
       (criterion : Criterion) (additional_loss_term : option LossTerm)
       o targets st w2,
       get_opt (heap w1) o = Ok (targets, st) →
       o ∈ dom (heap w) →
       Forall (λ l, l ∈ dom (heap w)) targets →
       train_batch batch net' nets' ode_system conditions' criterion
         additional_loss_term (Some o) w1 = (Ok tt, w2) →
       ∀ ts as_type,
         Solution_call (heap w2) sol ts as_type
         = Solution_call (heap w1) sol ts as_type).
Proof.
  intros H. apply Solution_init_owned in H as (He & Hsn & Hns & Hcs).
  assert (∀ h2 : Heap,
            (∀ l, l ∉ dom (heap w) → h2 !! l = heap w1 !! l) →
            ∀ ts as_type,
              Solution_call h2 sol ts as_type
              = Solution_call (heap w1) sol ts as_type) as Hframe.
  { intros h2 Hagree ts as_type. unfold Solution_call.
    rewrite (trial_solution_frame (heap w) (heap w1) h2 Hagree) by done.
    assert (get_list h2 (self_conditions sol)
            = get_list (heap w1) (self_conditions sol)) as ->; [|done].
    unfold get_list.
    by rewrite (owned_lookup (heap w) (heap w1) h2 Hagree _ Hcs). }
  split; [done|]. split; [done|].
  intros batch net' nets' ode_system conditions' criterion additional_loss_term
    o targets st w2 Ho Hdom Htargets Hstep ts as_type.
  apply Hframe. intros l Hl.
  apply train_batch_frame in Hstep as (targets' & st' & Ho' & Hother).
  rewrite Ho in Ho'. injection Ho' as <- <-.
  apply Hother.
  - intros ->. done.
  - intros Hin. rewrite Forall_forall in Htargets. by apply Hl, Htargets.
Qed.

(** *** The history *)

Lemma history_append_inv key (v : Scalar) (hist hist' : History) :
  history_append key v hist = Ok hist' →
  ∃ l, hist !! key = Some l ∧ hist' = <[key := l ++ [v]]> hist.
Proof.
  unfold history_append. destruct (hist !! key) as [l|]; [|discriminate].
  intros [= <-]. eauto.
Qed.

Lemma history_append_metrics_other prefix ms (hist hist' : History) key :
  history_append_metrics prefix ms hist = Ok hist' →
  (∀ name, key ≠ prefix +:+ name) →
  hist' !! key = hist !! key.
Proof.
  intros H Hkey. revert hist H.
  induction ms as [|[name v] ms IH]; intros hist H; simpl in H.
  - by injection H as <-.
  - apply rbind_Ok_inv in H as (hist1 & H1 & H).
    apply history_append_inv in H1 as (l & _ & ->).
    rewrite (IH _ H). apply lookup_insert_ne. intros Heq. by apply (Hkey name).
Qed.

Lemma train_loss_not_metric name : "train_loss" ≠ "train__" +:+ name.
Proof. discriminate. Qed.

Lemma train_loss_not_valid_metric name : "train_loss" ≠ "valid__" +:+ name.
Proof. discriminate. Qed.

Lemma valid_loss_not_metric name : "valid_loss" ≠ "valid__" +:+ name.
Proof. discriminate. Qed.

Lemma valid_loss_not_train_metric name : "valid_loss" ≠ "train__" +:+ name.
Proof. discriminate. Qed.

Lemma history_init_other (metrics : Metrics) key :
  (∀ name, key ≠ "train__" +:+ name) → (∀ name, key ≠ "valid__" +:+ name) →
  history_init metrics !! key
  = (<["valid_loss" := []]> (<["train_loss" := []]> (∅ : History))) !! key.
Proof.
  intros Ht Hv. unfold history_init.
  generalize (<["valid_loss" := []]> (<["train_loss" := []]> (∅ : History))).
  induction metrics as [|[name f] metrics IH]; intros hist; simpl; [done|].
  rewrite IH. rewrite lookup_insert_ne by (intros Heq; by apply (Hv name)).
  apply lookup_insert_ne. intros Heq. by apply (Ht name).
Qed.

Lemma history_init_train_loss (metrics : Metrics) :
  history_init metrics !! "train_loss" = Some [].
Proof.
  rewrite history_init_other.
  - done.
  - apply train_loss_not_metric.
  - apply train_loss_not_valid_metric.
Qed.

Lemma history_init_valid_loss (metrics : Metrics) :
  history_init metrics !! "valid_loss" = Some [].
Proof.
  rewrite history_init_other.
  - done.
  - apply valid_loss_not_train_metric.
  - apply valid_loss_not_metric.
Qed.

(** *** The two passes *)

Lemma lift_inv {W A} (r : Result A) (w w' : W) a :
  lift r w = (Ok a, w') → r = Ok a ∧ w' = w.
Proof. intros [= -> ->]. done. Qed.

(** The loss [train] returns is computed on the whole training set, with
    the parameters the pass ends with. *)
Lemma loss_tensor_Ok (h : Heap) (ts : T) net nets (ode_system : OdeSystem)
    conditions (criterion : Criterion) (additional_loss_term : option LossTerm)
    loss :
  loss_tensor h ts net nets ode_system conditions criterion additional_loss_term
  = Ok loss →
  calculate_loss h ts net nets ode_system conditions criterion
    additional_loss_term = Ok loss.
Proof.
  unfold loss_tensor. intros H. apply rbind_Ok_inv in H as (l & Hl & H).
  destruct (loss_is_int _ _ _ _ _ _ _); [discriminate|]. by injection H as <-.
Qed.

Lemma train_full_loss batch_size (metrics : Metrics) train_generator net nets
    (ode_system : OdeSystem) conditions (criterion : Criterion)
    (additional_loss_term : option LossTerm) shuffle optimizer w tl tm w1 :
  train batch_size metrics train_generator net nets ode_system conditions
    criterion additional_loss_term shuffle optimizer w = (Ok (tl, tm), w1) →
  ∃ ex wa,
    gen_get_examples train_generator w = (Ok ex, wa)
    ∧ calculate_loss (heap w1) (reshape_col ex) net nets ode_system conditions
        criterion additional_loss_term = Ok tl.
Proof.
  unfold train. intros H.
  apply bind_Ok_inv in H as (ex & wa & Hex & H).
  apply bind_Ok_inv in H as (n & wb & _ & H).
  apply bind_Ok_inv in H as (idx & wc & _ & H).
  apply bind_Ok_inv in H as ([] & wd & _ & H).
  apply bind_Ok_inv in H as (h & we & Hh & H). injection Hh as <- <-.
  apply bind_Ok_inv in H as (tl' & wf & Hl & H). apply lift_inv in Hl as [Hl ->].
  apply bind_Ok_inv in H as (tm' & wg & Hm & H). apply lift_inv in Hm as [Hm ->].
  injection H as <- <- <-. apply loss_tensor_Ok in Hl. eauto.
Qed.

Lemma valid_full_loss (metrics : Metrics) valid_generator net nets
    (ode_system : OdeSystem) conditions (criterion : Criterion)
    (additional_loss_term : option LossTerm) w v vm w2 :
  valid metrics valid_generator net nets ode_system conditions criterion
    additional_loss_term w = (Ok (v, vm), w2) →
  ∃ vex,
    gen_get_examples valid_generator w = (Ok vex, w2)
    ∧ calculate_loss (heap w2) (reshape_col vex) net nets ode_system conditions
        criterion additional_loss_term = Ok v.
Proof.
  unfold valid. intros H.
  apply bind_Ok_inv in H as (vex & wa & Hex & H).
  apply bind_Ok_inv in H as (h & we & Hh & H). injection Hh as <- <-.
  apply bind_Ok_inv in H as (v' & wf & Hl & H). apply lift_inv in Hl as [Hl ->].
  apply bind_Ok_inv in H as (vm' & wg & Hm & H). apply lift_inv in Hm as [Hm ->].
  injection H as <- <- <-. apply loss_tensor_Ok in Hl. eauto.
Qed.

(** *** The epoch loop *)

Section epochs.
Context (ode_system : OdeSystem) (conditions : loc) (nets : option loc)
  (shuffle : bool) (additional_loss_term : option LossTerm) (batch_size : Z)
  (monitor : option loc) (return_best : bool) (cfg : Config).

Local Abbreviation run n :=
  (run_epochs ode_system conditions nets shuffle additional_loss_term batch_size
     monitor return_best cfg n).
Local Abbreviation body :=
  (epoch_body batch_size (c_metrics cfg) (c_train_generator cfg)
     (c_valid_generator cfg) (c_single_net cfg) nets ode_system conditions
     (c_criterion cfg) additional_loss_term shuffle (c_optimizer cfg) monitor
     return_best).
Local Abbreviation passes :=
  (epoch_passes batch_size (c_metrics cfg) (c_train_generator cfg)
     (c_valid_generator cfg) (c_single_net cfg) nets ode_system conditions
     (c_criterion cfg) additional_loss_term shuffle (c_optimizer cfg) monitor).
Local Abbreviation train_pass :=
  (train batch_size (c_metrics cfg) (c_train_generator cfg) (c_single_net cfg)
     nets ode_system conditions (c_criterion cfg) additional_loss_term shuffle
     (c_optimizer cfg)).
Local Abbreviation valid_pass :=
  (valid (c_metrics cfg) (c_valid_generator cfg) (c_single_net cfg) nets
     ode_system conditions (c_criterion cfg) additional_loss_term).
Local Abbreviation snapshot := (Solution_init (c_single_net cfg) nets conditions).

Lemma epoch_passes_inv hist epoch w hist' v wp :
  passes hist epoch w = (Ok (hist', v), wp) →
  ∃ tl tm w1 vm w2,
    train_pass w = (Ok (tl, tm), w1)
    ∧ valid_pass w1 = (Ok (v, vm), w2)
    ∧ (∀ tls, hist !! "train_loss" = Some tls →
              hist' !! "train_loss" = Some (tls ++ [tl]))
    ∧ (∀ vls, hist !! "valid_loss" = Some vls →
              hist' !! "valid_loss" = Some (vls ++ [v])).
Proof.
  unfold epoch_passes. intros H.
  apply bind_Ok_inv in H as ([tl tm] & w1 & Htrain & H).
  apply bind_Ok_inv in H as (hist1 & wa & H1 & H). apply lift_inv in H1 as [H1 ->].
  apply bind_Ok_inv in H as (hist2 & wa & H2 & H). apply lift_inv in H2 as [H2 ->].
  apply bind_Ok_inv in H as ([v' vm] & w2 & Hvalid & H).
  apply bind_Ok_inv in H as (hist3 & wa & H3 & H). apply lift_inv in H3 as [H3 ->].
  apply bind_Ok_inv in H as (hist4 & wa & H4 & H). apply lift_inv in H4 as [H4 ->].
  apply bind_Ok_inv in H as ([] & wb & _ & H). injection H as <- <- <-.
  apply history_append_inv in H1 as (l1 & Hl1 & ->).
  apply history_append_inv in H3 as (l3 & Hl3 & ->).
  exists tl, tm, w1, vm, w2. split; [done|]. split; [done|]. split.
  - intros tls Htls.
    rewrite (history_append_metrics_other _ _ _ _ _ H4)
      by apply train_loss_not_valid_metric.
    rewrite lookup_insert_ne by done.
    rewrite (history_append_metrics_other _ _ _ _ _ H2)
      by apply train_loss_not_metric.
    rewrite lookup_insert_eq. congruence.
  - intros vls Hvls.
    rewrite (history_append_metrics_other _ _ _ _ _ H4)
      by apply valid_loss_not_metric.
    rewrite lookup_insert_eq.
    rewrite (history_append_metrics_other _ _ _ _ _ H2) in Hl3
      by apply valid_loss_not_train_metric.
    rewrite lookup_insert_ne in Hl3 by done. congruence.
Qed.

Lemma epoch_body_inv st epoch w st' w' :
  body st epoch w = (Ok st', w') →
  ∃ v wp,
    passes (ls_history st) epoch w = (Ok (ls_history st', v), wp)
    ∧ if return_best && s_lt v (ls_valid_loss_epoch_min st)
      then ls_valid_loss_epoch_min st' = v
           ∧ ∃ sol, snapshot wp = (Ok sol, w') ∧ ls_solution_min st' = Some sol
      else ls_valid_loss_epoch_min st' = ls_valid_loss_epoch_min st
           ∧ w' = wp ∧ ls_solution_min st' = ls_solution_min st.
Proof.
  unfold epoch_body. intros H.
  apply bind_Ok_inv in H as ([hist v] & wp & Hp & H).
  exists v, wp.
  destruct (return_best && s_lt v (ls_valid_loss_epoch_min st)).
  - apply bind_Ok_inv in H as (sol & wa & Hs & H). injection H as <- <-.
    simpl. eauto.
  - injection H as <- <-. simpl. eauto.
Qed.

Lemma run_epochs_S n w :
  run (S n) w = bind (run n) (λ st, body st n) w.
Proof.
  unfold run_epochs. rewrite seq_S. rewrite foldM_app. simpl.
  apply bind_ext. intros st w' _. unfold bind.
  by destruct (body st n w') as [[st'|e] w''].
Qed.

(** A run of [n] epochs went through each shorter run. *)
Lemma run_epochs_prefix n w st wn :
  run n w = (Ok st, wn) →
  ∀ i, i ≤ n → ∃ st_i w_i, run i w = (Ok st_i, w_i).
Proof.
  revert st wn. induction n as [|n IH]; intros st wn H i Hi.
  - assert (i = 0) as -> by lia. eauto.
  - destruct (decide (i = S n)) as [->|]; [eauto|].
    rewrite run_epochs_S in H. apply bind_Ok_inv in H as (st_n & w_n & Hn & _).
    eapply IH; [done | lia].
Qed.

Lemma running_min_snoc (vs : list Scalar) v :
  running_min (vs ++ [v])
  = if s_lt v (running_min vs) then v else running_min vs.
Proof. unfold running_min. by rewrite foldl_app. Qed.

(** What [n] epochs leave behind: the two loss series, one entry per
    epoch in epoch order, the running minimum, and for each epoch the two
    passes that produced its entries and the checkpoint decision. *)
Lemma run_epochs_trace n w st wn :
  run n w = (Ok st, wn) →
  ∃ tls vls,
    ls_history st !! "train_loss" = Some tls
    ∧ ls_history st !! "valid_loss" = Some vls
    ∧ length tls = n ∧ length vls = n
    ∧ (return_best = true → ls_valid_loss_epoch_min st = running_min vls)
    ∧ ∀ i, i < n →
        ∃ st_i w_i st_i' w_i' tl tm w1 v vm w2 wp,
          run i w = (Ok st_i, w_i)
          ∧ run (S i) w = (Ok st_i', w_i')
          ∧ train_pass w_i = (Ok (tl, tm), w1)
          ∧ valid_pass w1 = (Ok (v, vm), w2)
          ∧ passes (ls_history st_i) i w_i = (Ok (ls_history st_i', v), wp)
          ∧ tls !! i = Some tl ∧ vls !! i = Some v
          ∧ (return_best = true →
             ls_valid_loss_epoch_min st_i = running_min (take i vls))
          ∧ if return_best && s_lt v (ls_valid_loss_epoch_min st_i)
            then ∃ sol, snapshot wp = (Ok sol, w_i')
                        ∧ ls_solution_min st_i' = Some sol
            else w_i' = wp ∧ ls_solution_min st_i' = ls_solution_min st_i.
Proof.
  revert st wn. induction n as [|n IH]; intros st wn H.
  - injection H as <- <-. exists [], []. simpl.
    split; [apply history_init_train_loss|].
    split; [apply history_init_valid_loss|].
    repeat split; try done. intros i Hi. lia.
  - pose proof H as HS. rewrite run_epochs_S in H.
    apply bind_Ok_inv in H as (st_n & w_n & Hn & Hbody).
    destruct (IH _ _ Hn) as (tls & vls & Htls & Hvls & Hlt & Hlv & Hmin & Hep).
    apply epoch_body_inv in Hbody as (v & wp & Hpass & Hif).
    pose proof Hpass as Hpass'.
    apply epoch_passes_inv in Hpass' as (tl & tm & w1 & vm & w2 & Htr & Hva & Ht & Hv).
    exists (tls ++ [tl]), (vls ++ [v]).
    split; [by apply Ht|]. split; [by apply Hv|].
    split; [rewrite length_app; simpl; lia|].
    split; [rewrite length_app; simpl; lia|].
    split.
    { intros Hrb. specialize (Hmin Hrb). rewrite running_min_snoc, <- Hmin.
      rewrite Hrb in Hif. simpl in Hif.
      destruct (s_lt v (ls_valid_loss_epoch_min st_n)); by destruct Hif. }
    intros i Hi. destruct (decide (i = n)) as [->|Hne].
    + exists st_n, w_n, st, wn, tl, tm, w1, v, vm, w2, wp.
      split; [done|]. split; [done|]. split; [done|]. split; [done|].
      split; [done|].
      split; [by apply list_lookup_middle|].
      split; [by apply list_lookup_middle|].
      split.
      { intros Hrb. rewrite take_app_le by lia. rewrite take_ge by lia. auto. }
      destruct (return_best && s_lt v (ls_valid_loss_epoch_min st_n));
        destruct Hif as (? & Hif); done.
    + destruct (Hep i ltac:(lia))
        as (st_i & w_i & st_i' & w_i' & tl' & tm' & w1' & v' & vm' & w2' & wp'
            & H1 & H2 & H3 & H4 & H5 & H6 & H7 & H8 & H9).
      exists st_i, w_i, st_i', w_i', tl', tm', w1', v', vm', w2', wp'.
      split; [done|]. split; [done|]. split; [done|]. split; [done|].
      split; [done|].
      split; [rewrite lookup_app_l by lia; done|].
      split; [rewrite lookup_app_l by lia; done|].
      split; [|done].
      intros Hrb. rewrite take_app_le by lia. auto.
Qed.
End epochs.

(** *** [solve_system] as a whole *)

Lemma solve_system_inv
    (ode_system : OdeSystem) conditions t_min t_max single_net nets
    train_generator shuffle valid_generator optimizer
    (criterion : option Criterion) (additional_loss_term : option LossTerm)
    (metrics : option Metrics) batch_size max_epochs monitor return_internal
    return_best w out w' :
  solve_system ode_system conditions t_min t_max single_net nets train_generator
    shuffle valid_generator optimizer criterion additional_loss_term metrics
    batch_size max_epochs monitor return_internal return_best w = (Ok out, w') →
  ∃ cfg w0 st wE,
    configure conditions t_min t_max single_net nets train_generator
      valid_generator optimizer criterion metrics w = (Ok cfg, w0)
    ∧ run_epochs ode_system conditions nets shuffle additional_loss_term
        batch_size monitor return_best cfg (Z.to_nat max_epochs) w0 = (Ok st, wE)
    ∧ history out = ls_history st
    ∧ if return_best then w' = wE ∧ solution out = ls_solution_min st
      else ∃ sol, Solution_init (c_single_net cfg) nets conditions wE = (Ok sol, w')
                  ∧ solution out = Some sol.
Proof.
  unfold solve_system. intros H.
  apply bind_Ok_inv in H as (cfg & w0 & Hcfg & H).
  apply bind_Ok_inv in H as (st & wE & Hrun & H).
  exists cfg, w0, st, wE. split; [done|]. split; [done|].
  unfold finish in H. apply bind_Ok_inv in H as (sol & wa & Hsol & H).
  assert (history out = ls_history st ∧ solution out = sol ∧ w' = wa)
    as (Hh & Hs & ->).
  { destruct return_internal; injection H as <- <-; done. }
  split; [done|]. destruct return_best.
  - injection Hsol as <- <-. done.
  - apply bind_Ok_inv in Hsol as (sol' & wb & Hinit & Hsol).
    injection Hsol as <- <-. eauto.
Qed.

(** C1. A run of [solve_system] that returns has, under ["train_loss"] and
    under ["valid_loss"], exactly one entry per epoch, and the entry of
    epoch [i] is the loss the training (validation) pass of that epoch
    computed on the whole set drawn from the generator, with the
    parameters the pass ended with. *)
Theorem solve_system_history
    (ode_system : OdeSystem) conditions t_min t_max single_net nets
    train_generator shuffle valid_generator optimizer
    (criterion : option Criterion) (additional_loss_term : option LossTerm)
    (metrics : option Metrics) batch_size max_epochs monitor return_internal
    return_best w out w' :
  solve_system ode_system conditions t_min t_max single_net nets train_generator
    shuffle valid_generator optimizer criterion additional_loss_term metrics
    batch_size max_epochs monitor return_internal return_best w = (Ok out, w') →
  ∃ cfg w0 tls vls,
    configure conditions t_min t_max single_net nets train_generator
      valid_generator optimizer criterion metrics w = (Ok cfg, w0)
    ∧ history out !! "train_loss" = Some tls
    ∧ history out !! "valid_loss" = Some vls
    ∧ length tls = Z.to_nat max_epochs
    ∧ length vls = Z.to_nat max_epochs
    ∧ ∀ i, i < Z.to_nat max_epochs →
        ∃ st_i w_i ex wa tl tm w1 vex v vm w2,
          run_epochs ode_system conditions nets shuffle additional_loss_term
            batch_size monitor return_best cfg i w0 = (Ok st_i, w_i)
          ∧ gen_get_examples (c_train_generator cfg) w_i = (Ok ex, wa)
          ∧ train batch_size (c_metrics cfg) (c_train_generator cfg)
              (c_single_net cfg) nets ode_system conditions (c_criterion cfg)
              additional_loss_term shuffle (c_optimizer cfg) w_i
            = (Ok (tl, tm), w1)
          ∧ calculate_loss (heap w1) (reshape_col ex) (c_single_net cfg) nets
              ode_system conditions (c_criterion cfg) additional_loss_term
            = Ok tl
          ∧ gen_get_examples (c_valid_generator cfg) w1 = (Ok vex, w2)
          ∧ valid (c_metrics cfg) (c_valid_generator cfg) (c_single_net cfg)
              nets ode_system conditions (c_criterion cfg)
              additional_loss_term w1
            = (Ok (v, vm), w2)
          ∧ calculate_loss (heap w2) (reshape_col vex) (c_single_net cfg) nets
              ode_system conditions (c_criterion cfg) additional_loss_term
            = Ok v
          ∧ tls !! i = Some tl
          ∧ vls !! i = Some v.
Proof.
  intros H. apply solve_system_inv in H as (cfg & w0 & st & wE & Hcfg & Hrun & Hh & _).
  apply run_epochs_trace in Hrun
    as (tls & vls & Htls & Hvls & Hlt & Hlv & _ & Hep).
  exists cfg, w0, tls, vls. rewrite Hh.
  split; [done|]. split; [done|]. split; [done|]. split; [done|]. split; [done|].
  intros i Hi.
  destruct (Hep i Hi)
    as (st_i & w_i & st_i' & w_i' & tl & tm & w1 & v & vm & w2 & wp
        & H1 & _ & H3 & H4 & _ & H6 & H7 & _).
  destruct (train_full_loss _ _ _ _ _ _ _ _ _ _ _ _ _ _ _ H3) as (ex & wa & Hex & Hl).
  destruct (valid_full_loss _ _ _ _ _ _ _ _ _ _ _ _ H4) as (vex & Hvex & Hvl).
  exists st_i, w_i, ex, wa, tl, tm, w1, vex, v, vm, w2. repeat split; done.
Qed.

(** C4. With [return_best] the checkpoint starts as ([inf], [None]); in
    each epoch it is replaced, by the epoch's loss and a [Solution] newly
    built from the networks as they are after the epoch's passes, exactly
    when that epoch's validation loss is strictly below the minimum of
    the earlier ones, and is left alone otherwise; the result is the
    checkpoint after the last epoch and nothing is built at the end.
    Without [return_best] the result is a [Solution] built after the last
    epoch. *)
Theorem solve_system_best_checkpoint
    (ode_system : OdeSystem) conditions t_min t_max single_net nets
    train_generator shuffle valid_generator optimizer
    (criterion : option Criterion) (additional_loss_term : option LossTerm)
    (metrics : option Metrics) batch_size max_epochs monitor return_internal
    return_best w out w' :
  solve_system ode_system conditions t_min t_max single_net nets train_generator
    shuffle valid_generator optimizer criterion additional_loss_term metrics
    batch_size max_epochs monitor return_internal return_best w = (Ok out, w') →
  ∃ cfg w0 st wE vls,
    configure conditions t_min t_max single_net nets train_generator
      valid_generator optimizer criterion metrics w = (Ok cfg, w0)
    ∧ run_epochs ode_system conditions nets shuffle additional_loss_term
        batch_size monitor return_best cfg (Z.to_nat max_epochs) w0 = (Ok st, wE)
    ∧ history out !! "valid_loss" = Some vls
    ∧ (return_best = false →
       ∃ sol, Solution_init (c_single_net cfg) nets conditions wE = (Ok sol, w')
              ∧ solution out = Some sol)
    ∧ (return_best = true →
       w' = wE
       ∧ solution out = ls_solution_min st
       ∧ ls_valid_loss_epoch_min (loop_init (c_metrics cfg)) = s_inf
       ∧ ls_solution_min (loop_init (c_metrics cfg)) = None
       ∧ ls_valid_loss_epoch_min st = running_min vls
       ∧ ∀ i, i < Z.to_nat max_epochs →
           ∃ st_i w_i st_i' w_i' v wp,
             run_epochs ode_system conditions nets shuffle additional_loss_term
               batch_size monitor return_best cfg i w0 = (Ok st_i, w_i)
             ∧ run_epochs ode_system conditions nets shuffle
                 additional_loss_term batch_size monitor return_best cfg (S i) w0
               = (Ok st_i', w_i')
             ∧ epoch_passes batch_size (c_metrics cfg) (c_train_generator cfg)
                 (c_valid_generator cfg) (c_single_net cfg) nets ode_system
                 conditions (c_criterion cfg) additional_loss_term shuffle
                 (c_optimizer cfg) monitor (ls_history st_i) i w_i
               = (Ok (ls_history st_i', v), wp)
             ∧ vls !! i = Some v
             ∧ ls_valid_loss_epoch_min st_i = running_min (take i vls)
             ∧ if improves vls i
               then ls_valid_loss_epoch_min st_i' = v
                    ∧ ∃ sol, Solution_init (c_single_net cfg) nets conditions wp
                             = (Ok sol, w_i')
                             ∧ ls_solution_min st_i' = Some sol
               else ls_valid_loss_epoch_min st_i' = ls_valid_loss_epoch_min st_i
                    ∧ w_i' = wp
                    ∧ ls_solution_min st_i' = ls_solution_min st_i).
Proof.
  intros H.
  apply solve_system_inv in H as (cfg & w0 & st & wE & Hcfg & Hrun & Hh & Hsol).
  pose proof Hrun as Hrun'.
  apply run_epochs_trace in Hrun'
    as (tls & vls & Htls & Hvls & Hlt & Hlv & Hmin & Hep).
  exists cfg, w0, st, wE, vls. rewrite Hh.
  split; [done|]. split; [done|]. split; [done|]. split.
  { intros ->. done. }
  intros ->. destruct Hsol as [-> Hsol].
  split; [done|]. split; [done|]. split; [done|]. split; [done|].
  split; [by apply Hmin|].
  intros i Hi.
  destruct (Hep i Hi)
    as (st_i & w_i & st_i' & w_i' & tl & tm & w1 & v & vm & w2 & wp
        & H1 & H2 & _ & _ & H5 & _ & H7 & H8 & H9).
  exists st_i, w_i, st_i', w_i', v, wp.
  split; [done|]. split; [done|]. split; [done|]. split; [done|].
  specialize (H8 eq_refl). split; [done|].
  unfold improves. rewrite H7, <- H8. simpl in H9.
  rewrite run_epochs_S in H2. rewrite (bind_Ok _ _ _ _ _ H1) in H2.
  apply epoch_body_inv in H2 as (v' & wp' & Hp & Hif).
  rewrite H5 in Hp. injection Hp as <- <-. simpl in Hif.
  destruct (s_lt v (ls_valid_loss_epoch_min st_i)); done.
Qed.

(** ** Further properties of the program *)

(** *** The trial solution *)

(** X1. [_trial_solution] returns one value per condition when a shared
    network is used; with a list of networks it pairs conditions and
    networks with [zip], so it returns as many values as the shorter of
    the two lists has entries and says nothing about the rest. *)
Theorem trial_solution_length (h : Heap) single_net nets (ts : T) conditions us :
  _trial_solution h single_net nets ts conditions = Ok us →
  ∃ cons,
    get_list h conditions = Ok cons
    ∧ if truthy h single_net then length us = length cons
      else ∃ nl ns, nets = Some nl ∧ get_list h nl = Ok ns
                    ∧ length us = length cons `min` length ns.
Proof.
  unfold _trial_solution. intros H.
  destruct (truthy h single_net).
  - destruct single_net as [net|]; [|discriminate].
    apply rbind_Ok_inv in H as (cons & Hcons & H).
    exists cons. split; [done|]. by apply rmap_length in H.
  - destruct nets as [nl|]; [|discriminate].
    apply rbind_Ok_inv in H as (cons & Hcons & H).
    apply rbind_Ok_inv in H as (ns & Hns & H).
    exists cons. split; [done|]. exists nl, ns. split; [done|]. split; [done|].
    apply rmap_length in H. by rewrite length_zip in H.
Qed.

(** *** [Solution.__call__] without a dependent variable *)

(** X2. When the trial solution is empty and there is at most one
    condition, [__call__] reaches [us[0]] on an empty list and raises
    [IndexError]; so does every solution of a system with no condition. *)
Theorem Solution_call_empty (h : Heap) (self : Solution) (ts : Points)
    (as_type : string) cons :
  as_type = "tf" ∨ as_type = "np" →
  _trial_solution h (self_single_net self) (self_nets self)
    (reshape_col (torch_tensor ts)) (self_conditions self) = Ok [] →
  get_list h (self_conditions self) = Ok cons →
  length cons ≤ 1 →
  Solution_call h self ts as_type = Raise IndexError.
Proof.
  intros Hty Hus Hcons Hlen. unfold Solution_call.
  assert (negb (bool_decide (as_type = "tf") || bool_decide (as_type = "np"))
          = false) as ->.
  { destruct Hty as [->| ->]; reflexivity. }
  rewrite Hus. simpl. rewrite Hcons. simpl.
  destruct (decide (1 < length cons)); [lia|].
  by destruct (bool_decide (as_type = "np")).
Qed.

(** *** Runs without an epoch, runs that fail *)

(** X3. A [max_epochs] of zero or less is not refused: [range] is empty,
    so [solve_system] configures, runs no epoch and returns at once, with
    every series of the history empty and, without [return_best], a
    [Solution] of the networks as the configuration left them. *)
Theorem solve_system_no_epoch
    (ode_system : OdeSystem) conditions t_min t_max single_net nets
    train_generator shuffle valid_generator optimizer
    (criterion : option Criterion) (additional_loss_term : option LossTerm)
    (metrics : option Metrics) batch_size max_epochs monitor return_internal
    return_best w :
  (max_epochs ≤ 0)%Z →
  solve_system ode_system conditions t_min t_max single_net nets train_generator
    shuffle valid_generator optimizer criterion additional_loss_term metrics
    batch_size max_epochs monitor return_internal return_best w
  = match configure conditions t_min t_max single_net nets train_generator
            valid_generator optimizer criterion metrics w with
    | (Ok cfg, w0) =>
        finish conditions nets return_internal return_best cfg
          (mkLoop (history_init (c_metrics cfg)) s_inf None) w0
    | (Raise e, w0) => (Raise e, w0)
    end.
Proof.
  intros Hm. unfold solve_system.
  assert (Z.to_nat max_epochs = 0) as -> by lia.
  unfold bind at 1.
  by destruct (configure _ _ _ _ _ _ _ _ _ _ w) as [[cfg|e] w0].
Qed.

Lemma run_epochs_add (ode_system : OdeSystem) conditions nets shuffle
    (additional_loss_term : option LossTerm) batch_size monitor return_best cfg
    k m w :
  run_epochs ode_system conditions nets shuffle additional_loss_term batch_size
    monitor return_best cfg (k + m) w
  = bind (run_epochs ode_system conditions nets shuffle additional_loss_term
            batch_size monitor return_best cfg k)
      (foldM (epoch_body batch_size (c_metrics cfg) (c_train_generator cfg)
                (c_valid_generator cfg) (c_single_net cfg) nets ode_system
                conditions (c_criterion cfg) additional_loss_term shuffle
                (c_optimizer cfg) monitor return_best) (seq k m)) w.
Proof. unfold run_epochs. rewrite seq_app. simpl. apply foldM_app. Qed.

(** X4. The first epoch that raises ends the run: when the configuration
    and [k] epochs went through and epoch [k] raises [e], every run asked
    for more than [k] epochs raises [e] in the world that epoch left, and
    builds no [Solution]. *)
Theorem solve_system_epoch_raises
    (ode_system : OdeSystem) conditions t_min t_max single_net nets
    train_generator shuffle valid_generator optimizer
    (criterion : option Criterion) (additional_loss_term : option LossTerm)
    (metrics : option Metrics) batch_size max_epochs monitor return_internal
    return_best w cfg w0 k st wk e w' :
  configure conditions t_min t_max single_net nets train_generator
    valid_generator optimizer criterion metrics w = (Ok cfg, w0) →
  run_epochs ode_system conditions nets shuffle additional_loss_term batch_size
    monitor return_best cfg k w0 = (Ok st, wk) →
  epoch_body batch_size (c_metrics cfg) (c_train_generator cfg)
    (c_valid_generator cfg) (c_single_net cfg) nets ode_system conditions
    (c_criterion cfg) additional_loss_term shuffle (c_optimizer cfg) monitor
    return_best st k wk = (Raise e, w') →
  (Z.of_nat k < max_epochs)%Z →
  solve_system ode_system conditions t_min t_max single_net nets train_generator
    shuffle valid_generator optimizer criterion additional_loss_term metrics
    batch_size max_epochs monitor return_internal return_best w
  = (Raise e, w').
Proof.
  intros Hcfg Hrun Hbody Hk. unfold solve_system.
  rewrite (bind_Ok _ _ _ _ _ Hcfg). apply bind_Raise.
  replace (Z.to_nat max_epochs) with (k + S (Z.to_nat max_epochs - S k)) by lia.
  rewrite run_epochs_add. rewrite (bind_Ok _ _ _ _ _ Hrun).
  simpl. by apply bind_Raise.
Qed.

(** *** What a deep copy holds *)

Lemma mirrors_extends (h h1 h2 : Heap) a b :
  mirrors h h1 a b → extends h1 h2 → mirrors h h2 a b.
Proof.
  intros (o & o' & Ha & Hb & Hm) Hext. exists o, o'. split; [done|].
  split; [|done]. rewrite Hext; [done|]. apply elem_of_dom. eauto.
Qed.

Lemma mirror_refl (o : Object) : mirror o o.
Proof. by destruct o. Qed.

Lemma deepcopy_leaf_mirror (h0 : Heap) memo x w y memo' w' :
  deepcopy_leaf memo x w = (Ok (y, memo'), w') →
  extends h0 (heap w) → x ∈ dom h0 →
  (∀ a b, memo !! a = Some b → mirrors h0 (heap w) a b) →
  mirrors h0 (heap w') x y
  ∧ (∀ a b, memo' !! a = Some b → mirrors h0 (heap w') a b)
  ∧ extends (heap w) (heap w').
Proof.
  unfold deepcopy_leaf. intros H Hext Hx Hmemo.
  destruct (memo !! x) as [y0|] eqn:Hmx.
  - injection H as <- <- <-. split; [eauto|]. split; [done|]. apply extends_refl.
  - cbv [bind get_heap] in H.
    assert (∀ o : Object,
              heap w !! x = Some o →
              (∃ p, o = ONet p) ∨ (∃ i c, o = OCond i c) →
              (Ok (fresh (dom (heap w)), <[x := fresh (dom (heap w))]> memo),
               mkWorld (<[fresh (dom (heap w)) := o]> (heap w)) (rng w))
              = (Ok (y, memo'), w') →
              mirrors h0 (heap w') x y
              ∧ (∀ a b, memo' !! a = Some b → mirrors h0 (heap w') a b)
              ∧ extends (heap w) (heap w')) as Hcase.
    { intros o Ho Hleaf Heq. injection Heq as <- <- <-. simpl.
      pose proof (is_fresh (dom (heap w))) as Hf.
      assert (extends (heap w) (<[fresh (dom (heap w)) := o]> (heap w))) as He.
      { by apply extends_insert_fresh. }
      assert (mirrors h0 (<[fresh (dom (heap w)) := o]> (heap w)) x
                (fresh (dom (heap w)))) as Hm.
      { exists o, o. rewrite <- (Hext x Hx), Ho. split; [done|].
        split; [apply lookup_insert_eq | apply mirror_refl]. }
      split; [done|]. split; [|done].
      intros a b. rewrite lookup_insert. case_decide as Hab.
      - intros [= <-]. by subst a.
      - intros Hb. eapply mirrors_extends; eauto. }
    destruct (heap w !! x) as [[p|i c|items|g|tg st|k ms]|] eqn:Hhx;
      try discriminate; (eapply Hcase; [reflexivity | eauto | exact H]).
Qed.

Lemma deepcopy_items_mirror (h0 : Heap) items :
  ∀ memo w ys w',
    deepcopy_items memo items w = (Ok ys, w') →
    extends h0 (heap w) →
    Forall (λ i, i ∈ dom h0) items →
    (∀ a b, memo !! a = Some b → mirrors h0 (heap w) a b) →
    Forall2 (mirrors h0 (heap w')) items ys ∧ extends (heap w) (heap w').
Proof.
  induction items as [|x items IH]; intros memo w ys w' H Hext Hall Hmemo;
    simpl in H.
  - injection H as <- <-. split; [constructor | apply extends_refl].
  - apply bind_Ok_inv in H as ([y memo1] & w1 & Hleaf & H).
    apply bind_Ok_inv in H as (ys' & w2 & Hitems & H).
    injection H as <- <-. inversion Hall as [|? ? Hx Hall']; subst.
    destruct (deepcopy_leaf_mirror h0 _ _ _ _ _ _ Hleaf Hext Hx Hmemo)
      as (Hm & Hmemo1 & He1).
    destruct (IH _ _ _ _ Hitems) as (HF & He2);
      [by eapply extends_trans | done | done |].
    split; [|by eapply extends_trans].
    constructor; [by eapply mirrors_extends | done].
Qed.

Lemma deepcopy_obj_copy l w y w' :
  deepcopy_obj l w = (Ok y, w') →
  allocated (heap w) l →
  copy_of (heap w) (heap w') l y.
Proof.
  unfold deepcopy_obj. intros H [Hl Hitems].
  apply bind_Ok_inv in H as (h & wa & Hh & H). injection Hh as <- <-.
  destruct (heap w !! l) as [o|] eqn:Hlo;
    [|apply not_elem_of_dom in Hlo; done].
  assert ((∀ items, o ≠ OList items) →
          bind (deepcopy_leaf ∅ l) (λ x, let (y, _) := x in ret y) w = (Ok y, w') →
          copy_of (heap w) (heap w') l y) as Hleaf.
  { intros Hnl Hc.
    apply bind_Ok_inv in Hc as ([y' memo'] & w1 & Hc & Hr). injection Hr as <- <-.
    apply (deepcopy_leaf_mirror (heap w)) in Hc as (Hm & _ & _);
      [|apply extends_refl | done | by intros a b; rewrite lookup_empty].
    split; [done|]. intros items Hi. rewrite Hlo in Hi. injection Hi as ->.
    by destruct (Hnl items). }
  destruct o as [p|i c|items|g|tg st|k ms]; try (by apply Hleaf).
  apply bind_Ok_inv in H as (y0 & w0 & Hy & H). apply alloc_spec in Hy as [Hy Hw0].
  apply bind_Ok_inv in H as (ys & w2 & Hcopy & H).
  apply bind_Ok_inv in H as ([] & w3 & Hput & H).
  injection H as <- <-. injection Hput as <-. simpl.
  assert (extends (heap w) (heap w0)) as He0.
  { rewrite Hw0. by apply extends_insert_fresh. }
  apply (deepcopy_items_mirror (heap w)) in Hcopy as (HF & He2);
    [|done|by apply Hitems|].
  2:{ intros a b. rewrite lookup_singleton. case_decide; [|done].
      intros [= <-]. subst a. exists (OList items), (OList []).
      split; [done|]. split; [|done]. rewrite Hw0. apply lookup_insert_eq. }
  assert (heap w2 !! y0 = Some (OList [])) as Hy2.
  { rewrite He2; [rewrite Hw0; apply lookup_insert_eq|].
    rewrite Hw0, dom_insert. set_solver. }
  assert (∀ a b, mirrors (heap w) (heap w2) a b →
                 mirrors (heap w) (<[y0 := OList ys]> (heap w2)) a b) as Hkeep.
  { intros a b (o & o' & Ha & Hb & Hm). exists o.
    destruct (decide (b = y0)) as [->|Hne].
    - exists (OList ys). split; [done|]. split; [apply lookup_insert_eq|].
      rewrite Hy2 in Hb. injection Hb as <-. by destruct o.
    - exists o'. split; [done|]. split; [by rewrite lookup_insert_ne | done]. }
  split.
  - exists (OList items), (OList ys). split; [done|].
    split; [apply lookup_insert_eq | done].
  - intros items' Hi. rewrite Hlo in Hi. injection Hi as <-. exists ys.
    split; [apply lookup_insert_eq|].
    eapply Forall2_impl; [exact HF|]. intros a b. apply Hkeep.
Qed.

Lemma copy_of_extends (h h1 h2 : Heap) x y :
  copy_of h h1 x y → extends h1 h2 → copy_of h h2 x y.
Proof.
  intros [Hm Hitems] Hext. split; [by eapply mirrors_extends|].
  intros items Hi. destruct (Hitems items Hi) as (ys & Hy & HF).
  exists ys. split.
  - rewrite Hext; [done|]. apply elem_of_dom. eauto.
  - eapply Forall2_impl; [exact HF|]. intros a b Hab.
    by eapply mirrors_extends.
Qed.

Lemma allocated_extends (h h' : Heap) x :
  allocated h x → extends h h' → allocated h' x.
Proof.
  intros [Hx Hitems] Hext. pose proof (extends_dom _ _ Hext) as Hd.
  split; [by apply Hd|]. intros items Hi. rewrite (Hext x Hx) in Hi.
  eapply Forall_impl; [by apply Hitems|]. intros i Hin. by apply Hd.
Qed.

(** A copy made in a later heap is a copy of the object as it was. *)
Lemma copy_of_source (h ha hb : Heap) x y :
  extends h ha → allocated h x → copy_of ha hb x y → copy_of h hb x y.
Proof.
  intros Hext [Hx Hal] [Hm Hitems].
  assert (∀ a b, a ∈ dom h → mirrors ha hb a b → mirrors h hb a b) as Hsrc.
  { intros a b Ha (o & o' & Hoa & Hob & Hmir). exists o, o'.
    by rewrite <- (Hext a Ha). }
  split; [by apply Hsrc|].
  intros items Hi. specialize (Hal items Hi). rewrite <- (Hext x Hx) in Hi.
  destruct (Hitems items Hi) as (ys & Hy & HF). exists ys. split; [done|].
  clear Hi Hy. induction HF as [|a b items ys Hab HF IH]; [constructor|].
  inversion Hal; subst. constructor; [by apply Hsrc | by apply IH].
Qed.

Lemma get_cond_mirror (h h' : Heap) x y :
  mirrors h h' x y → get_cond h' y = get_cond h x.
Proof.
  intros (o & o' & Hx & Hy & Hm). unfold get_cond. rewrite Hx, Hy.
  destruct o, o'; simpl in Hm; try done; by simplify_eq.
Qed.

Lemma get_net_mirror (h h' : Heap) x y :
  mirrors h h' x y → get_net h' y = get_net h x.
Proof.
  intros (o & o' & Hx & Hy & Hm). unfold get_net. rewrite Hx, Hy.
  destruct o, o'; simpl in Hm; try done; by simplify_eq.
Qed.

Lemma con_enforce_mirror (h h' : Heap) con con' net net' (ts : T) :
  mirrors h h' con con' → mirrors h h' net net' →
  con_enforce h' con' net' ts = con_enforce h con net ts.
Proof.
  intros Hc Hn. unfold con_enforce.
  by rewrite (get_cond_mirror _ _ _ _ Hc), (get_net_mirror _ _ _ _ Hn).
Qed.

Lemma truthy_copy (h h' : Heap) x y :
  opt_copy_of h h' x y → truthy h' y = truthy h x.
Proof.
  destruct x as [a|], y as [b|]; simpl; try done.
  intros [(o & o' & Ha & Hb & Hm) Hitems]. rewrite Ha, Hb.
  destruct o as [| |items| | |], o' as [| |ys| | |]; simpl in Hm; try done;
    try (by simplify_eq).
  destruct (Hitems items Ha) as (ys' & Hb' & HF).
  rewrite Hb in Hb'. injection Hb' as <-.
  by destruct HF.
Qed.

Lemma get_list_copy (h h' : Heap) x y :
  copy_of h h' x y →
  match get_list h x with
  | Ok items => ∃ ys, get_list h' y = Ok ys ∧ Forall2 (mirrors h h') items ys
  | Raise e => get_list h' y = Raise e
  end.
Proof.
  intros [(o & o' & Ha & Hb & Hm) Hitems]. unfold get_list. rewrite Ha.
  destruct o as [| |items| | |];
    try (rewrite Hb; destruct o'; simpl in Hm; done).
  destruct (Hitems items Ha) as (ys & Hy & HF). rewrite Hy. eauto.
Qed.

Lemma rmap_Forall2 {A A' B} (R : A → A' → Prop) (f : A → Result B)
    (f' : A' → Result B) l l' :
  Forall2 R l l' → (∀ a a', R a a' → f' a' = f a) → rmap f' l' = rmap f l.
Proof.
  intros HF Hf. induction HF as [|a a' l l' Ha HF IH]; simpl; [done|].
  by rewrite (Hf _ _ Ha), IH.
Qed.

Lemma Forall2_zip {A A' B B'} (R : A → A' → Prop) (Q : B → B' → Prop)
    (l : list A) (l' : list A') (k : list B) (k' : list B') :
  Forall2 R l l' → Forall2 Q k k' →
  Forall2 (λ p p', R p.1 p'.1 ∧ Q p.2 p'.2) (zip l k) (zip l' k').
Proof.
  intros HF. revert k k'. induction HF as [|a a' l l' Ha HF IH]; intros k k' HQ;
    [constructor|].
  destruct HQ as [|b b' k k' Hb HQ]; simpl; constructor; auto.
Qed.

(** The trial solution over copies is the trial solution over the
    originals. *)
Lemma trial_solution_copy (h h' : Heap) sn sn' nets nets' conds conds' (ts : T) :
  opt_copy_of h h' sn sn' → opt_copy_of h h' nets nets' →
  copy_of h h' conds conds' →
  _trial_solution h' sn' nets' ts conds' = _trial_solution h sn nets ts conds.
Proof.
  intros Hsn Hns Hcs. unfold _trial_solution.
  rewrite (truthy_copy _ _ _ _ Hsn).
  pose proof (get_list_copy _ _ _ _ Hcs) as Hgl.
  destruct (truthy h sn).
  - destruct sn as [net|], sn' as [net'|]; try done. simpl in Hsn.
    destruct (get_list h conds) as [cons|e].
    + destruct Hgl as (cons' & -> & HF). simpl.
      eapply rmap_Forall2; [exact HF|]. intros a a' Ha.
      apply con_enforce_mirror; [done | by destruct Hsn].
    + by rewrite Hgl.
  - destruct nets as [nl|], nets' as [nl'|]; try done. simpl in Hns.
    pose proof (get_list_copy _ _ _ _ Hns) as Hgn.
    destruct (get_list h conds) as [cons|e].
    + destruct Hgl as (cons' & -> & HF). simpl.
      destruct (get_list h nl) as [ns|e].
      * destruct Hgn as (ns' & -> & HF'). simpl.
        eapply rmap_Forall2; [exact (Forall2_zip _ _ _ _ _ _ HF HF')|].
        intros [a b] [a' b'] [Ha Hb]. by apply con_enforce_mirror.
      * by rewrite Hgn.
    + by rewrite Hgl.
Qed.

Lemma Solution_call_copy (h h' : Heap) (sol sol' : Solution) ts as_type :
  opt_copy_of h h' (self_single_net sol) (self_single_net sol') →
  opt_copy_of h h' (self_nets sol) (self_nets sol') →
  copy_of h h' (self_conditions sol) (self_conditions sol') →
  Solution_call h' sol' ts as_type = Solution_call h sol ts as_type.
Proof.
  intros Hsn Hns Hcs. unfold Solution_call.
  rewrite (trial_solution_copy h h' _ _ _ _ _ _ _ Hsn Hns Hcs).
  pose proof (get_list_copy _ _ _ _ Hcs) as Hgl.
  destruct (negb _); [done|].
  destruct (_trial_solution h _ _ _ _) as [us|]; [simpl|done].
  destruct (rmap _ us) as [vs|]; [simpl|done].
  destruct (get_list h (self_conditions sol)) as [cons|e].
  - destruct Hgl as (cons' & -> & HF). simpl.
    by rewrite (Forall2_length _ _ _ HF).
  - by rewrite Hgl.
Qed.

Lemma deepcopy_copy x w y w' :
  deepcopy x w = (Ok y, w') →
  (∀ l, x = Some l → allocated (heap w) l) →
  opt_copy_of (heap w) (heap w') x y.
Proof.
  destruct x as [l|]; simpl; intros H Hal.
  - apply bind_Ok_inv in H as (y' & w1 & Hc & H). injection H as <- <-.
    simpl. apply deepcopy_obj_copy; auto.
  - by injection H as <- <-.
Qed.

Lemma opt_copy_of_extends (h h1 h2 : Heap) x y :
  opt_copy_of h h1 x y → extends h1 h2 → opt_copy_of h h2 x y.
Proof.
  destruct x, y; simpl; try done. apply copy_of_extends.
Qed.

Lemma opt_copy_of_source (h ha hb : Heap) x y :
  extends h ha → (∀ l, x = Some l → allocated h l) →
  opt_copy_of ha hb x y → opt_copy_of h hb x y.
Proof.
  destruct x as [a|], y; simpl; try done. intros He Hal.
  apply copy_of_source; auto.
Qed.

Lemma Solution_init_copies single_net nets conditions w sol w1 :
  (∀ l, single_net = Some l ∨ nets = Some l ∨ l = conditions →
        allocated (heap w) l) →
  Solution_init single_net nets conditions w = (Ok sol, w1) →
  opt_copy_of (heap w) (heap w1) single_net (self_single_net sol)
  ∧ opt_copy_of (heap w) (heap w1) nets (self_nets sol)
  ∧ copy_of (heap w) (heap w1) conditions (self_conditions sol).
Proof.
  intros Hal H. unfold Solution_init in H.
  apply bind_Ok_inv in H as (sn & wa & H0 & H).
  apply bind_Ok_inv in H as (ns & wb & H1 & H).
  apply bind_Ok_inv in H as (cs & wc & H2 & H).
  injection H as <- <-. simpl.
  pose proof (proj1 (deepcopy_spec _ _ _ _ H0)) as He1.
  pose proof (proj1 (deepcopy_spec _ _ _ _ H1)) as He2.
  pose proof (proj1 (deepcopy_obj_spec _ _ _ _ H2)) as He3.
  apply deepcopy_copy in H0; [|by auto].
  apply deepcopy_copy in H1;
    [|intros l Hl; eapply allocated_extends; [apply Hal; auto | done]].
  apply deepcopy_obj_copy in H2;
    [|eapply allocated_extends; [apply Hal; auto | by eapply extends_trans]].
  split; [|split].
  - eapply opt_copy_of_extends; [exact H0 | by eapply extends_trans].
  - eapply opt_copy_of_extends; [|exact He3].
    eapply opt_copy_of_source; [exact He1 | by auto | exact H1].
  - eapply copy_of_source; [|by auto | exact H2]. by eapply extends_trans.
Qed.

(** X5. A new [Solution] gives, in the heap its construction leaves,
    exactly what the networks and conditions it was built from give in the
    heap before: the copies compute what the originals computed then. *)
Theorem Solution_init_faithful single_net nets conditions w sol w1 :
  (∀ l, single_net = Some l ∨ nets = Some l ∨ l = conditions →
        allocated (heap w) l) →
  Solution_init single_net nets conditions w = (Ok sol, w1) →
  ∀ ts as_type,
    Solution_call (heap w1) sol ts as_type
    = Solution_call (heap w) (live single_net nets conditions) ts as_type.
Proof.
  intros Hal H ts as_type.
  destruct (Solution_init_copies _ _ _ _ _ _ Hal H) as (Hsn & Hns & Hcs).
  by apply Solution_call_copy.
Qed.

(** *** What an epoch writes *)

Lemma advances_refl D (h : Heap) : advances D h h.
Proof. by repeat split. Qed.

Lemma advances_trans D (h1 h2 h3 : Heap) :
  advances D h1 h2 → advances D h2 h3 → advances D h1 h3.
Proof.
  intros (Hd1 & Hk1 & Hl1) (Hd2 & Hk2 & Hl2). split; [set_solver|]. split.
  - intros l Hl HD. rewrite Hk2; [by apply Hk1 | set_solver | done].
  - intros l items Hl H3. apply Hl1; [done|]. apply Hl2; [set_solver | done].
Qed.

Lemma extends_advances D (h h' : Heap) : extends h h' → advances D h h'.
Proof.
  intros He. split; [by apply extends_dom|]. split.
  - intros l Hl _. by apply He.
  - intros l items Hl H. by rewrite <- (He l Hl).
Qed.

Lemma advances_insert D (h : Heap) l (o : Object) :
  l ∈ D → (∀ items, o ≠ OList items) → advances D h (<[l := o]> h).
Proof.
  intros HD Ho. split; [rewrite dom_insert; set_solver|]. split.
  - intros l' _ Hl'. apply lookup_insert_ne. by intros ->.
  - intros l' items _ H. destruct (decide (l = l')) as [->|Hne].
    + rewrite lookup_insert_eq in H. injection H as ->. by destruct (Ho items).
    + by rewrite lookup_insert_ne in H.
Qed.

Lemma advances_write_params D (h : Heap) targets ps :
  list_to_set targets ⊆ D → advances D h (write_params h targets ps).
Proof.
  revert ps. induction targets as [|t ts IH]; intros ps HD; [apply advances_refl|].
  destruct ps as [|p ps]; [apply advances_refl|]. unfold write_params. simpl.
  eapply advances_trans; [apply (IH ps); set_solver|].
  apply advances_insert; [set_solver | done].
Qed.

Lemma allocated_advances D (h h' : Heap) x :
  advances D h h' → allocated h x → allocated h' x.
Proof.
  intros (Hd & _ & Hl) [Hx Hi]. split; [set_solver|].
  intros items H. apply Hl in H; [|done].
  eapply Forall_impl; [by apply Hi|]. simpl. set_solver.
Qed.

Lemma trained_insert (h : Heap) optimizer l (obj : Object) :
  (∀ ts st, obj ≠ OOpt ts st) →
  trained (<[l := obj]> h) optimizer ⊆ trained h optimizer.
Proof.
  intros Ho. destruct optimizer as [o|]; [|done]. simpl.
  destruct (decide (l = o)) as [->|Hne].
  - rewrite lookup_insert_eq. destruct obj; try set_solver.
  - by rewrite lookup_insert_ne.
Qed.

Lemma trained_write_params (h : Heap) optimizer targets ps :
  trained (write_params h targets ps) optimizer ⊆ trained h optimizer.
Proof.
  revert ps. induction targets as [|t ts IH]; intros ps; [done|].
  destruct ps as [|p ps]; [done|]. unfold write_params. simpl.
  etrans; [apply trained_insert; done | apply IH].
Qed.

Lemma within_same D optimizer {A} (m : M World A) :
  (∀ w, heap (m w).2 = heap w) → within D optimizer m.
Proof. intros H w Ht. rewrite H. split; [apply advances_refl | done]. Qed.

Lemma within_ret D optimizer {A} (a : A) : within D optimizer (ret a).
Proof. by apply within_same. Qed.

Lemma within_raise D optimizer {A} e : within D optimizer (@raise World A e).
Proof. by apply within_same. Qed.

Lemma within_lift D optimizer {A} (r : Result A) : within D optimizer (lift r).
Proof. by apply within_same. Qed.

Lemma within_bind D optimizer {A B} (m : M World A) (f : A → M World B) :
  within D optimizer m → (∀ a, within D optimizer (f a)) →
  within D optimizer (bind m f).
Proof.
  intros Hm Hf w Ht. destruct (Hm w Ht) as [Ha Ht1]. unfold bind.
  destruct (m w) as [[a|e] w1]; simpl in *; [|done].
  destruct (Hf a w1 Ht1) as [Ha2 Ht2]. split; [by eapply advances_trans | done].
Qed.

Lemma within_get_heap D optimizer {A} (f : Heap → M World A) :
  (∀ w, trained (heap w) optimizer ⊆ D →
        advances D (heap w) (heap (f (heap w) w).2)
        ∧ trained (heap (f (heap w) w).2) optimizer ⊆ D) →
  within D optimizer (bind get_heap f).
Proof. intros H w Ht. unfold bind, get_heap. by apply H. Qed.

Lemma within_put_obj D optimizer l (obj : Object) :
  l ∈ D → (∀ items, obj ≠ OList items) → (∀ ts st, obj ≠ OOpt ts st) →
  within D optimizer (put_obj l obj).
Proof.
  intros Hl Hli Hop w Ht. simpl. split; [by apply advances_insert|].
  etrans; [by apply trained_insert | done].
Qed.

Lemma within_gen_get_examples D optimizer g :
  g ∈ D → within D optimizer (gen_get_examples g).
Proof.
  intros Hg w Ht. unfold gen_get_examples.
  destruct (get_gen (heap w) g) as [gen|e]; simpl;
    [|split; [apply advances_refl | done]].
  destruct (get_examples gen (rng w)) as [[t gen'] r']. simpl.
  split; [by apply advances_insert|].
  etrans; [by apply trained_insert | done].
Qed.

Lemma within_backward_and_step D optimizer (loss_of : Heap → Result Scalar) :
  within D optimizer (backward_and_step optimizer loss_of).
Proof.
  intros w Ht. destruct optimizer as [o|]; [|split; [apply advances_refl | done]].
  unfold backward_and_step, bind, get_heap, lift, put_heap. simpl.
  destruct (get_opt (heap w) o) as [[targets st]|e] eqn:Ho; simpl;
    [|split; [apply advances_refl | done]].
  destruct (rmap (get_net (heap w)) targets) as [ps|e]; simpl;
    [|split; [apply advances_refl | done]].
  destruct (opt_update st _ ps) as [[ps' st']|e]; simpl;
    [|split; [apply advances_refl | done]].
  assert (heap w !! o = Some (OOpt targets st)) as Hlo.
  { unfold get_opt in Ho. destruct (heap w !! o) as [[]|]; by simplify_eq. }
  simpl in Ht. rewrite Hlo in Ht.
  split.
  - eapply advances_trans;
      [apply (advances_write_params D (heap w) targets ps'); set_solver|].
    apply advances_insert; [set_solver | done].
  - rewrite lookup_insert_eq. done.
Qed.

Lemma within_train_batch D optimizer (ts : T) net nets (ode_system : OdeSystem)
    conditions (criterion : Criterion) (additional_loss_term : option LossTerm) :
  within D optimizer
    (train_batch ts net nets ode_system conditions criterion additional_loss_term
       optimizer).
Proof.
  unfold train_batch. apply within_bind; [by apply within_same|]. intros h.
  apply within_bind; [apply within_lift|]. intros _.
  apply within_backward_and_step.
Qed.

Lemma within_train_loop D optimizer fuel batch_size (ex : T) n idx net nets
    (ode_system : OdeSystem) conditions (criterion : Criterion)
    (additional_loss_term : option LossTerm) :
  ∀ batch_start batch_end,
    within D optimizer
      (train_loop fuel batch_size ex n idx batch_start batch_end net nets
         ode_system conditions criterion additional_loss_term optimizer).
Proof.
  induction fuel as [|fuel IH]; intros batch_start batch_end; simpl;
    destruct (batch_start <? Z.of_nat n)%Z;
    try apply within_ret; try apply within_raise.
  apply within_bind; [apply within_lift|]. intros ts.
  apply within_bind; [apply within_train_batch|]. intros _. apply IH.
Qed.

Lemma within_train D batch_size (metrics : Metrics) train_generator net nets
    (ode_system : OdeSystem) conditions (criterion : Criterion)
    (additional_loss_term : option LossTerm) shuffle optimizer :
  train_generator ∈ D →
  within D optimizer
    (train batch_size metrics train_generator net nets ode_system conditions
       criterion additional_loss_term shuffle optimizer).
Proof.
  intros Hg. unfold train.
  apply within_bind; [by apply within_gen_get_examples|]. intros ex.
  apply within_bind.
  { unfold gen_get_size. apply within_bind; [by apply within_same|]. intros h.
    apply within_bind; [apply within_lift|]. intros gen. apply within_ret. }
  intros n. apply within_bind.
  { destruct shuffle; [|apply within_ret]. apply within_same. intros w.
    unfold np_random_permutation. by destruct (permutation n (rng w)). }
  intros idx. apply within_bind; [apply within_train_loop|]. intros _.
  apply within_bind; [by apply within_same|]. intros h.
  apply within_bind; [apply within_lift|]. intros tl.
  apply within_bind; [apply within_lift|]. intros tm. apply within_ret.
Qed.

Lemma within_valid D optimizer (metrics : Metrics) valid_generator net nets
    (ode_system : OdeSystem) conditions (criterion : Criterion)
    (additional_loss_term : option LossTerm) :
  valid_generator ∈ D →
  within D optimizer
    (valid metrics valid_generator net nets ode_system conditions criterion
       additional_loss_term).
Proof.
  intros Hg. unfold valid.
  apply within_bind; [by apply within_gen_get_examples|]. intros ex.
  apply within_bind; [by apply within_same|]. intros h.
  apply within_bind; [apply within_lift|]. intros v.
  apply within_bind; [apply within_lift|]. intros vm. apply within_ret.
Qed.

Lemma within_monitor_check D optimizer monitor epoch single_net nets conditions
    (hist : History) :
  (∀ m, monitor = Some m → m ∈ D) →
  within D optimizer (monitor_check monitor epoch single_net nets conditions hist).
Proof.
  intros Hm. unfold monitor_check.
  apply within_bind; [by apply within_same|]. intros h.
  destruct (truthy h monitor); [|apply within_ret].
  destruct monitor as [m|]; [|apply within_ret].
  apply within_bind; [apply within_lift|]. intros [check_every ms].
  destruct (decide (check_every = 0%Z)); [apply within_raise|].
  destruct (decide _); [|apply within_ret].
  apply within_bind; [apply within_lift|]. intros ms'.
  apply within_put_obj; [by apply Hm | done | done].
Qed.

Lemma within_epoch_passes D batch_size (metrics : Metrics) train_generator
    valid_generator single_net nets (ode_system : OdeSystem) conditions
    (criterion : Criterion) (additional_loss_term : option LossTerm) shuffle
    optimizer monitor (hist : History) epoch :
  train_generator ∈ D → valid_generator ∈ D →
  (∀ m, monitor = Some m → m ∈ D) →
  within D optimizer
    (epoch_passes batch_size metrics train_generator valid_generator single_net
       nets ode_system conditions criterion additional_loss_term shuffle
       optimizer monitor hist epoch).
Proof.
  intros Htg Hvg Hm. unfold epoch_passes.
  apply within_bind; [by apply within_train|]. intros [tl tm].
  apply within_bind; [apply within_lift|]. intros h1.
  apply within_bind; [apply within_lift|]. intros h2.
  apply within_bind; [by apply within_valid|]. intros [v vm].
  apply within_bind; [apply within_lift|]. intros h3.
  apply within_bind; [apply within_lift|]. intros h4.
  apply within_bind; [by apply within_monitor_check|]. intros _.
  apply within_ret.
Qed.

Lemma written_spec (h : Heap) train_generator valid_generator optimizer monitor :
  train_generator ∈ written h train_generator valid_generator optimizer monitor
  ∧ valid_generator ∈ written h train_generator valid_generator optimizer monitor
  ∧ (∀ m, monitor = Some m →
          m ∈ written h train_generator valid_generator optimizer monitor)
  ∧ trained h optimizer
    ⊆ written h train_generator valid_generator optimizer monitor.
Proof.
  unfold written. repeat split; try set_solver.
Qed.

(** X6. Whatever its outcome, one epoch of training, validation and
    monitoring changes no object but the two generators, the monitor, the
    optimizer and the networks registered in the optimizer; and it
    destroys none: the conditions and every network the optimizer does
    not hold are as before. *)
Theorem epoch_passes_writes batch_size (metrics : Metrics) train_generator
    valid_generator single_net nets (ode_system : OdeSystem) conditions
    (criterion : Criterion) (additional_loss_term : option LossTerm) shuffle
    optimizer monitor (hist : History) epoch w l :
  l ∈ dom (heap w) →
  l ∉ written (heap w) train_generator valid_generator optimizer monitor →
  heap (epoch_passes batch_size metrics train_generator valid_generator
          single_net nets ode_system conditions criterion additional_loss_term
          shuffle optimizer monitor hist epoch w).2 !! l
  = heap w !! l.
Proof.
  intros Hl HD.
  destruct (written_spec (heap w) train_generator valid_generator optimizer
              monitor) as (Htg & Hvg & Hm & Ht).
  destruct (within_epoch_passes _ batch_size metrics train_generator
              valid_generator single_net nets ode_system conditions criterion
              additional_loss_term shuffle optimizer monitor hist epoch
              Htg Hvg Hm w Ht) as [(_ & Hk & _) _].
  by apply Hk.
Qed.

Lemma trained_extends (h h' : Heap) optimizer :
  extends h h' → trained h optimizer ⊆ dom h →
  trained h' optimizer = trained h optimizer.
Proof.
  intros He Hd. destruct optimizer as [o|]; [|done]. simpl in *.
  rewrite (He o); [done | set_solver].
Qed.

Lemma copy_of_same (h h' : Heap) x :
  allocated h x → extends h h' → copy_of h h' x x.
Proof.
  intros [Hx Hi] He.
  assert (∀ a, a ∈ dom h → mirrors h h' a a) as Hm.
  { intros a Ha. pose proof Ha as Ha'. apply elem_of_dom in Ha' as [o Ho].
    exists o, o. rewrite (He a Ha). split; [done|]. split; [done|].
    apply mirror_refl. }
  split; [by apply Hm|]. intros items Hl. exists items.
  rewrite (He x Hx). split; [done|].
  specialize (Hi items Hl). clear Hl.
  induction Hi as [|a l Ha _ IH]; constructor; [by apply Hm | exact IH].
Qed.

(** The objects in use evaluate the same in a heap that only grew. *)
Lemma Solution_call_extends (h h' : Heap) (sol : Solution) ts as_type :
  (∀ l, self_single_net sol = Some l ∨ self_nets sol = Some l
        ∨ l = self_conditions sol → allocated h l) →
  extends h h' →
  Solution_call h' sol ts as_type = Solution_call h sol ts as_type.
Proof.
  intros Hal He. apply Solution_call_copy.
  - destruct (self_single_net sol) as [l|]; [|done].
    apply copy_of_same; [apply Hal; auto | done].
  - destruct (self_nets sol) as [l|]; [|done].
    apply copy_of_same; [apply Hal; auto | done].
  - apply copy_of_same; [apply Hal; auto | done].
Qed.

Section written_by_epochs.
Context (ode_system : OdeSystem) (conditions : loc) (nets : option loc)
  (shuffle : bool) (additional_loss_term : option LossTerm) (batch_size : Z)
  (monitor : option loc) (return_best : bool) (cfg : Config) (D : gset loc).
Hypothesis Htg : c_train_generator cfg ∈ D.
Hypothesis Hvg : c_valid_generator cfg ∈ D.
Hypothesis Hmon : ∀ m, monitor = Some m → m ∈ D.

Local Abbreviation run n :=
  (run_epochs ode_system conditions nets shuffle additional_loss_term batch_size
     monitor return_best cfg n).
Local Abbreviation body :=
  (epoch_body batch_size (c_metrics cfg) (c_train_generator cfg)
     (c_valid_generator cfg) (c_single_net cfg) nets ode_system conditions
     (c_criterion cfg) additional_loss_term shuffle (c_optimizer cfg) monitor
     return_best).
Local Abbreviation passes :=
  (epoch_passes batch_size (c_metrics cfg) (c_train_generator cfg)
     (c_valid_generator cfg) (c_single_net cfg) nets ode_system conditions
     (c_criterion cfg) additional_loss_term shuffle (c_optimizer cfg) monitor).

Lemma epoch_passes_advances hist epoch w r wp :
  passes hist epoch w = (r, wp) →
  trained (heap w) (c_optimizer cfg) ⊆ D →
  advances D (heap w) (heap wp) ∧ trained (heap wp) (c_optimizer cfg) ⊆ D.
Proof.
  intros Hp Ht.
  pose proof (within_epoch_passes D batch_size (c_metrics cfg)
                (c_train_generator cfg) (c_valid_generator cfg)
                (c_single_net cfg) nets ode_system conditions (c_criterion cfg)
                additional_loss_term shuffle (c_optimizer cfg) monitor hist
                epoch Htg Hvg Hmon w Ht) as H.
  by rewrite Hp in H.
Qed.

Lemma epoch_body_advances st epoch w st' w' :
  body st epoch w = (Ok st', w') →
  (return_best = true → D ⊆ dom (heap w)) →
  trained (heap w) (c_optimizer cfg) ⊆ D →
  advances D (heap w) (heap w') ∧ trained (heap w') (c_optimizer cfg) ⊆ D.
Proof.
  intros Hb HDd Ht. apply epoch_body_inv in Hb as (v & wp & Hp & Hif).
  destruct (epoch_passes_advances _ _ _ _ _ Hp Ht) as [Ha Ht'].
  destruct return_best; simpl in Hif;
    [destruct (s_lt v (ls_valid_loss_epoch_min st))|].
  - destruct Hif as (_ & sol & Hs & _).
    apply Solution_init_owned in Hs as (He & _).
    split; [eapply advances_trans; [exact Ha | by apply extends_advances]|].
    rewrite (trained_extends _ _ _ He); [done|].
    etrans; [exact Ht'|]. etrans; [by apply HDd | apply Ha].
  - by destruct Hif as (_ & -> & _).
  - by destruct Hif as (_ & -> & _).
Qed.

Lemma foldM_body_advances epochs :
  ∀ st w st' w',
    foldM body epochs st w = (Ok st', w') →
    (return_best = true → D ⊆ dom (heap w)) →
    trained (heap w) (c_optimizer cfg) ⊆ D →
    advances D (heap w) (heap w') ∧ trained (heap w') (c_optimizer cfg) ⊆ D.
Proof.
  induction epochs as [|epoch epochs IH]; intros st w st' w' H HDd Ht; simpl in H.
  - injection H as <- <-. split; [apply advances_refl | done].
  - apply bind_Ok_inv in H as (st1 & w1 & Hb & H).
    destruct (epoch_body_advances _ _ _ _ _ Hb HDd Ht) as [Ha Ht1].
    destruct (IH _ _ _ _ H) as [Ha2 Ht2]; [|done|].
    + intros Hrb. etrans; [by apply HDd | apply Ha].
    + split; [by eapply advances_trans | done].
Qed.

Lemma run_epochs_advances n w st wn :
  run n w = (Ok st, wn) →
  (return_best = true → D ⊆ dom (heap w)) →
  trained (heap w) (c_optimizer cfg) ⊆ D →
  advances D (heap w) (heap wn) ∧ trained (heap wn) (c_optimizer cfg) ⊆ D.
Proof. apply foldM_body_advances. Qed.

End written_by_epochs.

(** *** The solution that is returned *)

(** X7. Without [return_best] the returned [Solution] is a copy of the
    trained networks: when [solve_system] returns, it evaluates on every
    input exactly as the networks and conditions in use do at that
    moment. *)
Theorem solve_system_returns_trained
    (ode_system : OdeSystem) conditions t_min t_max single_net nets
    train_generator shuffle valid_generator optimizer
    (criterion : option Criterion) (additional_loss_term : option LossTerm)
    (metrics : option Metrics) batch_size max_epochs monitor return_internal
    w cfg w0 out w' :
  configure conditions t_min t_max single_net nets train_generator
    valid_generator optimizer criterion metrics w = (Ok cfg, w0) →
  (∀ l, c_single_net cfg = Some l ∨ nets = Some l ∨ l = conditions →
        allocated (heap w0) l) →
  solve_system ode_system conditions t_min t_max single_net nets train_generator
    shuffle valid_generator optimizer criterion additional_loss_term metrics
    batch_size max_epochs monitor return_internal false w = (Ok out, w') →
  ∃ sol,
    solution out = Some sol
    ∧ ∀ ts as_type,
        Solution_call (heap w') sol ts as_type
        = Solution_call (heap w') (live (c_single_net cfg) nets conditions)
            ts as_type.
Proof.
  intros Hcfg Hal H.
  apply solve_system_inv in H as (cfg' & w0' & st & wE & Hcfg' & Hrun & _ & H).
  rewrite Hcfg in Hcfg'. injection Hcfg' as <- <-.
  destruct H as (sol & Hinit & Hsol). exists sol. split; [done|].
  intros ts as_type.
  set (D := written (heap w0) (c_train_generator cfg) (c_valid_generator cfg)
              (c_optimizer cfg) monitor).
  destruct (written_spec (heap w0) (c_train_generator cfg)
              (c_valid_generator cfg) (c_optimizer cfg) monitor)
    as (Htg & Hvg & Hm & Ht).
  destruct (run_epochs_advances _ _ _ _ _ _ _ _ _ D Htg Hvg Hm _ _ _ _ Hrun)
    as [Ha _]; [done | done |].
  assert (∀ l, c_single_net cfg = Some l ∨ nets = Some l ∨ l = conditions →
               allocated (heap wE) l) as HalE.
  { intros l Hl. eapply allocated_advances; [exact Ha | by apply Hal]. }
  destruct (Solution_init_copies _ _ _ _ _ _ HalE Hinit) as (Hsn & Hns & Hcs).
  apply Solution_init_owned in Hinit as (He & _).
  rewrite (Solution_call_extends (heap wE) (heap w')
             (live (c_single_net cfg) nets conditions)); [|exact HalE | exact He].
  by apply Solution_call_copy.
Qed.

(** A copy stays a copy while only objects older than it are written. *)
Lemma copy_of_kept D (h h1 h2 : Heap) x y :
  copy_of h h1 x y → owned h h1 y → D ⊆ dom h → advances D h1 h2 →
  copy_of h h2 x y.
Proof.
  intros [Hm Hitems] [Hy Hown] HD (_ & Hk & _).
  assert (∀ a b, b ∉ dom h → mirrors h h1 a b → mirrors h h2 a b) as Hkeep.
  { intros a b Hb (o & o' & Ha & Hb1 & Hmir). exists o, o'.
    split; [done|]. split; [|done]. rewrite Hk; [done | | set_solver].
    apply elem_of_dom. eauto. }
  split; [by apply Hkeep|].
  intros items Hi. destruct (Hitems items Hi) as (ys & Hys & HF).
  exists ys. split.
  - rewrite Hk; [done | | set_solver]. apply elem_of_dom. eauto.
  - rewrite Hys in Hown. clear Hys Hi.
    induction HF as [|a b items ys Hab _ IH]; constructor.
    + apply Hkeep; [|done]. by inversion Hown.
    + apply IH. by inversion Hown.
Qed.

Lemma opt_copy_of_kept D (h h1 h2 : Heap) x y :
  opt_copy_of h h1 x y → (∀ l, y = Some l → owned h h1 l) → D ⊆ dom h →
  advances D h1 h2 → opt_copy_of h h2 x y.
Proof.
  destruct x as [a|], y as [b|]; simpl; try done. intros Hc Ho HD Ha.
  eapply copy_of_kept; [exact Hc | by apply Ho | exact HD | exact Ha].
Qed.

Section best_solution.
Context (ode_system : OdeSystem) (conditions : loc) (nets : option loc)
  (shuffle : bool) (additional_loss_term : option LossTerm) (batch_size : Z)
  (monitor : option loc) (cfg : Config) (D : gset loc) (w0 : World).
Hypothesis Htg : c_train_generator cfg ∈ D.
Hypothesis Hvg : c_valid_generator cfg ∈ D.
Hypothesis Hmon : ∀ m, monitor = Some m → m ∈ D.
Hypothesis HD0 : D ⊆ dom (heap w0).
Hypothesis Ht0 : trained (heap w0) (c_optimizer cfg) ⊆ D.

Local Abbreviation run n :=
  (run_epochs ode_system conditions nets shuffle additional_loss_term batch_size
     monitor true cfg n).
Local Abbreviation passes :=
  (epoch_passes batch_size (c_metrics cfg) (c_train_generator cfg)
     (c_valid_generator cfg) (c_single_net cfg) nets ode_system conditions
     (c_criterion cfg) additional_loss_term shuffle (c_optimizer cfg) monitor).
Local Abbreviation snapshot := (Solution_init (c_single_net cfg) nets conditions).

(** The best solution kept after [n] epochs was built right after the
    passes of an epoch [k] whose validation loss is the best so far, and
    nothing written since has touched it. *)
Lemma run_epochs_best n :
  ∀ st wn sol,
    run n w0 = (Ok st, wn) → ls_solution_min st = Some sol →
    ∃ k st_k w_k hist wp wk',
      k < n
      ∧ run k w0 = (Ok st_k, w_k)
      ∧ passes (ls_history st_k) k w_k
        = (Ok (hist, ls_valid_loss_epoch_min st), wp)
      ∧ snapshot wp = (Ok sol, wk')
      ∧ advances D (heap w0) (heap wp)
      ∧ advances D (heap wk') (heap wn).
Proof.
  induction n as [|n IH]; intros st wn sol Hrun Hsol.
  - unfold run_epochs in Hrun. simpl in Hrun. injection Hrun as <- <-.
    discriminate.
  - rewrite run_epochs_S in Hrun.
    apply bind_Ok_inv in Hrun as (st_n & w_n & Hrun & Hbody).
    destruct (run_epochs_advances _ _ _ _ _ _ _ _ _ D Htg Hvg Hmon _ _ _ _ Hrun)
      as [Ha_n Ht_n]; [done | done |].
    apply epoch_body_inv in Hbody as (v & wp & Hp & Hif).
    destruct (epoch_passes_advances _ _ _ _ _ _ _ _ D Htg Hvg Hmon _ _ _ _ _
                Hp Ht_n) as [Ha_p Ht_p].
    simpl in Hif. destruct (s_lt v (ls_valid_loss_epoch_min st_n)).
    + destruct Hif as (Hmin & sol' & Hsnap & Hsol').
      rewrite Hsol in Hsol'. injection Hsol' as <-.
      exists n, st_n, w_n, (ls_history st), wp, wn.
      split; [lia|]. split; [done|]. split; [by rewrite Hmin|].
      split; [done|]. split; [by eapply advances_trans | apply advances_refl].
    + destruct Hif as (Hmin & -> & Hsol'). rewrite Hsol in Hsol'.
      destruct (IH _ _ _ Hrun (eq_sym Hsol'))
        as (k & st_k & w_k & hist & wpk & wk' & Hk & Hrk & Hpk & Hsk & Ha0 & Hak).
      exists k, st_k, w_k, hist, wpk, wk'.
      split; [lia|]. split; [done|]. split; [by rewrite Hmin|].
      split; [done|]. split; [done | by eapply advances_trans].
Qed.

End best_solution.

(** X8. With [return_best], a returned [Solution] is the networks of the
    best epoch: there is an epoch [k] whose validation loss is the least
    of the whole recorded series, and the solution evaluates on every
    input exactly as the networks in use did right after the training
    and validation passes of that epoch, whatever the later epochs did to
    them. *)
Theorem solve_system_returns_best
    (ode_system : OdeSystem) conditions t_min t_max single_net nets
    train_generator shuffle valid_generator optimizer
    (criterion : option Criterion) (additional_loss_term : option LossTerm)
    (metrics : option Metrics) batch_size max_epochs monitor return_internal
    w cfg w0 out w' sol :
  configure conditions t_min t_max single_net nets train_generator
    valid_generator optimizer criterion metrics w = (Ok cfg, w0) →
  written (heap w0) (c_train_generator cfg) (c_valid_generator cfg)
    (c_optimizer cfg) monitor ⊆ dom (heap w0) →
  (∀ l, c_single_net cfg = Some l ∨ nets = Some l ∨ l = conditions →
        allocated (heap w0) l) →
  solve_system ode_system conditions t_min t_max single_net nets train_generator
    shuffle valid_generator optimizer criterion additional_loss_term metrics
    batch_size max_epochs monitor return_internal true w = (Ok out, w') →
  solution out = Some sol →
  ∃ k st_k w_k hist v wp vls,
    k < Z.to_nat max_epochs
    ∧ run_epochs ode_system conditions nets shuffle additional_loss_term
        batch_size monitor true cfg k w0 = (Ok st_k, w_k)
    ∧ epoch_passes batch_size (c_metrics cfg) (c_train_generator cfg)
        (c_valid_generator cfg) (c_single_net cfg) nets ode_system conditions
        (c_criterion cfg) additional_loss_term shuffle (c_optimizer cfg) monitor
        (ls_history st_k) k w_k = (Ok (hist, v), wp)
    ∧ history out !! "valid_loss" = Some vls
    ∧ vls !! k = Some v
    ∧ v = running_min vls
    ∧ ∀ ts as_type,
        Solution_call (heap w') sol ts as_type
        = Solution_call (heap wp) (live (c_single_net cfg) nets conditions)
            ts as_type.
Proof.
  intros Hcfg HD Hal H Hsol.
  apply solve_system_inv in H as (cfg' & w0' & st & wE & Hcfg' & Hrun & Hhist & H).
  rewrite Hcfg in Hcfg'. injection Hcfg' as <- <-.
  destruct H as [-> Hout]. rewrite Hsol in Hout.
  destruct (written_spec (heap w0) (c_train_generator cfg)
              (c_valid_generator cfg) (c_optimizer cfg) monitor)
    as (Htg & Hvg & Hm & Ht).
  destruct (run_epochs_best _ _ _ _ _ _ _ _ _ _ Htg Hvg Hm HD Ht _ _ _ _ Hrun
              (eq_sym Hout))
    as (k & st_k & w_k & hist & wp & wk' & Hk & Hrk & Hpk & Hsk & Ha0 & Hak).
  destruct (run_epochs_trace _ _ _ _ _ _ _ _ _ _ _ _ _ Hrun)
    as (tls & vls & _ & Hvls & _ & _ & Hmin & Htrace).
  destruct (Htrace k Hk)
    as (st_i & w_i & st_i' & w_i' & tl & tm & w1 & v & vm & w2 & wp' & Hri & _
        & _ & _ & Hpi & _ & Hvk & _).
  rewrite Hrk in Hri. injection Hri as <- <-.
  rewrite Hpk in Hpi. injection Hpi as _ Hv _.
  exists k, st_k, w_k, hist, (ls_valid_loss_epoch_min st), wp, vls.
  split; [done|]. split; [done|]. split; [done|].
  split; [by rewrite Hhist|]. split; [by rewrite Hv|].
  split; [by apply Hmin|].
  intros ts as_type.
  assert (∀ l, c_single_net cfg = Some l ∨ nets = Some l ∨ l = conditions →
               allocated (heap wp) l) as Halp.
  { intros l Hl. eapply allocated_advances; [exact Ha0 | by apply Hal]. }
  destruct (Solution_init_copies _ _ _ _ _ _ Halp Hsk) as (Hsn & Hns & Hcs).
  destruct (Solution_init_owned _ _ _ _ _ _ Hsk) as (_ & Hosn & Hons & Hocs).
  assert (written (heap w0) (c_train_generator cfg) (c_valid_generator cfg)
            (c_optimizer cfg) monitor ⊆ dom (heap wp)) as HDp.
  { etrans; [exact HD | apply Ha0]. }
  apply Solution_call_copy.
  - eapply opt_copy_of_kept; [exact Hsn | exact Hosn | exact HDp | exact Hak].
  - eapply opt_copy_of_kept; [exact Hns | exact Hons | exact HDp | exact Hak].
  - eapply copy_of_kept; [exact Hcs | exact Hocs | exact HDp | exact Hak].
Qed.

(** *** The metric series *)

Lemma calculate_metrics_names (h : Heap) (ts : T) net nets conditions
    (metrics : Metrics) ms :
  calculate_metrics h ts net nets conditions metrics = Ok ms →
  ms.*1 = metrics.*1.
Proof.
  unfold calculate_metrics. intros H. apply rbind_Ok_inv in H as (us & _ & H).
  revert ms H. induction metrics as [|[name f] metrics IH]; intros ms H; simpl in H.
  - by injection H as <-.
  - apply rbind_Ok_inv in H as ([n x] & H1 & H).
    apply rbind_Ok_inv in H as (bs & H2 & H). injection H as <-.
    apply rbind_Ok_inv in H1 as (x' & _ & H1). injection H1 as <- <-.
    simpl. f_equal. by apply IH.
Qed.

Lemma train_metrics_names batch_size (metrics : Metrics) train_generator net nets
    (ode_system : OdeSystem) conditions (criterion : Criterion)
    (additional_loss_term : option LossTerm) shuffle optimizer w tl tm w1 :
  train batch_size metrics train_generator net nets ode_system conditions
    criterion additional_loss_term shuffle optimizer w = (Ok (tl, tm), w1) →
  tm.*1 = metrics.*1.
Proof.
  unfold train. intros H.
  apply bind_Ok_inv in H as (ex & wa & Hex & H).
  apply bind_Ok_inv in H as (n & wb & _ & H).
  apply bind_Ok_inv in H as (idx & wc & _ & H).
  apply bind_Ok_inv in H as ([] & wd & _ & H).
  apply bind_Ok_inv in H as (h & we & Hh & H). injection Hh as <- <-.
  apply bind_Ok_inv in H as (tl' & wf & Hl & H). apply lift_inv in Hl as [Hl ->].
  apply bind_Ok_inv in H as (tm' & wg & Hm & H). apply lift_inv in Hm as [Hm ->].
  injection H as <- <- <-. by eapply calculate_metrics_names.
Qed.

Lemma valid_metrics_names (metrics : Metrics) valid_generator net nets
    (ode_system : OdeSystem) conditions (criterion : Criterion)
    (additional_loss_term : option LossTerm) w v vm w2 :
  valid metrics valid_generator net nets ode_system conditions criterion
    additional_loss_term w = (Ok (v, vm), w2) →
  vm.*1 = metrics.*1.
Proof.
  unfold valid. intros H.
  apply bind_Ok_inv in H as (ex & wa & Hex & H).
  apply bind_Ok_inv in H as (h & we & Hh & H). injection Hh as <- <-.
  apply bind_Ok_inv in H as (v' & wf & Hl & H). apply lift_inv in Hl as [Hl ->].
  apply bind_Ok_inv in H as (vm' & wg & Hm & H). apply lift_inv in Hm as [Hm ->].
  injection H as <- <- <-. by eapply calculate_metrics_names.
Qed.

Lemma history_append_metrics_notin prefix ms (hist hist' : History) key :
  history_append_metrics prefix ms hist = Ok hist' →
  (∀ name, name ∈ ms.*1 → key ≠ prefix +:+ name) →
  hist' !! key = hist !! key.
Proof.
  intros H Hkey. revert hist H.
  induction ms as [|[name v] ms IH]; intros hist H; simpl in H.
  - by injection H as <-.
  - apply rbind_Ok_inv in H as (hist1 & H1 & H).
    apply history_append_inv in H1 as (l & _ & ->).
    rewrite (IH ltac:(intros n Hn; apply Hkey; set_solver) _ H).
    apply lookup_insert_ne. intros Heq. apply (Hkey name); [set_solver | done].
Qed.

Lemma history_append_metrics_in prefix ms (hist hist' : History) name x l :
  NoDup ms.*1 →
  history_append_metrics prefix ms hist = Ok hist' →
  (name, x) ∈ ms →
  hist !! (prefix +:+ name) = Some l →
  hist' !! (prefix +:+ name) = Some (l ++ [x]).
Proof.
  intros Hnd H Hin Hl. revert hist H Hl.
  induction ms as [|[n0 x0] ms IH]; intros hist H Hl; simpl in *.
  - by apply elem_of_nil in Hin.
  - apply NoDup_cons in Hnd as [Hn0 Hnd].
    apply rbind_Ok_inv in H as (hist1 & H1 & H).
    apply history_append_inv in H1 as (l0 & Hl0 & ->).
    apply elem_of_cons in Hin as [Heq|Hin].
    + injection Heq as <- <-.
      rewrite (history_append_metrics_notin _ _ _ _ _ H).
      * rewrite lookup_insert_eq. congruence.
      * intros n Hn Heq. apply (inj _) in Heq. by subst.
    + apply (IH Hnd Hin _ H). rewrite lookup_insert_ne; [done|].
      intros Heq. apply (inj _) in Heq. subst. apply Hn0.
      apply list_elem_of_fmap. by exists (name, x).
Qed.

Lemma history_init_metric (metrics : Metrics) name :
  name ∈ metrics.*1 →
  history_init metrics !! ("train__" +:+ name) = Some []
  ∧ history_init metrics !! ("valid__" +:+ name) = Some [].
Proof.
  intros Hin. unfold history_init.
  generalize (<["valid_loss" := []]> (<["train_loss" := []]> (∅ : History))).
  intros acc.
  assert (name ∈ metrics.*1
          ∨ (acc !! ("train__" +:+ name) = Some []
             ∧ acc !! ("valid__" +:+ name) = Some [])) as H by auto.
  clear Hin. revert acc H.
  induction metrics as [|[m f] metrics IH]; intros acc H; simpl.
  - destruct H as [H|H]; [by apply elem_of_nil in H | done].
  - apply IH. destruct (decide (name = m)) as [->|Hne].
    + right. split; [|apply lookup_insert_eq].
      rewrite lookup_insert_ne by discriminate. apply lookup_insert_eq.
    + destruct H as [H|[H1 H2]]; [left; set_solver|]. right.
      assert ("train__" +:+ m ≠ "train__" +:+ name) as Ht.
      { intros Heq. apply (inj _) in Heq. by subst. }
      assert ("valid__" +:+ m ≠ "valid__" +:+ name) as Hv.
      { intros Heq. apply (inj _) in Heq. by subst. }
      split.
      * rewrite lookup_insert_ne by discriminate. by rewrite lookup_insert_ne.
      * rewrite lookup_insert_ne by done. by rewrite lookup_insert_ne by discriminate.
Qed.

Lemma configure_metrics conditions t_min t_max single_net nets train_generator
    valid_generator optimizer (criterion : option Criterion)
    (metrics : option Metrics) w cfg w0 :
  configure conditions t_min t_max single_net nets train_generator
    valid_generator optimizer criterion metrics w = (Ok cfg, w0) →
  c_metrics cfg = match metrics with Some ms => ms | None => [] end.
Proof.
  unfold configure. intros H.
  apply bind_Ok_inv in H as (sn & wa & _ & H).
  apply bind_Ok_inv in H as (tg & wb & _ & H).
  apply bind_Ok_inv in H as (vg & wc & _ & H).
  apply bind_Ok_inv in H as (o & wd & _ & H).
  by injection H as <- <-.
Qed.

Section metric_series.
Context (ode_system : OdeSystem) (conditions : loc) (nets : option loc)
  (shuffle : bool) (additional_loss_term : option LossTerm) (batch_size : Z)
  (monitor : option loc) (return_best : bool) (cfg : Config).
Hypothesis Hnd : NoDup (c_metrics cfg).*1.

Local Abbreviation run n :=
  (run_epochs ode_system conditions nets shuffle additional_loss_term batch_size
     monitor return_best cfg n).
Local Abbreviation passes :=
  (epoch_passes batch_size (c_metrics cfg) (c_train_generator cfg)
     (c_valid_generator cfg) (c_single_net cfg) nets ode_system conditions
     (c_criterion cfg) additional_loss_term shuffle (c_optimizer cfg) monitor).
Local Abbreviation train_pass :=
  (train batch_size (c_metrics cfg) (c_train_generator cfg) (c_single_net cfg)
     nets ode_system conditions (c_criterion cfg) additional_loss_term shuffle
     (c_optimizer cfg)).
Local Abbreviation valid_pass :=
  (valid (c_metrics cfg) (c_valid_generator cfg) (c_single_net cfg) nets
     ode_system conditions (c_criterion cfg) additional_loss_term).

Lemma epoch_passes_metrics hist epoch w hist' v wp name :
  name ∈ (c_metrics cfg).*1 →
  passes hist epoch w = (Ok (hist', v), wp) →
  ∃ tl tm w1 vm w2 x y,
    train_pass w = (Ok (tl, tm), w1)
    ∧ valid_pass w1 = (Ok (v, vm), w2)
    ∧ (name, x) ∈ tm ∧ (name, y) ∈ vm
    ∧ (∀ l, hist !! ("train__" +:+ name) = Some l →
            hist' !! ("train__" +:+ name) = Some (l ++ [x]))
    ∧ (∀ l, hist !! ("valid__" +:+ name) = Some l →
            hist' !! ("valid__" +:+ name) = Some (l ++ [y])).
Proof.
  unfold epoch_passes. intros Hname H.
  apply bind_Ok_inv in H as ([tl tm] & w1 & Htrain & H).
  apply bind_Ok_inv in H as (hist1 & wa & H1 & H). apply lift_inv in H1 as [H1 ->].
  apply bind_Ok_inv in H as (hist2 & wa & H2 & H). apply lift_inv in H2 as [H2 ->].
  apply bind_Ok_inv in H as ([v' vm] & w2 & Hvalid & H).
  apply bind_Ok_inv in H as (hist3 & wa & H3 & H). apply lift_inv in H3 as [H3 ->].
  apply bind_Ok_inv in H as (hist4 & wa & H4 & H). apply lift_inv in H4 as [H4 ->].
  apply bind_Ok_inv in H as ([] & wb & _ & H). injection H as <- <- <-.
  apply history_append_inv in H1 as (l1 & Hl1 & ->).
  apply history_append_inv in H3 as (l3 & Hl3 & ->).
  pose proof (train_metrics_names _ _ _ _ _ _ _ _ _ _ _ _ _ _ _ Htrain) as Htm.
  pose proof (valid_metrics_names _ _ _ _ _ _ _ _ _ _ _ _ Hvalid) as Hvm.
  assert (∃ x, (name, x) ∈ tm) as [x Hx].
  { rewrite <- Htm in Hname. apply list_elem_of_fmap in Hname as ([n x] & -> & Hin).
    by exists x. }
  assert (∃ y, (name, y) ∈ vm) as [y Hy].
  { rewrite <- Hvm in Hname. apply list_elem_of_fmap in Hname as ([n y] & -> & Hin).
    by exists y. }
  exists tl, tm, w1, vm, w2, x, y.
  split; [done|]. split; [done|]. split; [done|]. split; [done|]. split.
  - intros l Hl.
    rewrite (history_append_metrics_notin _ _ _ _ _ H4) by (intros; discriminate).
    rewrite lookup_insert_ne by discriminate.
    apply (history_append_metrics_in _ _ _ _ _ _ _ ltac:(by rewrite Htm) H2 Hx).
    by rewrite lookup_insert_ne by discriminate.
  - intros l Hl.
    apply (history_append_metrics_in _ _ _ _ _ _ _ ltac:(by rewrite Hvm) H4 Hy).
    rewrite lookup_insert_ne by discriminate.
    rewrite (history_append_metrics_notin _ _ _ _ _ H2) by (intros; discriminate).
    by rewrite lookup_insert_ne by discriminate.
Qed.

Lemma run_epochs_metrics n w name :
  name ∈ (c_metrics cfg).*1 →
  ∀ st wn,
    run n w = (Ok st, wn) →
    ∃ tms vms,
      ls_history st !! ("train__" +:+ name) = Some tms
      ∧ ls_history st !! ("valid__" +:+ name) = Some vms
      ∧ length tms = n ∧ length vms = n
      ∧ ∀ i, i < n →
          ∃ st_i w_i tl tm w1 v vm w2 x y,
            run i w = (Ok st_i, w_i)
            ∧ train_pass w_i = (Ok (tl, tm), w1)
            ∧ valid_pass w1 = (Ok (v, vm), w2)
            ∧ (name, x) ∈ tm ∧ (name, y) ∈ vm
            ∧ tms !! i = Some x ∧ vms !! i = Some y.
Proof.
  intros Hname. induction n as [|n IH]; intros st wn Hrun.
  - unfold run_epochs in Hrun. simpl in Hrun. injection Hrun as <- <-.
    destruct (history_init_metric (c_metrics cfg) name Hname) as [Ht Hv].
    exists [], []. simpl. repeat split; [done | done | intros i Hi; lia].
  - rewrite run_epochs_S in Hrun.
    apply bind_Ok_inv in Hrun as (st_n & w_n & Hrun & Hbody).
    destruct (IH _ _ Hrun) as (tms & vms & Ht & Hv & Hlt & Hlv & Htrace).
    apply epoch_body_inv in Hbody as (v & wp & Hp & _).
    destruct (epoch_passes_metrics _ _ _ _ _ _ _ Hname Hp)
      as (tl & tm & w1 & vm & w2 & x & y & Htr & Hva & Hx & Hy & Ht' & Hv').
    exists (tms ++ [x]), (vms ++ [y]).
    split; [by apply Ht'|]. split; [by apply Hv'|].
    rewrite !length_app. simpl. split; [lia|]. split; [lia|].
    intros i Hi. destruct (decide (i = n)) as [->|Hne].
    + exists st_n, w_n, tl, tm, w1, v, vm, w2, x, y.
      repeat split; try done.
      * rewrite lookup_app_r by lia. by replace (n - length tms) with 0 by lia.
      * rewrite lookup_app_r by lia. by replace (n - length vms) with 0 by lia.
    + destruct (Htrace i ltac:(lia))
        as (st_i & w_i & tl' & tm' & w1' & v' & vm' & w2' & x' & y' & Hri & Htr'
            & Hva' & Hx' & Hy' & Hxi & Hyi).
      exists st_i, w_i, tl', tm', w1', v', vm', w2', x', y'.
      repeat split; try done.
      * by rewrite lookup_app_l by lia.
      * by rewrite lookup_app_l by lia.
Qed.

End metric_series.

(** X9. Every metric has its two series: for a metric [name] of the
    [metrics] dictionary the returned history holds ["train__" + name]
    and ["valid__" + name], each with one entry per epoch, and entry [i]
    is the value [train], respectively [valid], returned for that metric
    in epoch [i].  (The names of a dictionary are distinct.) *)
Theorem solve_system_metric_series
    (ode_system : OdeSystem) conditions t_min t_max single_net nets
    train_generator shuffle valid_generator optimizer
    (criterion : option Criterion) (additional_loss_term : option LossTerm)
    (ms : Metrics) batch_size max_epochs monitor return_internal return_best
    w out w' name :
  NoDup ms.*1 →
  name ∈ ms.*1 →
  solve_system ode_system conditions t_min t_max single_net nets train_generator
    shuffle valid_generator optimizer criterion additional_loss_term (Some ms)
    batch_size max_epochs monitor return_internal return_best w = (Ok out, w') →
  ∃ cfg w0 tms vms,
    configure conditions t_min t_max single_net nets train_generator
      valid_generator optimizer criterion (Some ms) w = (Ok cfg, w0)
    ∧ history out !! ("train__" +:+ name) = Some tms
    ∧ history out !! ("valid__" +:+ name) = Some vms
    ∧ length tms = Z.to_nat max_epochs
    ∧ length vms = Z.to_nat max_epochs
    ∧ ∀ i, i < Z.to_nat max_epochs →
        ∃ st_i w_i tl tm w1 v vm w2 x y,
          run_epochs ode_system conditions nets shuffle additional_loss_term
            batch_size monitor return_best cfg i w0 = (Ok st_i, w_i)
          ∧ train batch_size ms (c_train_generator cfg) (c_single_net cfg) nets
              ode_system conditions (c_criterion cfg) additional_loss_term
              shuffle (c_optimizer cfg) w_i = (Ok (tl, tm), w1)
          ∧ valid ms (c_valid_generator cfg) (c_single_net cfg) nets ode_system
              conditions (c_criterion cfg) additional_loss_term w1
            = (Ok (v, vm), w2)
          ∧ (name, x) ∈ tm ∧ (name, y) ∈ vm
          ∧ tms !! i = Some x ∧ vms !! i = Some y.
Proof.
  intros Hnd Hname H.
  apply solve_system_inv in H as (cfg & w0 & st & wE & Hcfg & Hrun & Hhist & _).
  pose proof (configure_metrics _ _ _ _ _ _ _ _ _ _ _ _ _ Hcfg) as Hms.
  simpl in Hms. rewrite <- Hms in Hnd, Hname.
  destruct (run_epochs_metrics _ _ _ _ _ _ _ _ _ Hnd _ _ _ Hname _ _ Hrun)
    as (tms & vms & Ht & Hv & Hlt & Hlv & Htrace).
  exists cfg, w0, tms, vms. rewrite Hhist. rewrite Hms in Htrace. done.
Qed.

(** *** Validation *)

(** X10. Validation never trains: whether it returns or raises, [valid]
    changes no object but its generator, so the networks, the optimizer
    and the conditions are exactly as the training pass left them. *)
Theorem valid_never_trains (metrics : Metrics) valid_generator net nets
    (ode_system : OdeSystem) conditions (criterion : Criterion)
    (additional_loss_term : option LossTerm) w l :
  l ≠ valid_generator →
  heap (valid metrics valid_generator net nets ode_system conditions criterion
          additional_loss_term w).2 !! l
  = heap w !! l.
Proof.
  intros Hl. unfold valid, bind, gen_get_examples, get_heap, lift, ret.
  destruct (get_gen (heap w) valid_generator) as [gen|e]; [|done].
  destruct (get_examples gen (rng w)) as [[t gen'] r']. simpl.
  destruct (loss_tensor _ _ _ _ _ _ _ _) as [v|e]; simpl;
    [|by apply lookup_insert_ne].
  destruct (calculate_metrics _ _ _ _ _ _) as [vm|e]; simpl;
    by apply lookup_insert_ne.
Qed.

(** *** The training loop with a batch size that is not positive *)

(** X11. With a [batch_size] of zero or less and at least one training
    point, the [while] loop of [train] never ends normally: [batch_start]
    starts at 0 and never grows, so however many iterations are allowed,
    the loop is still running (or a batch has raised). *)
Theorem train_loop_never_ends batch_size (ex : T) n idx net nets
    (ode_system : OdeSystem) conditions (criterion : Criterion)
    (additional_loss_term : option LossTerm) optimizer :
  (batch_size ≤ 0)%Z → 1 ≤ n →
  ∀ fuel w,
    is_ok (train_loop fuel batch_size ex n idx 0%Z batch_size net nets ode_system
             conditions criterion additional_loss_term optimizer w).1
    = false.
Proof.
  intros Hb Hn fuel w. by apply train_loop_diverges.
Qed.

(** *** The default network and the marking of the conditions *)

Lemma set_impose_on_inv con ith w u w' :
  set_impose_on con ith w = (Ok u, w') →
  ∃ old c, get_cond (heap w) con = Ok (old, c)
           ∧ w' = mkWorld (<[con := OCond (Some ith) c]> (heap w)) (rng w).
Proof.
  unfold set_impose_on, bind, get_heap, lift, put_obj.
  destruct (get_cond (heap w) con) as [[old c]|e]; [|discriminate].
  intros [= <- <-]. eauto.
Qed.

Lemma get_cond_insert_ne (h : Heap) l (o : Object) con :
  l ≠ con → get_cond (<[l := o]> h) con = get_cond h con.
Proof. intros. unfold get_cond. by rewrite lookup_insert_ne. Qed.

Lemma mark_conditions cs :
  ∀ k w u w',
    forM_ (λ '(ith, con), set_impose_on con ith) (zip (seq k (length cs)) cs) w
    = (Ok u, w') →
    NoDup cs →
    rng w' = rng w
    ∧ (∀ l, l ∉ cs → heap w' !! l = heap w !! l)
    ∧ (∀ j con, cs !! j = Some con →
         ∃ old c, get_cond (heap w) con = Ok (old, c)
                  ∧ get_cond (heap w') con = Ok (Some (k + j), c)).
Proof.
  induction cs as [|c0 cs IH]; intros k w u w' H Hnd; simpl in H.
  - injection H as <- <-. split; [done|]. split; [done|]. intros j con Hj. done.
  - apply NoDup_cons in Hnd as [Hc0 Hnd].
    apply bind_Ok_inv in H as (u0 & wa & H0 & H).
    apply set_impose_on_inv in H0 as (old0 & d0 & Hg0 & ->).
    destruct (IH _ _ _ _ H Hnd) as (Hr & Hf & Hm). simpl in *.
    split; [done|]. split.
    + intros l Hl. rewrite Hf by set_solver. apply lookup_insert_ne. set_solver.
    + intros [|j] con Hj; simpl in Hj.
      * injection Hj as <-. exists old0, d0. split; [done|].
        unfold get_cond. rewrite (Hf c0 Hc0), lookup_insert_eq.
        by replace (k + 0) with k by lia.
      * destruct (Hm j con Hj) as (old & c & Hga & Hg').
        assert (c0 ≠ con) as Hne.
        { intros ->. apply Hc0. by eapply list_elem_of_lookup_2. }
        rewrite get_cond_insert_ne in Hga by done.
        exists old, c. split; [done|].
        by replace (k + S j) with (S k + j) by lia.
Qed.

(** X12. When [nets] is not true (it is [None] or empty), [solve_system]
    marks the conditions before anything else: condition [i] of the list
    is told that it reads output unit [i], and keeps its data.  If
    [single_net] is not true either, the network it creates is new and
    has one input unit, one output unit per condition, two hidden layers
    of 32 units and [Tanh]; a [single_net] that is true is kept.  (The
    conditions are distinct objects.) *)
Theorem resolve_networks_marks conditions single_net nets w sn w1 cons :
  resolve_networks conditions single_net nets w = (Ok sn, w1) →
  truthy (heap w) nets = false →
  get_list (heap w) conditions = Ok cons →
  NoDup cons →
  (∀ i con, cons !! i = Some con →
     ∃ old c, get_cond (heap w) con = Ok (old, c)
              ∧ get_cond (heap w1) con = Ok (Some i, c))
  ∧ if truthy (heap w) single_net then sn = single_net ∧ rng w1 = rng w
    else ∃ net,
        sn = Some net
        ∧ net ∉ dom (heap w)
        ∧ heap w1 !! net
          = Some (ONet (FCNN 1 (length cons) [32; 32] "Tanh" (rng w)).1)
        ∧ rng w1 = (FCNN 1 (length cons) [32; 32] "Tanh" (rng w)).2.
Proof.
  intros H Hn Hcons Hnd. unfold resolve_networks in H.
  apply bind_Ok_inv in H as (h & w_ & Hh & H). injection Hh as <- <-.
  rewrite Hn, andb_false_r in H. simpl in H.
  destruct (truthy (heap w) single_net) eqn:Hs; simpl in H.
  - apply bind_Ok_inv in H as (sn' & w_ & Hr & H). injection Hr as <- <-.
    apply bind_Ok_inv in H as (h & w_ & Hh & H). injection Hh as <- <-.
    rewrite Hs in H.
    apply bind_Ok_inv in H as (u & wb & Hmark & H). injection H as <- <-.
    apply bind_Ok_inv in Hmark as (cons' & w_ & Hl & Hmark).
    apply lift_inv in Hl as [Hl ->]. rewrite Hcons in Hl. injection Hl as <-.
    destruct (mark_conditions _ _ _ _ _ Hmark Hnd) as (Hr & _ & Hm).
    split; [exact Hm | done].
  - apply bind_Ok_inv in H as (sn' & wa0 & Hnew & H).
    apply bind_Ok_inv in Hnew as (cons' & w_ & Hl & Hnew).
    apply lift_inv in Hl as [Hl ->]. rewrite Hcons in Hl. injection Hl as <-.
    apply bind_Ok_inv in Hnew as (net & wa & Hnet & Hnew).
    injection Hnew as <- <-.
    unfold new_FCNN in Hnet.
    destruct (FCNN 1 (length cons) [32; 32] "Tanh" (rng w)) as [p r'] eqn:HF.
    apply alloc_spec in Hnet as Hspec. destruct Hspec as [Hfresh Hheap].
    simpl in Hfresh, Hheap.
    assert (rng wa = r') as Hrng.
    { unfold alloc in Hnet. by injection Hnet as _ <-. }
    apply bind_Ok_inv in H as (h & w_ & Hh & H). injection Hh as <- <-.
    assert (truthy (heap wa) (Some net) = true) as Htn.
    { simpl. rewrite Hheap, lookup_insert_eq.
      pose proof (FCNN_bool 1 (length cons) [32; 32] "Tanh" (rng w)) as Hb.
      by rewrite HF in Hb. }
    rewrite Htn in H.
    apply bind_Ok_inv in H as (u & wb & Hmark & H). injection H as <- <-.
    apply bind_Ok_inv in Hmark as (cons' & w_ & Hl & Hmark).
    apply lift_inv in Hl as [Hl ->].
    assert (conditions ≠ net) as Hcn.
    { intros ->. unfold get_list in Hcons.
      apply not_elem_of_dom in Hfresh. by rewrite Hfresh in Hcons. }
    unfold get_list in Hl. rewrite Hheap, lookup_insert_ne in Hl by done.
    fold (get_list (heap w) conditions) in Hl. rewrite Hcons in Hl.
    injection Hl as <-.
    destruct (mark_conditions _ _ _ _ _ Hmark Hnd) as (Hr & Hf & Hm).
    assert (net ∉ cons) as Hnc.
    { intros Hin. apply list_elem_of_lookup_1 in Hin as [j Hj].
      destruct (Hm j net Hj) as (old & c & Hg & _).
      unfold get_cond in Hg. by rewrite Hheap, lookup_insert_eq in Hg. }
    split.
    + intros i con Hi. destruct (Hm i con Hi) as (old & c & Hg & Hg').
      exists old, c. split; [|done].
      rewrite Hheap, get_cond_insert_ne in Hg; [done|].
      intros <-. apply Hnc. by eapply list_elem_of_lookup_2.
    + exists net. split; [done|]. split; [done|]. simpl.
      split; [|congruence]. by rewrite (Hf net Hnc), Hheap, lookup_insert_eq.
Qed.

(** *** The defaults of the configuration *)

Lemma truthy_insert_keeps (h : Heap) l (o : Object) x :
  o ≠ OList [] → (∀ p, o = ONet p → net_bool p = true) →
  truthy h x = true → truthy (<[l := o]> h) x = true.
Proof.
  destruct x as [a|]; simpl; [|done]. intros Ho Hp Ht.
  destruct (decide (l = a)) as [->|Hne].
  - rewrite lookup_insert_eq. destruct o as [p| |[|]| | |]; try done.
    by apply Hp.
  - by rewrite lookup_insert_ne.
Qed.

Lemma marks_keep (ps : list (nat * loc)) :
  ∀ w u w',
    forM_ (λ '(ith, con), set_impose_on con ith) ps w = (Ok u, w') →
    dom (heap w) ⊆ dom (heap w')
    ∧ ∀ x, truthy (heap w) x = true → truthy (heap w') x = true.
Proof.
  induction ps as [|[ith con] ps IH]; intros w u w' H; simpl in H.
  - by injection H as <- <-.
  - apply bind_Ok_inv in H as (u0 & wa & H0 & H).
    apply set_impose_on_inv in H0 as (old & c & Hg & ->).
    destruct (IH _ _ _ H) as [Hd Ht]. simpl in *. split.
    + etrans; [|exact Hd]. rewrite dom_insert. set_solver.
    + intros x Hx. apply Ht. by apply truthy_insert_keeps.
Qed.

Lemma resolve_networks_inv conditions single_net nets w sn w1 :
  resolve_networks conditions single_net nets w = (Ok sn, w1) →
  dom (heap w) ⊆ dom (heap w1)
  ∧ (truthy (heap w1) sn = true ∨ truthy (heap w1) nets = true).
Proof.
  unfold resolve_networks. intros H.
  apply bind_Ok_inv in H as (h & w_ & Hh & H). injection Hh as <- <-.
  destruct (truthy (heap w) single_net) eqn:Hs, (truthy (heap w) nets) eqn:Hn;
    simpl in H.
  - discriminate.
  - apply bind_Ok_inv in H as (sn' & w_ & Hr & H). injection Hr as <- <-.
    apply bind_Ok_inv in H as (h & w_ & Hh & H). injection Hh as <- <-.
    rewrite Hs in H.
    apply bind_Ok_inv in H as (u & wb & Hmark & H). injection H as <- <-.
    apply bind_Ok_inv in Hmark as (cons' & w_ & Hl & Hmark).
    apply lift_inv in Hl as [Hl ->].
    destruct (marks_keep _ _ _ _ Hmark) as [Hd Ht]. split; [done|].
    left. by apply Ht.
  - apply bind_Ok_inv in H as (sn' & w_ & Hr & H). injection Hr as <- <-.
    apply bind_Ok_inv in H as (h & w_ & Hh & H). injection Hh as <- <-.
    rewrite Hs in H.
    apply bind_Ok_inv in H as (u & wb & Hmark & H). injection H as <- <-.
    injection Hmark as _ <-. split; [done|]. by right.
  - apply bind_Ok_inv in H as (sn' & wa0 & Hnew & H).
    apply bind_Ok_inv in Hnew as (cons & w_ & Hl & Hnew).
    apply lift_inv in Hl as [Hl ->].
    apply bind_Ok_inv in Hnew as (net & wa & Hnet & Hnew).
    injection Hnew as <- <-.
    unfold new_FCNN in Hnet.
    destruct (FCNN 1 (length cons) [32; 32] "Tanh" (rng w)) as [p r'] eqn:HF.
    apply alloc_spec in Hnet as [Hfresh Hheap]. simpl in Hfresh, Hheap.
    apply bind_Ok_inv in H as (h & w_ & Hh & H). injection Hh as <- <-.
    assert (truthy (heap wa) (Some net) = true) as Htn.
    { simpl. rewrite Hheap, lookup_insert_eq.
      pose proof (FCNN_bool 1 (length cons) [32; 32] "Tanh" (rng w)) as Hb.
      by rewrite HF in Hb. }
    rewrite Htn in H.
    apply bind_Ok_inv in H as (u & wb & Hmark & H). injection H as <- <-.
    apply bind_Ok_inv in Hmark as (cons' & w_ & Hl' & Hmark).
    apply lift_inv in Hl' as [Hl' ->].
    destruct (marks_keep _ _ _ _ Hmark) as [Hd Ht]. split.
    + etrans; [|exact Hd]. rewrite Hheap, dom_insert. set_solver.
    + left. by apply Ht.
Qed.

Lemma resolve_generator_inv generator t_min t_max method w g w' :
  resolve_generator generator t_min t_max method w = (Ok g, w') →
  (truthy (heap w) generator = true ∧ generator = Some g ∧ w' = w)
  ∨ (truthy (heap w) generator = false
     ∧ ∃ lo hi,
         t_min = Some lo ∧ t_max = Some hi
         ∧ g = fresh (dom (heap w))
         ∧ w' = mkWorld (<[g := OGen (Generator1D 32 lo hi method)]> (heap w))
                  (rng w)).
Proof.
  intros H. destruct (truthy (heap w) generator) eqn:Ht.
  - left.
    destruct (resolve_generator_given _ t_min t_max method _ Ht) as (g' & -> & Hg).
    rewrite Hg in H. by injection H as <- <-.
  - right. split; [done|].
    destruct t_min as [lo|], t_max as [hi|];
      try (rewrite resolve_generator_missing in H by auto; discriminate).
    rewrite resolve_generator_default in H by done. rewrite alloc_eq in H.
    injection H as <- <-. by exists lo, hi.
Qed.

Lemma resolve_generator_extends generator t_min t_max method w g w' :
  resolve_generator generator t_min t_max method w = (Ok g, w') →
  extends (heap w) (heap w')
  ∧ ∀ x, truthy (heap w') x = truthy (heap w) x.
Proof.
  intros H. apply resolve_generator_inv in H
    as [(_ & _ & ->)|(_ & lo & hi & _ & _ & -> & ->)].
  - split; [apply extends_refl | done].
  - simpl. split; [apply extends_insert_fresh, is_fresh|].
    intros x. by apply truthy_alloc.
Qed.

Lemma configure_inv conditions t_min t_max single_net nets train_generator
    valid_generator optimizer (criterion : option Criterion)
    (metrics : option Metrics) w cfg w0 :
  configure conditions t_min t_max single_net nets train_generator
    valid_generator optimizer criterion metrics w = (Ok cfg, w0) →
  ∃ w1 w2 w3,
    resolve_networks conditions single_net nets w = (Ok (c_single_net cfg), w1)
    ∧ resolve_generator train_generator t_min t_max "equally-spaced-noisy" w1
      = (Ok (c_train_generator cfg), w2)
    ∧ resolve_generator valid_generator t_min t_max "equally-spaced" w2
      = (Ok (c_valid_generator cfg), w3)
    ∧ resolve_optimizer (c_single_net cfg) nets optimizer w3
      = (Ok (c_optimizer cfg), w0).
Proof.
  unfold configure. intros H.
  apply bind_Ok_inv in H as (sn & w1 & H1 & H).
  apply bind_Ok_inv in H as (tg & w2 & H2 & H).
  apply bind_Ok_inv in H as (vg & w3 & H3 & H).
  apply bind_Ok_inv in H as (o & w4 & H4 & H).
  injection H as <- <-. simpl. by exists w1, w2, w3.
Qed.

Lemma resolve_optimizer_extends single_net nets optimizer w o w' :
  resolve_optimizer single_net nets optimizer w = (Ok o, w') →
  extends (heap w) (heap w').
Proof.
  unfold resolve_optimizer. intros H.
  apply bind_Ok_inv in H as (h & w_ & Hh & H). injection Hh as <- <-.
  apply bind_Ok_inv in H as (o1 & wa & H1 & H).
  assert (extends (heap w) (heap wa)) as He1.
  { destruct (negb _ && _); [|injection H1 as <- <-; apply extends_refl].
    destruct single_net as [net|]; [|injection H1 as <- <-; apply extends_refl].
    apply bind_Ok_inv in H1 as (p & w_ & Hp & H1). apply lift_inv in Hp as [_ ->].
    apply bind_Ok_inv in H1 as (ol & wb & Hal & H1). injection H1 as <- <-.
    apply alloc_spec in Hal as [Hf ->]. by apply extends_insert_fresh. }
  apply bind_Ok_inv in H as (h & w_ & Hh & H). injection Hh as <- <-.
  eapply extends_trans; [exact He1|]. clear H1.
  destruct (negb (truthy (heap wa) o1) && truthy (heap wa) nets);
    [|injection H as <- <-; apply extends_refl].
  destruct nets as [nl|]; [|injection H as <- <-; apply extends_refl].
  apply bind_Ok_inv in H as (ns & w_ & Hns & H). apply lift_inv in Hns as [_ ->].
  apply bind_Ok_inv in H as (ps & w_ & Hps & H). apply lift_inv in Hps as [_ ->].
  apply bind_Ok_inv in H as (ol & wb & Hal & H). injection H as <- <-.
  apply alloc_spec in Hal as [Hf ->]. by apply extends_insert_fresh.
Qed.

(** X13. When no generator is given and both bounds are, the
    configuration creates two different generators of 32 points between
    the bounds: noisy equally spaced points to train on, equally spaced
    points to validate on. *)
Theorem configure_default_generators conditions lo hi single_net nets optimizer
    (criterion : option Criterion) (metrics : option Metrics) w cfg w0 :
  configure conditions (Some lo) (Some hi) single_net nets None None optimizer
    criterion metrics w = (Ok cfg, w0) →
  c_train_generator cfg ≠ c_valid_generator cfg
  ∧ c_train_generator cfg ∉ dom (heap w)
  ∧ c_valid_generator cfg ∉ dom (heap w)
  ∧ get_gen (heap w0) (c_train_generator cfg)
    = Ok (Generator1D 32 lo hi "equally-spaced-noisy")
  ∧ get_gen (heap w0) (c_valid_generator cfg)
    = Ok (Generator1D 32 lo hi "equally-spaced").
Proof.
  intros H. apply configure_inv in H as (w1 & w2 & w3 & H1 & H2 & H3 & H4).
  apply resolve_networks_inv in H1 as [Hd1 _].
  apply resolve_optimizer_extends in H4 as He.
  apply resolve_generator_inv in H2
    as [(Ht & _)|(_ & lo' & hi' & [= <-] & [= <-] & Htg & ->)]; [done|].
  apply resolve_generator_inv in H3
    as [(Ht & _)|(_ & lo' & hi' & [= <-] & [= <-] & Hvg & ->)]; [done|].
  simpl in *.
  assert (c_train_generator cfg ∉ dom (heap w1)) as Hf1.
  { rewrite Htg. apply is_fresh. }
  assert (c_valid_generator cfg
            ∉ dom (<[c_train_generator cfg
                       := OGen (Generator1D 32 lo hi "equally-spaced-noisy")]>
                     (heap w1))) as Hf2.
  { rewrite Hvg. apply is_fresh. }
  rewrite dom_insert in Hf2.
  split; [set_solver|]. split; [set_solver|]. split; [set_solver|].
  unfold get_gen. split.
  - rewrite He; [|rewrite !dom_insert; set_solver].
    rewrite lookup_insert_ne by set_solver. by rewrite lookup_insert_eq.
  - rewrite He; [|rewrite !dom_insert; set_solver].
    by rewrite lookup_insert_eq.
Qed.

Lemma rmap_get_net_extends (h h' : Heap) l ps :
  rmap (get_net h) l = Ok ps → extends h h' → rmap (get_net h') l = Ok ps.
Proof.
  intros H He. rewrite <- H. apply rmap_ext_in. intros a Ha.
  assert (∃ p, get_net h a = Ok p) as [p Hp].
  { revert ps H. induction l as [|b l IH]; intros ps H; [by apply elem_of_nil in Ha|].
    simpl in H. apply rbind_Ok_inv in H as (p & Hp & H).
    apply rbind_Ok_inv in H as (ps' & Hps & _).
    apply elem_of_cons in Ha as [->|Ha]; [eauto | by eapply IH]. }
  unfold get_net in *. rewrite He; [done|].
  apply elem_of_dom. destruct (h !! a); [eauto | discriminate].
Qed.

Lemma resolve_optimizer_default single_net nets optimizer w o w' :
  resolve_optimizer single_net nets optimizer w = (Ok o, w') →
  truthy (heap w) optimizer = false →
  truthy (heap w) single_net = true ∨ truthy (heap w) nets = true →
  ∃ targets ps,
    o = Some (fresh (dom (heap w)))
    ∧ heap w' = <[fresh (dom (heap w)) := OOpt targets (Adam ps)]> (heap w)
    ∧ rmap (get_net (heap w)) targets = Ok ps
    ∧ if truthy (heap w) single_net
      then ∃ net, single_net = Some net ∧ targets = [net]
      else ∃ nl, nets = Some nl ∧ get_list (heap w) nl = Ok targets.
Proof.
  unfold resolve_optimizer. intros H Ho Hsn.
  apply bind_Ok_inv in H as (h & w_ & Hh & H). injection Hh as <- <-.
  rewrite Ho in H. simpl in H.
  destruct (truthy (heap w) single_net) eqn:Hs.
  - destruct (truthy_true_Some _ _ Hs) as [net ->].
    apply bind_Ok_inv in H as (o1 & wa & H1 & H).
    apply bind_Ok_inv in H1 as (p & w_ & Hp & H1). apply lift_inv in Hp as [Hp ->].
    apply bind_Ok_inv in H1 as (ol & wb & Hal & H1). injection H1 as <- <-.
    rewrite alloc_eq in Hal. injection Hal as <- <-.
    apply bind_Ok_inv in H as (h & w_ & Hh & H). injection Hh as <- <-.
    simpl in H. rewrite lookup_insert_eq in H. simpl in H.
    injection H as <- <-. simpl.
    exists [net], [p]. split; [done|]. split; [done|].
    split; [simpl; by rewrite Hp | eauto].
  - destruct Hsn as [Hsn|Hn]; [discriminate|].
    apply bind_Ok_inv in H as (o1 & wa & H1 & H). injection H1 as <- <-.
    apply bind_Ok_inv in H as (h & w_ & Hh & H). injection Hh as <- <-.
    rewrite Ho, Hn in H. simpl in H.
    destruct (truthy_true_Some _ _ Hn) as [nl ->].
    apply bind_Ok_inv in H as (ns & w_ & Hns & H). apply lift_inv in Hns as [Hns ->].
    apply bind_Ok_inv in H as (ps & w_ & Hps & H). apply lift_inv in Hps as [Hps ->].
    apply bind_Ok_inv in H as (ol & wb & Hal & H). injection H as <- <-.
    rewrite alloc_eq in Hal. injection Hal as <- <-. simpl.
    exists ns, ps. split; [done|]. split; [done|]. split; [done | eauto].
Qed.

(** X14. When no optimizer is given, the configuration creates one, an
    [Adam] over the parameters of exactly the networks in use: the shared
    network if it is true, every network of the list otherwise. *)
Theorem configure_default_optimizer conditions t_min t_max single_net nets
    train_generator valid_generator (criterion : option Criterion)
    (metrics : option Metrics) w cfg w0 :
  configure conditions t_min t_max single_net nets train_generator
    valid_generator None criterion metrics w = (Ok cfg, w0) →
  ∃ o targets ps,
    c_optimizer cfg = Some o
    ∧ o ∉ dom (heap w)
    ∧ heap w0 !! o = Some (OOpt targets (Adam ps))
    ∧ rmap (get_net (heap w0)) targets = Ok ps
    ∧ if truthy (heap w0) (c_single_net cfg)
      then ∃ net, c_single_net cfg = Some net ∧ targets = [net]
      else ∃ nl, nets = Some nl ∧ get_list (heap w0) nl = Ok targets.
Proof.
  intros H. apply configure_inv in H as (w1 & w2 & w3 & H1 & H2 & H3 & H4).
  apply resolve_networks_inv in H1 as [Hd1 Ht1].
  apply resolve_generator_extends in H2 as [He2 Ht2].
  apply resolve_generator_extends in H3 as [He3 Ht3].
  assert (dom (heap w) ⊆ dom (heap w3)) as Hd3.
  { etrans; [exact Hd1|]. etrans; by apply extends_dom. }
  apply resolve_optimizer_default in H4 as (targets & ps & Ho & Hh & Hps & Hif);
    [|done|by rewrite !Ht3, !Ht2].
  assert (extends (heap w3) (heap w0)) as He.
  { rewrite Hh. apply extends_insert_fresh, is_fresh. }
  exists (fresh (dom (heap w3))), targets, ps.
  split; [done|]. split; [pose proof (is_fresh (dom (heap w3))); set_solver|].
  split; [by rewrite Hh, lookup_insert_eq|].
  split; [by eapply rmap_get_net_extends|].
  assert (truthy (heap w0) (c_single_net cfg)
          = truthy (heap w3) (c_single_net cfg)) as ->.
  { rewrite Hh. by apply truthy_alloc. }
  destruct (truthy (heap w3) (c_single_net cfg)); [done|].
  destruct Hif as (nl & -> & Hl). exists nl. split; [done|].
  unfold get_list in *. rewrite He; [done|].
  apply elem_of_dom. destruct (heap w3 !! nl); [eauto | discriminate].
Qed.

(** *** A system without equations *)

(** X15. When the system returns no residual and there is no additional
    loss term, the loss of a batch is Python's integer [0], and the
    training step raises [AttributeError] at [backward] without changing
    anything. *)
Theorem train_batch_no_equation (ts : T) net nets (ode_system : OdeSystem)
    conditions (criterion : Criterion) optimizer w us :
  _trial_solution (heap w) net nets ts conditions = Ok us →
  ode_system us ts = Ok [] →
  train_batch ts net nets ode_system conditions criterion None optimizer w
  = (Raise AttributeError, w).
Proof.
  intros Hus HF.
  unfold train_batch, bind, get_heap, lift, loss_tensor, loss_is_int,
    calculate_loss.
  rewrite Hus. simpl. rewrite HF. simpl. reflexivity.
Qed.

End program_facts.

(** * Concrete runs

    The theorems above, applied on the small environment. *)

Lemma ok_or_eq {A W} (d : A) (r : Result A * W) :
  is_ok r.1 = true → r = (Ok (ok_or d r.1), r.2).
Proof. destruct r as [[a|e] w]; simpl; [done | discriminate]. Qed.

Example batches_5_by_2 :
  batches 2 [4; 3; 2; 1; 0] = [[4; 3]; [2; 1]; [0]].
Proof. reflexivity. Qed.

(** One epoch of five shuffled points in batches of two: the optimizer
    has taken three steps. *)
Example train_three_steps :
  heap (train (E:=toy) 2 [] 6%positive None (Some 4%positive) toy_system
          2%positive toy_criterion None true (Some 9%positive)
          (mkWorld (E:=toy) (<[9%positive := OOpt [3%positive] 0]> toy_heap) 0)).2
    !! 9%positive
  = Some (OOpt [3%positive] 3).
Proof. vm_compute. reflexivity. Qed.

Lemma solve_system_history_witness :
  toy_run 3 false = (Ok (ok_or no_output (toy_run 3 false).1), (toy_run 3 false).2)
  ∧ ∃ tls vls,
      history (ok_or no_output (toy_run 3 false).1) !! "train_loss" = Some tls
      ∧ history (ok_or no_output (toy_run 3 false).1) !! "valid_loss" = Some vls
      ∧ length tls = Z.to_nat 3 ∧ length vls = Z.to_nat 3.
Proof.
  assert (toy_run 3 false
          = (Ok (ok_or no_output (toy_run 3 false).1), (toy_run 3 false).2)) as Hrun.
  { apply ok_or_eq. vm_compute. reflexivity. }
  split; [exact Hrun|].
  destruct (solve_system_history (E:=toy) _ _ _ _ _ _ _ _ _ _ _ _ _ _ _ _ _ _ _ _ _
              Hrun)
    as (cfg & w0 & tls & vls & _ & Ht & Hv & Hlt & Hlv & _).
  exists tls, vls. split; [exact Ht|]. split; [exact Hv|].
  split; [exact Hlt | exact Hlv].
Defined.

Lemma train_runs_batches_witness :
  (1 ≤ 2)%Z
  ∧ ∀ idx : list nat,
      1 ≤ length idx →
      length (batches (Z.to_nat 2) idx) = ceil_div (length idx) (Z.to_nat 2)
      ∧ concat (batches (Z.to_nat 2) idx) = idx.
Proof.
  split; [lia|]. intros idx Hidx.
  destruct (train_runs_batches (E:=toy) 2%Z [] 6%positive None (Some 4%positive)
              toy_system 2%positive toy_criterion None true (Some 9%positive)
              ltac:(lia)) as [_ Hb].
  destruct (Hb idx Hidx) as (H1 & _ & H2 & _). split; assumption.
Defined.

Lemma Solution_isolated_witness :
  toy_snapshot = (Ok (ok_or no_solution toy_snapshot.1), toy_snapshot.2)
  ∧ ∀ h2 : gmap loc (Obj Z Z (list Z) nat nat),
      (∀ l, l ∉ dom (heap toy_world) → h2 !! l = heap toy_snapshot.2 !! l) →
      ∀ ts as_type,
        Solution_call (E:=toy) h2 (ok_or no_solution toy_snapshot.1) ts as_type
        = Solution_call (E:=toy) (heap toy_snapshot.2)
            (ok_or no_solution toy_snapshot.1) ts as_type.
Proof.
  assert (toy_snapshot = (Ok (ok_or no_solution toy_snapshot.1), toy_snapshot.2))
    as Hinit.
  { apply ok_or_eq. vm_compute. reflexivity. }
  split; [exact Hinit|].
  exact (proj1 (proj2 (Solution_isolated (E:=toy) _ _ _ _ _ _ Hinit))).
Defined.

(** The snapshot after the original network has been trained on: the
    original now answers differently, the snapshot as before. *)
Example snapshot_survives_training :
  let w1 := toy_snapshot.2 in
  let sol := ok_or no_solution toy_snapshot.1 in
  let h2 := <[3%positive := ONet 7%Z]> (heap w1) in
  _trial_solution (E:=toy) h2 None (Some 4%positive) toy_batch 2%positive
  ≠ _trial_solution (E:=toy) (heap w1) None (Some 4%positive) toy_batch 2%positive
  ∧ _trial_solution (E:=toy) h2 (self_single_net sol) (self_nets sol) toy_batch
      (self_conditions sol)
    = _trial_solution (E:=toy) (heap w1) (self_single_net sol) (self_nets sol)
        toy_batch (self_conditions sol).
Proof. vm_compute. split; [discriminate | reflexivity]. Qed.

Lemma solve_system_best_checkpoint_witness :
  toy_run 3 true = (Ok (ok_or no_output (toy_run 3 true).1), (toy_run 3 true).2)
  ∧ ∃ vls,
      history (ok_or no_output (toy_run 3 true).1) !! "valid_loss" = Some vls
      ∧ improves (E:=toy) vls 0 = true
      ∧ improves (E:=toy) vls 1 = false.
Proof.
  assert (toy_run 3 true
          = (Ok (ok_or no_output (toy_run 3 true).1), (toy_run 3 true).2)) as Hrun.
  { apply ok_or_eq. vm_compute. reflexivity. }
  split; [exact Hrun|].
  destruct (solve_system_best_checkpoint (E:=toy) _ _ _ _ _ _ _ _ _ _ _ _ _ _ _ _
              _ _ _ _ _ Hrun)
    as (cfg & w0 & st & wE & vls & _ & _ & Hv & _).
  exists vls. split; [exact Hv|].
  assert (vls = [Fin 2; Fin 2; Fin 2]) as ->.
  { vm_compute in Hv. by injection Hv as <-. }
  split; reflexivity.
Defined.

(** The residuals here are one-dimensional and the batch is a column:
    against zeros shaped like the batch the strict criterion raises,
    against zeros shaped like each residual it returns a loss. *)
Lemma calculate_loss_target_counterexample :
  calculate_loss (E:=toy) toy_heap toy_batch None (Some 4%positive) flat_system
    2%positive strict_criterion None
  ≠ calculate_loss_spec (E:=toy) toy_heap toy_batch None (Some 4%positive)
      flat_system 2%positive strict_criterion None.
Proof. vm_compute. discriminate. Qed.

Lemma calculate_loss_is_spec_witness :
  well_shaped (E:=toy) toy_batch
  ∧ calculate_loss (E:=toy) toy_heap toy_batch None (Some 4%positive) toy_system
      2%positive toy_criterion None
    = calculate_loss_spec (E:=toy) toy_heap toy_batch None (Some 4%positive)
        toy_system 2%positive toy_criterion None.
Proof.
  split; [reflexivity|].
  apply (calculate_loss_is_spec (E:=toy)); [reflexivity|].
  intros us Futs Hus HF. vm_compute in Hus. injection Hus as <-.
  injection HF as <-. repeat constructor.
Defined.

(** A network and an empty list of networks are both given, and
    [solve_system] trains for its epoch instead of raising the conflict. *)
Lemma solve_system_conflict_counterexample :
  ¬ (is_Some (Some 3%positive) → is_Some (Some 5%positive) →
     solve_system (E:=toy) toy_system 2%positive None None (Some 3%positive)
       (Some 5%positive) (Some 6%positive) true (Some 7%positive) None None None
       None 2%Z 1%Z None false false toy_world
     = (Raise ConfigurationConflict, toy_world)).
Proof.
  intros H. specialize (H ltac:(eauto) ltac:(eauto)).
  apply (f_equal (λ r, is_ok r.1)) in H. vm_compute in H. discriminate.
Qed.

Lemma solve_system_conflict_witness :
  truthy (E:=toy) (heap toy_world) (Some 3%positive) = true
  ∧ truthy (E:=toy) (heap toy_world) (Some 4%positive) = true
  ∧ solve_system (E:=toy) toy_system 2%positive None None (Some 3%positive)
      (Some 4%positive) (Some 6%positive) true (Some 7%positive) None None None
      None 2%Z 1%Z None false false toy_world
    = (Raise ConfigurationConflict, toy_world).
Proof.
  split; [reflexivity|]. split; [reflexivity|].
  apply (solve_system_conflict (E:=toy)); reflexivity.
Defined.

(** A network that is supplied but false raises no conflict either: with
    a module of length zero for [single_net] and a list of one network
    for [nets], the epoch runs. *)
Example solve_system_empty_module_no_conflict :
  truthy (E:=toy) (heap toy_empty_module_world) (Some 10%positive) = false
  ∧ is_ok (solve_system (E:=toy) toy_system 2%positive None None
             (Some 10%positive) (Some 4%positive) (Some 6%positive) true
             (Some 7%positive) None None None None 2%Z 1%Z None false false
             toy_empty_module_world).1
    = true.
Proof. vm_compute. split; reflexivity. Qed.

(** The training generator is given, the validation generator and the
    bounds are not: the missing-bounds error is raised although training
    points were supplied. *)
Lemma solve_system_missing_bounds_counterexample :
  ¬ ((solve_system (E:=toy) toy_system 2%positive None None None
        (Some 4%positive) (Some 6%positive) true None None None None None 2%Z
        1%Z None false false toy_world).1
     = Raise MissingDomainBounds
     ↔ (Some 6%positive : option loc) = None
       ∧ ((None : option XZ) = None ∨ (None : option XZ) = None)).
Proof.
  intros [H _]. destruct H as [H _]; [vm_compute; reflexivity | discriminate].
Qed.

Lemma solve_system_missing_bounds_witness :
  solve_system (E:=toy) toy_system 2%positive None None None (Some 4%positive)
    (Some 6%positive) true None None None None None 2%Z 1%Z None false false
    toy_world
  = (Raise MissingDomainBounds, toy_world).
Proof.
  destruct (solve_system_missing_bounds (E:=toy) toy_system 2%positive None None
              None (Some 4%positive) (Some 6%positive) true None None None None
              None 2%Z 1%Z None false false toy_world toy_world)
    as [Hiff Hraise].
  apply Hraise, Hiff. exists None.
  split; [vm_compute; reflexivity|].
  split; [right; reflexivity | left; reflexivity].
Defined.


Lemma solve_system_return_best_no_epoch_witness :
  is_ok (toy_run 0 true).1 = true
  ∧ solution (ok_or no_output (toy_run 0 true).1) = None
  ∧ history (ok_or no_output (toy_run 0 true).1) !! "train_loss" = Some []
  ∧ history (ok_or no_output (toy_run 0 true).1) !! "valid_loss" = Some [].
Proof.
  unfold toy_run. rewrite (solve_system_return_best_no_epoch (E:=toy)).
  vm_compute. repeat split; reflexivity.
Defined.

Lemma solve_is_solve_system_witness :
  truthy (E:=toy) (heap toy_world) (Some 3%positive) = true
  ∧ solve (E:=toy) toy_ode 1%positive None None (Some 3%positive)
      (Some 6%positive) true (Some 7%positive) None None None None 2%Z 1%Z None
      false false toy_world
    = solve_spec (E:=toy) toy_ode 1%positive None None (Some 3%positive)
        (Some 6%positive) true (Some 7%positive) None None None None 2%Z 1%Z
        None false false toy_world.
Proof.
  split; [vm_compute; reflexivity|].
  exact (solve_is_solve_system (E:=toy) toy_ode 1%positive None None
           (Some 3%positive) (Some 6%positive) true (Some 7%positive) None None
           None None 2%Z 1%Z None false false toy_world).
Defined.

(** A network whose module has length zero is supplied (object 10).  By
    the claim [solve] passes it on as [nets = [net]] and the optimizer
    (object 13) is built over it; [solve] drops it, [solve_system]
    creates a default network (object 12) and the optimizer is built
    over that one. *)
Lemma solve_is_solve_system_counterexample :
  solve (E:=toy) toy_ode 1%positive None None (Some 10%positive)
    (Some 6%positive) true (Some 7%positive) None None None None 2%Z 1%Z None
    false false toy_empty_module_world
  ≠ solve_spec (E:=toy) toy_ode 1%positive None None (Some 10%positive)
      (Some 6%positive) true (Some 7%positive) None None None None 2%Z 1%Z
      None false false toy_empty_module_world.
Proof.
  intros H. apply (f_equal (λ r, heap r.2 !! 13%positive)) in H.
  vm_compute in H. discriminate.
Qed.

(** [solve] on the small environment: one epoch, a solution and both
    series with their one entry. *)
Example solve_one_epoch :
  let r := solve (E:=toy) toy_ode 1%positive None None (Some 3%positive)
             (Some 6%positive) true (Some 7%positive) None None None None 2%Z
             1%Z None false false toy_world in
  is_ok r.1 = true
  ∧ is_Some (solution (ok_or no_output r.1))
  ∧ length <$> history (ok_or no_output r.1) !! "train_loss" = Some 1
  ∧ length <$> history (ok_or no_output r.1) !! "valid_loss" = Some 1.
Proof. vm_compute. repeat split; eauto. Qed.

(** One condition, an empty list of networks: [zip] stops at once. *)
Lemma trial_solution_length_witness :
  _trial_solution (E:=toy) toy_heap None (Some 5%positive) toy_batch 2%positive
  = Ok []
  ∧ ∃ cons,
      get_list (E:=toy) toy_heap 2%positive = Ok cons
      ∧ ∃ nl ns, Some 5%positive = Some nl
                 ∧ get_list (E:=toy) toy_heap nl = Ok ns
                 ∧ length ([] : list (Tensor XZ)) = length cons `min` length ns.
Proof.
  assert (_trial_solution (E:=toy) toy_heap None (Some 5%positive) toy_batch
            2%positive = Ok []) as Hus by (vm_compute; reflexivity).
  split; [exact Hus|].
  exact (trial_solution_length (E:=toy) toy_heap None (Some 5%positive)
           toy_batch 2%positive [] Hus).
Defined.

Lemma Solution_call_empty_witness :
  length [1%positive] ≤ 1
  ∧ Solution_call (E:=toy) toy_heap (mkSolution None (Some 5%positive) 2%positive)
      (PSequence (E:=toy) [Fin 0; Fin 1]) "np"
    = Raise IndexError.
Proof.
  split; [simpl; lia|].
  apply (Solution_call_empty (E:=toy) toy_heap
           (mkSolution None (Some 5%positive) 2%positive)
           (PSequence (E:=toy) [Fin 0; Fin 1]) "np" [1%positive]).
  - right. reflexivity.
  - vm_compute. reflexivity.
  - vm_compute. reflexivity.
  - simpl. lia.
Defined.

Lemma solve_system_no_epoch_witness :
  (-1 ≤ 0)%Z
  ∧ is_ok (toy_run (-1) false).1 = true
  ∧ is_Some (solution (ok_or no_output (toy_run (-1) false).1))
  ∧ history (ok_or no_output (toy_run (-1) false).1) !! "train_loss" = Some []
  ∧ history (ok_or no_output (toy_run (-1) false).1) !! "valid_loss" = Some [].
Proof.
  split; [lia|]. unfold toy_run.
  rewrite (solve_system_no_epoch (E:=toy)); [|lia].
  vm_compute. repeat split; eauto.
Defined.

(** The equations raise in the first epoch; three epochs were asked
    for. *)
Lemma solve_system_epoch_raises_witness :
  (Z.of_nat 0 < 3)%Z
  ∧ (solve_system (E:=toy) raising_system 2%positive None None None
       (Some 4%positive) (Some 6%positive) true (Some 7%positive) None None None
       None 2%Z 3%Z (Some 8%positive) false false toy_world).1
    = Raise (ValueError "the equation is not defined here").
Proof.
  split; [lia|].
  set (cfg := ok_or no_config toy_configured.1).
  set (body := epoch_body (E:=toy) 2%Z (c_metrics cfg) (c_train_generator cfg)
                 (c_valid_generator cfg) (c_single_net cfg) (Some 4%positive)
                 raising_system 2%positive (c_criterion cfg) None true
                 (c_optimizer cfg) (Some 8%positive) false
                 (loop_init (c_metrics cfg)) 0 toy_configured.2).
  rewrite (solve_system_epoch_raises (E:=toy) raising_system 2%positive None None
             None (Some 4%positive) (Some 6%positive) true (Some 7%positive) None
             None None None 2%Z 3%Z (Some 8%positive) false false toy_world cfg
             toy_configured.2 0 (loop_init (c_metrics cfg)) toy_configured.2
             (ValueError "the equation is not defined here") body.2).
  - reflexivity.
  - apply ok_or_eq. vm_compute. reflexivity.
  - reflexivity.
  - apply injective_projections; [vm_compute; reflexivity | reflexivity].
  - lia.
Defined.

Lemma Solution_init_faithful_witness :
  toy_snapshot = (Ok (ok_or no_solution toy_snapshot.1), toy_snapshot.2)
  ∧ ∀ ts as_type,
      Solution_call (E:=toy) (heap toy_snapshot.2)
        (ok_or no_solution toy_snapshot.1) ts as_type
      = Solution_call (E:=toy) (heap toy_world)
          (live None (Some 4%positive) 2%positive) ts as_type.
Proof.
  assert (toy_snapshot = (Ok (ok_or no_solution toy_snapshot.1), toy_snapshot.2))
    as Hinit.
  { apply ok_or_eq. vm_compute. reflexivity. }
  split; [exact Hinit|].
  apply (Solution_init_faithful (E:=toy) None (Some 4%positive) 2%positive
           toy_world); [|exact Hinit].
  intros l Hl.
  assert (l = 4%positive ∨ l = 2%positive) as [-> | ->].
  { destruct Hl as [Hl|[Hl|Hl]]; [discriminate | left; congruence | by right]. }
  - split; [apply elem_of_dom; eexists; vm_compute; reflexivity|].
    intros items Hi. vm_compute in Hi. injection Hi as <-.
    repeat constructor.
  - split; [apply elem_of_dom; eexists; vm_compute; reflexivity|].
    intros items Hi. vm_compute in Hi. injection Hi as <-.
    repeat constructor.
Defined.

(** The condition is not among the objects an epoch writes. *)
Lemma epoch_passes_writes_witness :
  1%positive ∈ dom (heap toy_opt_world)
  ∧ 1%positive ∉ written (E:=toy) (heap toy_opt_world) 6%positive 7%positive
                   (Some 9%positive) (Some 8%positive)
  ∧ heap (epoch_passes (E:=toy) 2%Z [] 6%positive 7%positive None
            (Some 4%positive) toy_system 2%positive toy_criterion None true
            (Some 9%positive) (Some 8%positive) (history_init (E:=toy) []) 0
            toy_opt_world).2 !! 1%positive
    = heap toy_opt_world !! 1%positive.
Proof.
  assert (1%positive ∈ dom (heap toy_opt_world)) as Hl.
  { apply elem_of_dom. eexists. vm_compute. reflexivity. }
  assert (1%positive ∉ written (E:=toy) (heap toy_opt_world) 6%positive
                         7%positive (Some 9%positive) (Some 8%positive)) as HD.
  { unfold written, trained.
    replace (heap toy_opt_world !! 9%positive)
      with (Some (OOpt (P:=Z) (C:=Z) (G:=list Z) (Mo:=nat) [3%positive] 0))
      by (vm_compute; reflexivity).
    set_solver. }
  split; [exact Hl|]. split; [exact HD|].
  exact (epoch_passes_writes (E:=toy) 2%Z [] 6%positive 7%positive None
           (Some 4%positive) toy_system 2%positive toy_criterion None true
           (Some 9%positive) (Some 8%positive) (history_init (E:=toy) []) 0
           toy_opt_world 1%positive Hl HD).
Defined.

Lemma toy_configured_allocated l :
  c_single_net (ok_or no_config toy_configured.1) = Some l
  ∨ Some 4%positive = Some l ∨ l = 2%positive →
  allocated (E:=toy) (heap toy_configured.2) l.
Proof.
  intros Hl.
  assert (l = 4%positive ∨ l = 2%positive) as [-> | ->].
  { destruct Hl as [Hl|[Hl|Hl]];
      [vm_compute in Hl; discriminate | left; congruence | by right]. }
  - split; [apply elem_of_dom; eexists; vm_compute; reflexivity|].
    intros items Hi. vm_compute in Hi. injection Hi as <-.
    repeat constructor.
  - split; [apply elem_of_dom; eexists; vm_compute; reflexivity|].
    intros items Hi. vm_compute in Hi. injection Hi as <-.
    repeat constructor.
Qed.

Lemma solve_system_returns_trained_witness :
  is_ok (toy_run 3 false).1 = true
  ∧ ∃ sol,
      solution (ok_or no_output (toy_run 3 false).1) = Some sol
      ∧ ∀ ts as_type,
          Solution_call (E:=toy) (heap (toy_run 3 false).2) sol ts as_type
          = Solution_call (E:=toy) (heap (toy_run 3 false).2)
              (live (c_single_net (ok_or no_config toy_configured.1))
                 (Some 4%positive) 2%positive) ts as_type.
Proof.
  assert (is_ok (toy_run 3 false).1 = true) as Hok by (vm_compute; reflexivity).
  split; [exact Hok|].
  apply (solve_system_returns_trained (E:=toy) toy_system 2%positive None None
           None (Some 4%positive) (Some 6%positive) true (Some 7%positive) None
           None None None 2%Z 3%Z (Some 8%positive) false toy_world
           (ok_or no_config toy_configured.1) toy_configured.2).
  - apply (ok_or_eq no_config toy_configured). vm_compute. reflexivity.
  - exact toy_configured_allocated.
  - exact (ok_or_eq no_output (toy_run 3 false) Hok).
Defined.

Lemma toy_configured_written :
  written (E:=toy) (heap toy_configured.2)
    (c_train_generator (ok_or no_config toy_configured.1))
    (c_valid_generator (ok_or no_config toy_configured.1))
    (c_optimizer (ok_or no_config toy_configured.1)) (Some 8%positive)
  ⊆ dom (heap toy_configured.2).
Proof. apply (proj1 (bool_decide_eq_true _)). vm_compute. reflexivity. Qed.

(** Three epochs with [return_best]: the first one is the best, and the
    returned solution is the network as it was after it. *)
Lemma solve_system_returns_best_witness :
  is_ok (toy_run 3 true).1 = true
  ∧ is_Some (solution (ok_or no_output (toy_run 3 true).1))
  ∧ ∃ k st_k w_k hist v wp vls,
      k < Z.to_nat 3
      ∧ run_epochs (E:=toy) toy_system 2%positive (Some 4%positive) true None
          2%Z (Some 8%positive) true (ok_or no_config toy_configured.1) k
          toy_configured.2 = (Ok st_k, w_k)
      ∧ epoch_passes (E:=toy) 2%Z
          (c_metrics (ok_or no_config toy_configured.1))
          (c_train_generator (ok_or no_config toy_configured.1))
          (c_valid_generator (ok_or no_config toy_configured.1))
          (c_single_net (ok_or no_config toy_configured.1)) (Some 4%positive)
          toy_system 2%positive
          (c_criterion (ok_or no_config toy_configured.1)) None true
          (c_optimizer (ok_or no_config toy_configured.1)) (Some 8%positive)
          (ls_history st_k) k w_k = (Ok (hist, v), wp)
      ∧ history (ok_or no_output (toy_run 3 true).1) !! "valid_loss" = Some vls
      ∧ vls !! k = Some v
      ∧ v = running_min (E:=toy) vls
      ∧ ∀ ts as_type,
          Solution_call (E:=toy) (heap (toy_run 3 true).2)
            (default no_solution
               (solution (ok_or no_output (toy_run 3 true).1))) ts as_type
          = Solution_call (E:=toy) (heap wp)
              (live (c_single_net (ok_or no_config toy_configured.1))
                 (Some 4%positive) 2%positive) ts as_type.
Proof.
  assert (is_ok (toy_run 3 true).1 = true) as Hok by (vm_compute; reflexivity).
  assert (is_Some (solution (ok_or no_output (toy_run 3 true).1))) as Hsome.
  { apply (proj1 (bool_decide_eq_true _)). vm_compute. reflexivity. }
  split; [exact Hok|]. split; [exact Hsome|].
  apply (solve_system_returns_best (E:=toy) toy_system 2%positive None None
           None (Some 4%positive) (Some 6%positive) true (Some 7%positive) None
           None None None 2%Z 3%Z (Some 8%positive) false toy_world
           (ok_or no_config toy_configured.1) toy_configured.2
           (ok_or no_output (toy_run 3 true).1) (toy_run 3 true).2).
  - apply (ok_or_eq no_config toy_configured). vm_compute. reflexivity.
  - exact toy_configured_written.
  - exact toy_configured_allocated.
  - exact (ok_or_eq no_output (toy_run 3 true) Hok).
  - destruct Hsome as [sol ->]. reflexivity.
Defined.

Lemma solve_system_metric_series_witness :
  NoDup toy_metrics.*1
  ∧ "n_points" ∈ toy_metrics.*1
  ∧ is_ok toy_run_metrics.1 = true
  ∧ ∃ tms vms,
      history (ok_or no_output toy_run_metrics.1) !! ("train__" +:+ "n_points")
      = Some tms
      ∧ history (ok_or no_output toy_run_metrics.1) !! ("valid__" +:+ "n_points")
        = Some vms
      ∧ length tms = Z.to_nat 2 ∧ length vms = Z.to_nat 2.
Proof.
  assert (NoDup toy_metrics.*1) as Hnd.
  { apply (proj1 (bool_decide_eq_true _)). vm_compute. reflexivity. }
  assert ("n_points" ∈ toy_metrics.*1) as Hin.
  { apply (proj1 (bool_decide_eq_true _)). vm_compute. reflexivity. }
  assert (is_ok toy_run_metrics.1 = true) as Hok by (vm_compute; reflexivity).
  split; [exact Hnd|]. split; [exact Hin|]. split; [exact Hok|].
  destruct (solve_system_metric_series (E:=toy) toy_system 2%positive None None
              None (Some 4%positive) (Some 6%positive) true (Some 7%positive)
              None None None toy_metrics 2%Z 2%Z (Some 8%positive) false false
              toy_world (ok_or no_output toy_run_metrics.1) toy_run_metrics.2
              "n_points" Hnd Hin (ok_or_eq no_output toy_run_metrics Hok))
    as (cfg & w0 & tms & vms & _ & Ht & Hv & Hlt & Hlv & _).
  exists tms, vms. split; [exact Ht|]. split; [exact Hv|].
  split; [exact Hlt | exact Hlv].
Defined.

(** The series of the number of training points: five, in both epochs. *)
Example metric_series_values :
  history (ok_or no_output toy_run_metrics.1) !! "train__n_points"
  = Some [Fin 5; Fin 5]
  ∧ history (ok_or no_output toy_run_metrics.1) !! "valid__n_vars"
    = Some [Fin 1; Fin 1].
Proof. vm_compute. split; reflexivity. Qed.

(** The network is as it was after a validation pass. *)
Lemma valid_never_trains_witness :
  3%positive ≠ 7%positive
  ∧ heap (valid (E:=toy) [] 7%positive None (Some 4%positive) toy_system
            2%positive toy_criterion None toy_world).2 !! 3%positive
    = heap toy_world !! 3%positive.
Proof.
  split; [discriminate|].
  apply (valid_never_trains (E:=toy)). discriminate.
Defined.

Lemma train_loop_never_ends_witness :
  (0 ≤ 0)%Z ∧ 1 ≤ 5
  ∧ ∀ fuel w,
      is_ok (train_loop (E:=toy) fuel 0%Z toy_batch 5 [0; 1; 2; 3; 4] 0%Z 0%Z
               None (Some 4%positive) toy_system 2%positive toy_criterion None
               (Some 9%positive) w).1
      = false.
Proof.
  split; [lia|]. split; [lia|].
  apply (train_loop_never_ends (E:=toy)); lia.
Defined.

(** No network given, one condition: a new network with one output unit,
    and the condition marked with unit 0. *)
Lemma resolve_networks_marks_witness :
  toy_resolved = (Ok (ok_or None toy_resolved.1), toy_resolved.2)
  ∧ NoDup [1%positive]
  ∧ (∀ i con, [1%positive] !! i = Some con →
       ∃ old c, get_cond (E:=toy) (heap toy_world) con = Ok (old, c)
                ∧ get_cond (E:=toy) (heap toy_resolved.2) con = Ok (Some i, c))
  ∧ ∃ net,
      ok_or None toy_resolved.1 = Some net
      ∧ net ∉ dom (heap toy_world)
      ∧ heap toy_resolved.2 !! net
        = Some (ONet (FCNN (Env:=toy) 1 (length [1%positive]) [32; 32] "Tanh"
                        (rng toy_world)).1)
      ∧ rng toy_resolved.2
        = (FCNN (Env:=toy) 1 (length [1%positive]) [32; 32] "Tanh"
             (rng toy_world)).2.
Proof.
  assert (toy_resolved = (Ok (ok_or None toy_resolved.1), toy_resolved.2)) as Hr.
  { apply ok_or_eq. vm_compute. reflexivity. }
  assert (NoDup [1%positive]) as Hnd.
  { apply NoDup_singleton. }
  split; [exact Hr|]. split; [exact Hnd|].
  exact (resolve_networks_marks (E:=toy) 2%positive None None toy_world
           (ok_or None toy_resolved.1) toy_resolved.2 [1%positive] Hr eq_refl
           eq_refl Hnd).
Defined.

Lemma configure_default_generators_witness :
  toy_configured_bounds
  = (Ok (ok_or no_config toy_configured_bounds.1), toy_configured_bounds.2)
  ∧ c_train_generator (ok_or no_config toy_configured_bounds.1)
    ≠ c_valid_generator (ok_or no_config toy_configured_bounds.1)
  ∧ get_gen (E:=toy) (heap toy_configured_bounds.2)
      (c_train_generator (ok_or no_config toy_configured_bounds.1))
    = Ok (Generator1D (Env:=toy) 32 (Fin 0) (Fin 1) "equally-spaced-noisy")
  ∧ get_gen (E:=toy) (heap toy_configured_bounds.2)
      (c_valid_generator (ok_or no_config toy_configured_bounds.1))
    = Ok (Generator1D (Env:=toy) 32 (Fin 0) (Fin 1) "equally-spaced").
Proof.
  assert (toy_configured_bounds
          = (Ok (ok_or no_config toy_configured_bounds.1),
             toy_configured_bounds.2)) as Hcfg.
  { apply ok_or_eq. vm_compute. reflexivity. }
  split; [exact Hcfg|].
  destruct (configure_default_generators (E:=toy) 2%positive (Fin 0) (Fin 1)
              None (Some 4%positive) None None None toy_world _ _ Hcfg)
    as (Hne & _ & _ & Ht & Hv).
  split; [exact Hne|]. split; [exact Ht | exact Hv].
Defined.

Lemma configure_default_optimizer_witness :
  toy_configured = (Ok (ok_or no_config toy_configured.1), toy_configured.2)
  ∧ ∃ o targets ps,
      c_optimizer (ok_or no_config toy_configured.1) = Some o
      ∧ o ∉ dom (heap toy_world)
      ∧ heap toy_configured.2 !! o = Some (OOpt targets (Adam (Env:=toy) ps))
      ∧ rmap (get_net (E:=toy) (heap toy_configured.2)) targets = Ok ps
      ∧ ∃ nl, Some 4%positive = Some nl
              ∧ get_list (E:=toy) (heap toy_configured.2) nl = Ok targets.
Proof.
  assert (toy_configured
          = (Ok (ok_or no_config toy_configured.1), toy_configured.2)) as Hcfg.
  { apply ok_or_eq. vm_compute. reflexivity. }
  split; [exact Hcfg|].
  destruct (configure_default_optimizer (E:=toy) 2%positive None None None
              (Some 4%positive) (Some 6%positive) (Some 7%positive) None None
              toy_world _ _ Hcfg)
    as (o & targets & ps & Ho & Hf & Hl & Hps & Hif).
  exists o, targets, ps. split; [exact Ho|]. split; [exact Hf|].
  split; [exact Hl|]. split; [exact Hps|].
  assert (truthy (E:=toy) (heap toy_configured.2)
            (c_single_net (ok_or no_config toy_configured.1)) = false) as Hs.
  { vm_compute. reflexivity. }
  rewrite Hs in Hif. exact Hif.
Defined.

(** A system without equations: the first training step raises. *)
Lemma train_batch_no_equation_witness :
  is_ok (_trial_solution (E:=toy) (heap toy_opt_world) None (Some 4%positive)
           toy_batch 2%positive) = true
  ∧ train_batch (E:=toy) toy_batch None (Some 4%positive) empty_system
      2%positive toy_criterion None (Some 9%positive) toy_opt_world
    = (Raise AttributeError, toy_opt_world).
Proof.
  split; [vm_compute; reflexivity|].
  apply (train_batch_no_equation (E:=toy) toy_batch None (Some 4%positive)
           empty_system 2%positive toy_criterion (Some 9%positive) toy_opt_world
           (ok_or [] (_trial_solution (E:=toy) (heap toy_opt_world) None
                        (Some 4%positive) toy_batch 2%positive))).
  - vm_compute. reflexivity.
  - reflexivity.
Defined.
